(** * ImageWatch: the viewport / zoom / tiling core of [main.py]

  A shallow embedding of the parts of [main.py] that carry state-machine
  and algorithmic content: the LRU [TileCache], the grayscale sampling
  pass, the visible-tile reconciliation, the Normal/Pixel mode
  transitions, the wheel handler, the pixel probe and [load_image].

  Conventions.
  - Python [int] is [Z]; [//] on a positive divisor is [Z.div].
  - Python [float] and Qt's [qreal] are IEEE binary64, modelled by Rocq's
    primitive [float]; literals denote the same doubles as in Python.
  - Python [dict] is a [gmap]; [collections.deque] is a [list] whose head
    is the left end.
  - An uncaught Python exception ([ZeroDivisionError], or [ValueError] /
    [OverflowError] of [math.floor] on a non-finite double) is [None] in
    the [option] monad.
  - Qt's view geometry ([mapToScene], [centerOn], scroll-bar ranges) is
    external to the repository: it enters as a record of functions,
    [QtGeometry], about which nothing is assumed.  What [QTransform]
    does to its entries is fixed by Qt's sources and written out
    below. *)

From Stdlib Require Import ZArith Floats Lia Bool.
From stdpp Require Import gmap list option.

#[local] Set Warnings "-inexact-float".
#[local] Open Scope Z_scope.

(* ================================================================== *)
(** * Python numerics *)
(* ================================================================== *)

Module Py.

(** [float(z)] for a Python [int].  Every int converted here is one of
    Qt's 32-bit ints (an [angleDelta], an image size) or a small constant,
    so the conversion goes through the primitive [of_uint63] on the
    magnitude: it is exact below [2^53] and correctly rounded below
    [2^63]. *)
Definition float_of_Z (z : Z) : float :=
  match z with
  | Z0 => 0%float
  | Zpos _ => of_uint63 (Uint63.of_Z z)
  | Zneg p => (- of_uint63 (Uint63.of_Z (Zpos p)))%float
  end.

Definition is_finite (x : float) : bool :=
  match Prim2SF x with
  | S754_zero _ | S754_finite _ _ _ => true
  | S754_infinity _ | S754_nan => false
  end.

(** [int(math.floor(x))]: raises on NaN and on the infinities.  A finite
    double is [±m·2^e]; shifting the signed mantissa by [e] (to the
    right when [e] is negative, which rounds towards minus infinity) is
    its floor. *)
Definition floor (x : float) : option Z :=
  match Prim2SF x with
  | S754_zero _ => Some 0
  | S754_finite s m e => Some (Z.shiftl (cond_Zopp s (Zpos m)) e)
  | S754_infinity _ | S754_nan => None
  end.

(** [int(math.ceil(x))]. *)
Definition ceil (x : float) : option Z :=
  match Prim2SF x with
  | S754_zero _ => Some 0
  | S754_finite s m e => Some (- Z.shiftl (cond_Zopp (negb s) (Zpos m)) e)
  | S754_infinity _ | S754_nan => None
  end.

(** [int(x)] on a float: truncation towards zero. *)
Definition int (x : float) : option Z :=
  match Prim2SF x with
  | S754_zero _ => Some 0
  | S754_finite s m e => Some (cond_Zopp s (Z.shiftl (Zpos m) e))
  | S754_infinity _ | S754_nan => None
  end.

(** The builtin [max(a, b)] keeps [a] unless [b > a]; [min(a, b)] keeps
    [a] unless [b < a].  Comparisons with NaN are false. *)
Definition max (a b : float) : float := if (a <? b)%float then b else a.
Definition min (a b : float) : float := if (b <? a)%float then b else a.

(** [a / b] raises [ZeroDivisionError] when [b] is [0.0] or [-0.0]. *)
Definition div (a b : float) : option float :=
  if (b =? 0)%float then None else Some (a / b)%float.

(** [range(0, stop, step)] for [step > 0], as the list it iterates. *)
Definition range_len (stop step : Z) : nat :=
  if stop <=? 0 then 0%nat else Z.to_nat ((stop + step - 1) / step).

Definition range (stop step : Z) : list Z :=
  (fun i => Z.of_nat i * step) <$> seq 0 (range_len stop step).

(** [range(lo, hi + 1)] with unit step. *)
Definition range_incl (lo hi : Z) : list Z :=
  (fun i => lo + Z.of_nat i) <$> seq 0 (Z.to_nat (hi + 1 - lo)).

End Py.

(* ================================================================== *)
(** * Configuration constants *)
(* ================================================================== *)

Definition PIXEL_CELL : Z := 64.
Definition TILE_ORIG_PX : Z := 16.
Definition CACHE_MAX_TILES : nat := 200.

Definition MIN_SCALE : float := 0.05%float.
(** [self._max_scale], assigned once in [__init__]. *)
Definition max_scale : float := 64.0%float.
(** [self._smooth_threshold], assigned once in [__init__]. *)
Definition smooth_threshold : float := 2.5%float.

(* ================================================================== *)
(** * TileCache *)
(* ================================================================== *)

Definition TileKey : Type := Z * Z.

Module TileCache.
Section Cache.
Context {Pix : Type}.

(** [max_tiles] is a natural number: the only instance built is
    [TileCache(CACHE_MAX_TILES)], so [popleft] never meets an empty
    deque. *)
Record t : Type := mk {
  max_tiles : nat;
  cache : gmap TileKey Pix;
  order : list TileKey;
}.

Definition new (n : nat) : t := mk n ∅ [].

(** [deque.remove(key)]: drops the first occurrence; the [ValueError] of
    a missing key is caught and ignored by both callers. *)
Fixpoint remove_first (key : TileKey) (l : list TileKey) : list TileKey :=
  match l with
  | [] => []
  | k :: l' => if decide (k = key) then l' else k :: remove_first key l'
  end.

Definition get (c : t) (key : TileKey) : option Pix * t :=
  match cache c !! key with
  | Some pix =>
      (Some pix, mk (max_tiles c) (cache c) (remove_first key (order c) ++ [key]))
  | None => (None, c)
  end.

(** The [while len(self.order) > self.max_tiles] loop of [put]. *)
Fixpoint evict (n : nat) (m : gmap TileKey Pix) (l : list TileKey)
  : gmap TileKey Pix * list TileKey :=
  match l with
  | [] => (m, [])
  | old :: l' =>
      if decide (n < length l)%nat then evict n (delete old m) l' else (m, l)
  end.

Definition put (c : t) (key : TileKey) (pixmap : Pix) : t :=
  let order1 :=
    match cache c !! key with
    | Some _ => remove_first key (order c)
    | None => order c
    end in
  let cache1 := <[key := pixmap]> (cache c) in
  let order2 := order1 ++ [key] in
  let '(cache2, order3) := evict (max_tiles c) cache1 order2 in
  mk (max_tiles c) cache2 order3.

Definition clear (c : t) : t := mk (max_tiles c) ∅ [].

(** A client's call on the cache, and a run of such calls. *)
Inductive op : Type :=
| Get (key : TileKey)
| Put (key : TileKey) (pixmap : Pix)
| Clear.

Definition step (c : t) (o : op) : t :=
  match o with
  | Get key => snd (get c key)
  | Put key pixmap => put c key pixmap
  | Clear => clear c
  end.

Definition run (c : t) (ops : list op) : t := foldl step c ops.

Definition put_all (c : t) (kvs : list (TileKey * Pix)) : t :=
  foldl (fun c kv => put c (fst kv) (snd kv)) c kvs.

End Cache.
Arguments t : clear implicits.
End TileCache.

(* ================================================================== *)
(** * Qt value types *)
(* ================================================================== *)

Record QPoint : Type := mkQPoint { pt_x : Z; pt_y : Z }.
Record QPointF : Type := mkQPointF { ptf_x : float; ptf_y : float }.
Record QSize : Type := mkQSize { sz_width : Z; sz_height : Z }.
Record QRectF : Type := mkQRectF {
  rect_left : float; rect_top : float; rect_right : float; rect_bottom : float;
}.

(** Scroll-bar values, horizontal then vertical. *)
Definition Scroll : Type := Z * Z.

(** The view matrix restricted to what the viewer ever builds: a scale
  and a translation ([m11], [m22], [dx], [dy] of [QTransform]). *)
Record QTransform : Type := mkQTransform {
  m11 : float; m22 : float; m31 : float; m32 : float;
}.

Module QTransform_.
(** [QTransform()]. *)
Definition identity : QTransform := mkQTransform 1 1 0 0.

(** [qFuzzyIsNull(double d)]: [qAbs(d) <= 0.000000000001]. *)
Definition qFuzzyIsNull (d : float) : bool := (abs d <=? 1e-12)%float.

(** [QTransform::type()], for a matrix without rotation, shear or
    projection.  Qt caches the class and recomputes it from the entries
    after an operation has marked the matrix dirty; an operation that
    changes a scale entry marks it at least [TxScale], one that changes
    a translation entry at least [TxTranslate], so the class in force
    is the one the entries give. *)
Inductive TransformationType : Type := TxNone | TxTranslate | TxScale.

Definition type (t : QTransform) : TransformationType :=
  if negb (qFuzzyIsNull (m11 t - 1)) || negb (qFuzzyIsNull (m22 t - 1)) then TxScale
  else if negb (qFuzzyIsNull (m31 t)) || negb (qFuzzyIsNull (m32 t)) then TxTranslate
  else TxNone.

(** [QTransform::scale(sx, sy)] (release build): returns at once on
    [(1, 1)]; on a matrix of class [TxNone] or [TxTranslate] it assigns
    the scale entries, on one of class [TxScale] it multiplies them. *)
Definition scale (t : QTransform) (sx sy : float) : QTransform :=
  if ((sx =? 1) && (sy =? 1))%float then t
  else
    match type t with
    | TxNone | TxTranslate => mkQTransform sx sy (m31 t) (m32 t)
    | TxScale => mkQTransform (m11 t * sx) (m22 t * sy) (m31 t) (m32 t)
    end.

(** [QTransform::translate(dx, dy)] (release build): returns at once on
    [(0, 0)]; it assigns the offset on class [TxNone], adds it on
    [TxTranslate], and adds the scaled offset on [TxScale]. *)
Definition translate (t : QTransform) (dx dy : float) : QTransform :=
  if ((dx =? 0) && (dy =? 0))%float then t
  else
    match type t with
    | TxNone => mkQTransform (m11 t) (m22 t) dx dy
    | TxTranslate => mkQTransform (m11 t) (m22 t) (m31 t + dx) (m32 t + dy)
    | TxScale =>
        mkQTransform (m11 t) (m22 t) (m31 t + dx * m11 t) (m32 t + dy * m22 t)
    end.
End QTransform_.

(** A decoded image: its size and [QColor(img.pixel(x, y))] as
  [(red, green, blue)]. *)
Record QImage : Type := mkQImage {
  img_width : Z;
  img_height : Z;
  img_pixel : Z -> Z -> Z * Z * Z;
}.
Definition QPixmap : Type := QImage.

(** [isNull()]: a null pixmap or image has no extent. *)
Definition isNull (p : QImage) : bool :=
  (img_width p <=? 0) || (img_height p <=? 0).

(** [QGraphicsPixmapItem(self._orig_pixmap)] with its visibility flag. *)
Record PixmapItem : Type := mkPixmapItem {
  item_pixmap : QPixmap;
  item_visible : bool;
}.

(** What [_make_tile_pixmap] paints is a function of the source block
  [QImage.copy(x0, y0, w, h)] and of the grayscale flag; a tile bitmap is
  recorded by those: the block's origin and size, the flag, and the
  colours [sub.pixel(xx, yy)] of the block, row by row.  Its device size
  is [tile_w * PIXEL_CELL] by [tile_h * PIXEL_CELL]. *)
Record TilePixmap : Type := mkTilePixmap {
  tile_x0 : Z; tile_y0 : Z; tile_w : Z; tile_h : Z; tile_gray : bool;
  tile_cells : list (list (Z * Z * Z));
}.

(** A pixel of [QImage.copy]: the image's pixel inside the image, and 0
    (black) in the part of the rectangle that lies outside it. *)
Definition sub_pixel (img : QImage) (x y : Z) : Z * Z * Z :=
  if (0 <=? x) && (x <? img_width img) && (0 <=? y) && (y <? img_height img)
  then img_pixel img x y else (0, 0, 0).

(** The colours of the block at [(x0, y0)] of size [w] by [h]. *)
Definition block_cells (img : QImage) (x0 y0 w h : Z) : list (list (Z * Z * Z)) :=
  (fun yy => (fun xx => sub_pixel img (x0 + xx) (y0 + yy)) <$> seqZ 0 w) <$> seqZ 0 h.

(** The third argument of the [pixelInfoChanged] signal. *)
Inductive PixelValue : Type :=
| NoValue
| Gray (v : Z)
| RGB (r g b : Z).

(** One emission of [pixelInfoChanged(x, y, value)]. *)
Definition PixelInfo : Type := Z * Z * PixelValue.
Definition absent_sample : PixelInfo := (-1, -1, NoValue).

(** The modal [QMessageBox.warning] raised by a failed load. *)
Inductive UiEffect : Type := LoadFailedWarning.

(** A wheel event with what the handler reads from the application
    while it runs: the keyboard modifiers, and the cursor position
    [viewport().mapFromGlobal(QCursor.pos())]. *)
Record WheelEvent : Type := mkWheelEvent {
  wheel_pos : QPoint;
  angleDelta : Z;
  ctrl_held : bool;
  shift_held : bool;
  wheel_cursor : QPoint;
}.

(* ================================================================== *)
(** * Grayscale classification *)
(* ================================================================== *)

Definition channels_equal (c : Z * Z * Z) : bool :=
let '(r, g, b) := c in (r =? g) && (g =? b).

(** The inner [for x in range(0, iw, step_x)] loop with its [break]:
  [true] when the row leaves [grayscale] set. *)
Fixpoint scan_row (img : QImage) (y : Z) (xs : list Z) : bool :=
match xs with
| [] => true
| x :: xs' => if channels_equal (img_pixel img x y) then scan_row img y xs' else false
end.

(** The outer [for y in range(0, ih, step_y)] loop with its [break]. *)
Fixpoint scan_rows (img : QImage) (ys xs : list Z) : bool :=
match ys with
| [] => true
| y :: ys' => if scan_row img y xs then scan_rows img ys' xs else false
end.

Definition max_grid : Z := 100.
Definition grid_step (dim : Z) : Z := Z.max 1 (dim / max_grid).
Definition grid_xs (img : QImage) : list Z :=
  Py.range (img_width img) (grid_step (img_width img)).
Definition grid_ys (img : QImage) : list Z :=
  Py.range (img_height img) (grid_step (img_height img)).

(** [_detect_grayscale], as the value it stores in [_is_grayscale]. *)
Definition detect_grayscale (orig_qimage : option QImage) : bool :=
match orig_qimage with
| None => true
| Some img => scan_rows img (grid_ys img) (grid_xs img)
end.

(* ================================================================== *)
(** * The view *)
(* ================================================================== *)

(** Qt's side of [QGraphicsView]: how viewport and scene coordinates
    correspond under a view matrix and scroll position, and where the
    scroll bars end up after Qt re-lays the view out.  [scene] is the
    scene rectangle's size. *)
Record QtGeometry : Type := mkQtGeometry {
  (** [mapToScene(point)] *)
  mapToScene : QTransform -> Scroll -> QSize -> QPoint -> QPointF;
  (** [mapFromScene(point)] *)
  mapFromScene : QTransform -> Scroll -> QSize -> QPointF -> QPoint;
  (** [mapToScene(viewport().rect())]: the bounding rectangle of the
      polygon, [None] when the polygon is empty *)
  mapRectToScene : QTransform -> Scroll -> QSize -> option QRectF;
  (** scroll position after [centerOn(point)] *)
  centerOn : QTransform -> Scroll -> QSize -> QSize -> QPointF -> Scroll;
  (** scroll position after [setTransform] recomputes the ranges *)
  relayout : QTransform -> Scroll -> QSize -> QSize -> Scroll;
  (** scroll position after [setValue] on the horizontal ([true]) or
      vertical bar, which clamps to the bar's range *)
  setValue : QTransform -> Scroll -> QSize -> QSize -> bool -> Z -> Scroll;
}.

(** The attributes of [GraphicsImageView] the modelled methods read or
    write, under their source names, and the Qt state they act on. *)
Record View : Type := mkView {
  pixmap_item : option PixmapItem;
  orig_qimage : option QImage;
  is_grayscale : bool;
  transform : QTransform;
  scroll : Scroll;
  viewport : QSize;
  last_viewport_size : QSize;
  auto_fit_mode : bool;
  smooth_enabled : bool;
  zooming : bool;
  (** [_zoom_end_timer.isActive()] *)
  zoom_end_timer : bool;
  (** [_visible_update_timer.isActive()] *)
  visible_update_timer : bool;
  (** the scroll bars' [valueChanged] is connected to [_on_viewport_changed] *)
  scroll_connected : bool;
  tile_cache : TileCache.t TilePixmap;
  tile_items : gmap TileKey TilePixmap;
  pixel_mode : bool;
  saved_transform : option QTransform;
  saved_scale : option float;
  (** queued [QTimer.singleShot(0, fit_long_side)] calls *)
  pending_fit : nat;
}.

Definition current_scale (s : View) : float := m11 (transform s).

Definition scene_size (s : View) : QSize :=
  match pixmap_item s with
  | Some it => mkQSize (img_width (item_pixmap it)) (img_height (item_pixmap it))
  | None => mkQSize 0 0
  end.

Definition viewport_center (s : View) : QPoint :=
  mkQPoint (sz_width (viewport s) / 2) (sz_height (viewport s) / 2).

(** Field updates. *)
Definition with_transform (s : View) (t : QTransform) : View :=
  mkView (pixmap_item s) (orig_qimage s) (is_grayscale s) t (scroll s)
    (viewport s) (last_viewport_size s) (auto_fit_mode s) (smooth_enabled s)
    (zooming s) (zoom_end_timer s) (visible_update_timer s) (scroll_connected s)
    (tile_cache s) (tile_items s) (pixel_mode s) (saved_transform s)
    (saved_scale s) (pending_fit s).

(** A scroll bar that moves while [valueChanged] is connected runs
    [_on_viewport_changed], which starts the tile timer unless active. *)
Definition with_scroll (s : View) (sc : Scroll) : View :=
  mkView (pixmap_item s) (orig_qimage s) (is_grayscale s) (transform s) sc
    (viewport s) (last_viewport_size s) (auto_fit_mode s) (smooth_enabled s)
    (zooming s) (zoom_end_timer s)
    (visible_update_timer s || (scroll_connected s && negb (bool_decide (sc = scroll s))))
    (scroll_connected s)
    (tile_cache s) (tile_items s) (pixel_mode s) (saved_transform s)
    (saved_scale s) (pending_fit s).

Definition with_saved (s : View) (t : option QTransform) (sc : option float) : View :=
  mkView (pixmap_item s) (orig_qimage s) (is_grayscale s) (transform s) (scroll s)
    (viewport s) (last_viewport_size s) (auto_fit_mode s) (smooth_enabled s)
    (zooming s) (zoom_end_timer s) (visible_update_timer s) (scroll_connected s)
    (tile_cache s) (tile_items s) (pixel_mode s) t sc (pending_fit s).

Definition with_pixel_mode (s : View) (b : bool) : View :=
  mkView (pixmap_item s) (orig_qimage s) (is_grayscale s) (transform s) (scroll s)
    (viewport s) (last_viewport_size s) (auto_fit_mode s) (smooth_enabled s)
    (zooming s) (zoom_end_timer s) (visible_update_timer s) (scroll_connected s)
    (tile_cache s) (tile_items s) b (saved_transform s)
    (saved_scale s) (pending_fit s).

Definition with_tiles (s : View) (c : TileCache.t TilePixmap)
    (items : gmap TileKey TilePixmap) : View :=
  mkView (pixmap_item s) (orig_qimage s) (is_grayscale s) (transform s) (scroll s)
    (viewport s) (last_viewport_size s) (auto_fit_mode s) (smooth_enabled s)
    (zooming s) (zoom_end_timer s) (visible_update_timer s) (scroll_connected s)
    c items (pixel_mode s) (saved_transform s)
    (saved_scale s) (pending_fit s).

(** [self._pixmap_item.setVisible(b)] under [if self._pixmap_item]. *)
Definition with_pixmap_visible (s : View) (b : bool) : View :=
  mkView
    (match pixmap_item s with
     | Some it => Some (mkPixmapItem (item_pixmap it) b)
     | None => None
     end)
    (orig_qimage s) (is_grayscale s) (transform s) (scroll s)
    (viewport s) (last_viewport_size s) (auto_fit_mode s) (smooth_enabled s)
    (zooming s) (zoom_end_timer s) (visible_update_timer s) (scroll_connected s)
    (tile_cache s) (tile_items s) (pixel_mode s) (saved_transform s)
    (saved_scale s) (pending_fit s).

Definition with_scroll_connected (s : View) (b : bool) : View :=
  mkView (pixmap_item s) (orig_qimage s) (is_grayscale s) (transform s) (scroll s)
    (viewport s) (last_viewport_size s) (auto_fit_mode s) (smooth_enabled s)
    (zooming s) (zoom_end_timer s) (visible_update_timer s) b
    (tile_cache s) (tile_items s) (pixel_mode s) (saved_transform s)
    (saved_scale s) (pending_fit s).

Definition with_visible_update_timer (s : View) (b : bool) : View :=
  mkView (pixmap_item s) (orig_qimage s) (is_grayscale s) (transform s) (scroll s)
    (viewport s) (last_viewport_size s) (auto_fit_mode s) (smooth_enabled s)
    (zooming s) (zoom_end_timer s) b (scroll_connected s)
    (tile_cache s) (tile_items s) (pixel_mode s) (saved_transform s)
    (saved_scale s) (pending_fit s).

Definition with_pending_fit (s : View) (n : nat) : View :=
  mkView (pixmap_item s) (orig_qimage s) (is_grayscale s) (transform s) (scroll s)
    (viewport s) (last_viewport_size s) (auto_fit_mode s) (smooth_enabled s)
    (zooming s) (zoom_end_timer s) (visible_update_timer s) (scroll_connected s)
    (tile_cache s) (tile_items s) (pixel_mode s) (saved_transform s)
    (saved_scale s) n.

(** The zoom bookkeeping of [wheelEvent]: [_auto_fit_mode],
    [_smooth_enabled], [_zooming] and the zoom-end timer. *)
Definition with_zoom_flags (s : View) (auto_fit smooth zoom timer : bool) : View :=
  mkView (pixmap_item s) (orig_qimage s) (is_grayscale s) (transform s) (scroll s)
    (viewport s) (last_viewport_size s) auto_fit smooth zoom timer
    (visible_update_timer s) (scroll_connected s)
    (tile_cache s) (tile_items s) (pixel_mode s) (saved_transform s)
    (saved_scale s) (pending_fit s).

(* ================================================================== *)
(** * Viewport helpers and the fit scale *)
(* ================================================================== *)

(** Python's [a / b] on two ints with [b] not zero: the quotient of the
    two doubles, which is the correctly rounded quotient of the ints
    while both are below [2^53]. *)
Definition int_truediv (a b : Z) : float :=
  (Py.float_of_Z a / Py.float_of_Z b)%float.

(** [self._hotspot_width], assigned once in [__init__]. *)
Definition hotspot_width : Z := 40.

Definition with_auto_fit (s : View) (b : bool) : View :=
  with_zoom_flags s b (smooth_enabled s) (zooming s) (zoom_end_timer s).

(** The viewport after Qt has resized it; the scroll bars are laid out
    again. *)
Definition with_viewport (s : View) (vp : QSize) : View :=
  mkView (pixmap_item s) (orig_qimage s) (is_grayscale s) (transform s) (scroll s)
    vp (last_viewport_size s) (auto_fit_mode s) (smooth_enabled s)
    (zooming s) (zoom_end_timer s) (visible_update_timer s) (scroll_connected s)
    (tile_cache s) (tile_items s) (pixel_mode s) (saved_transform s)
    (saved_scale s) (pending_fit s).

Definition with_last_viewport_size (s : View) (vp : QSize) : View :=
  mkView (pixmap_item s) (orig_qimage s) (is_grayscale s) (transform s) (scroll s)
    (viewport s) vp (auto_fit_mode s) (smooth_enabled s)
    (zooming s) (zoom_end_timer s) (visible_update_timer s) (scroll_connected s)
    (tile_cache s) (tile_items s) (pixel_mode s) (saved_transform s)
    (saved_scale s) (pending_fit s).

(** [0 <= p.x() < vw and 0 <= p.y() < vh]. *)
Definition in_viewport (s : View) (p : QPoint) : bool :=
  (0 <=? pt_x p) && (pt_x p <? sz_width (viewport s))
  && (0 <=? pt_y p) && (pt_y p <? sz_height (viewport s)).

(** [_get_reference_viewport_point]; [cursor_local] is
    [self.viewport().mapFromGlobal(QCursor.pos())]. *)
Definition get_reference_viewport_point (s : View) (explicit_point : option QPoint)
    (cursor_local : QPoint) : QPoint :=
  let from_cursor :=
    if in_viewport s cursor_local then cursor_local else viewport_center s in
  match explicit_point with
  | Some p => if in_viewport s p then p else from_cursor
  | None => from_cursor
  end.

(** [_compute_long_side_scale]. *)
Definition compute_long_side_scale (s : View) : float :=
  match pixmap_item s with
  | None => 1.0%float
  | Some it =>
      let iw := img_width (item_pixmap it) in
      let ih := img_height (item_pixmap it) in
      let vw := Z.max 1 (sz_width (viewport s)) in
      let vh := Z.max 1 (sz_height (viewport s)) in
      if (iw =? 0) || (ih =? 0) then 1.0%float
      else
        let sx := int_truediv vw iw in
        let sy := int_truediv vh ih in
        let s0 := Py.min sx sy in
        let s1 :=
          if (Py.float_of_Z vw <? Py.float_of_Z iw * s0)%float
          then int_truediv (vw - 1) iw else s0 in
        let s2 :=
          if (Py.float_of_Z vh <? Py.float_of_Z ih * s1)%float
          then Py.min s1 (int_truediv (vh - 1) ih) else s1 in
        Py.max 0.0001 s2
  end.

(** [self.prevRequested] and [self.nextRequested]. *)
Inductive NavSignal : Type := PrevRequested | NextRequested.

Section Viewer.
Variable qt : QtGeometry.

Definition to_scene (s : View) (p : QPoint) : QPointF :=
  mapToScene qt (transform s) (scroll s) (viewport s) p.

(** [QGraphicsView.setTransform]: installs the matrix, after which Qt
    recomputes the scroll ranges. *)
Definition setTransform (s : View) (t : QTransform) : View :=
  with_scroll (with_transform s t)
    (relayout qt t (scroll s) (viewport s) (scene_size s)).

(** [resetTransform()] is [setTransform(QTransform())]. *)
Definition resetTransform (s : View) : View :=
  setTransform s QTransform_.identity.

(** [QGraphicsView.scale] and [QGraphicsView.translate] act on a copy of
    the matrix and install it. *)
Definition view_scale (s : View) (sx sy : float) : View :=
  setTransform s (QTransform_.scale (transform s) sx sy).

Definition view_translate (s : View) (dx dy : float) : View :=
  setTransform s (QTransform_.translate (transform s) dx dy).

(** ** Visible tiles *)

Definition visible_tile_range (s : View) (margin_tiles : Z)
  : option (Z * Z * Z * Z) :=
  match orig_qimage s with
  | None => Some (0, -1, 0, -1)
  | Some img =>
      let scene_rect :=
        match mapRectToScene qt (transform s) (scroll s) (viewport s) with
        | None =>
            mkQRectF 0 0 (Py.float_of_Z (sz_width (scene_size s)))
              (Py.float_of_Z (sz_height (scene_size s)))
        | Some r => r
        end in
      let iw := img_width img in
      let ih := img_height img in
      fl ← Py.floor (rect_left scene_rect);
      ft ← Py.floor (rect_top scene_rect);
      cr ← Py.ceil (rect_right scene_rect);
      cb ← Py.ceil (rect_bottom scene_rect);
      let left := Z.max 0 fl in
      let top := Z.max 0 ft in
      let right := Z.min (iw - 1) cr in
      let bottom := Z.min (ih - 1) cb in
      let tw := TILE_ORIG_PX in
      let th := TILE_ORIG_PX in
      let tx0 := Z.max 0 (left / tw - margin_tiles) in
      let ty0 := Z.max 0 (top / th - margin_tiles) in
      let tx1 := Z.min ((iw - 1) / tw) (right / tw + margin_tiles) in
      let ty1 := Z.min ((ih - 1) / th) (bottom / th + margin_tiles) in
      Some (tx0, tx1, ty0, ty1)
  end.

Definition make_tile_pixmap (s : View) (tx ty : Z) : option TilePixmap :=
  match orig_qimage s with
  | None => None
  | Some img =>
      let iw := img_width img in
      let ih := img_height img in
      let tw := TILE_ORIG_PX in
      let th := TILE_ORIG_PX in
      let x0 := tx * tw in
      let y0 := ty * th in
      let w := Z.min tw (iw - x0) in
      let h := Z.min th (ih - y0) in
      if (w <=? 0) || (h <=? 0) then None
      else
        let target_w := w * PIXEL_CELL in
        let target_h := h * PIXEL_CELL in
        if (target_w <=? 0) || (target_h <=? 0) then None
        else Some (mkTilePixmap x0 y0 w h (is_grayscale s) (block_cells img x0 y0 w h))
  end.

(** The keys added to [required], in the order the two loops add them.
    (Python then iterates the set in hash order; which tiles end up
    materialized does not depend on it.) *)
Definition required_tiles (rng : Z * Z * Z * Z) : list TileKey :=
  let '(tx0, tx1, ty0, ty1) := rng in
  ty ← Py.range_incl ty0 ty1;
  tx ← Py.range_incl tx0 tx1;
  [(tx, ty)].

(** One turn of the [for (tx, ty) in required] loop; the state is the
    cache, the materialized items and the keys given to [addItem]. *)
Definition add_tile (s : View)
    (acc : TileCache.t TilePixmap * gmap TileKey TilePixmap * list TileKey)
    (k : TileKey)
  : TileCache.t TilePixmap * gmap TileKey TilePixmap * list TileKey :=
  let '(c, items, added) := acc in
  match items !! k with
  | Some _ => acc
  | None =>
      match TileCache.get c k with
      | (Some pix, c') => (c', <[k := pix]> items, added ++ [k])
      | (None, c') =>
          match make_tile_pixmap s (fst k) (snd k) with
          | None => (c', items, added)
          | Some pix => (TileCache.put c' k pix, <[k := pix]> items, added ++ [k])
          end
      end
  end.

(** [_update_visible_tiles]: the new state with the keys it removed from
    the scene and the keys it added to it. *)
Definition update_visible_tiles (s : View)
  : option (View * (list TileKey * list TileKey)) :=
  match orig_qimage s with
  | None => Some (s, ([], []))
  | Some _ =>
      if negb (pixel_mode s) then Some (s, ([], []))
      else
        rng ← visible_tile_range s 1;
        let required := required_tiles rng in
        let to_remove :=
          filter (fun k => k ∉ required) (map_to_list (tile_items s)).*1 in
        let items1 := foldl (fun m k => delete k m) (tile_items s) to_remove in
        let '(c, items2, added) :=
          foldl (add_tile s) (tile_cache s, items1, []) required in
        Some (with_tiles s c items2, (to_remove, added))
  end.

(** The slot of the tile timer's [timeout]: the timer is single-shot. *)
Definition on_visible_update_timeout (s : View) : option View :=
  r ← update_visible_tiles (with_visible_update_timer s false);
  Some (fst r).

(** ** Mode transitions *)

Definition preserve_ref (s : View) (viewport_pt : QPoint) (old_scene_pt : QPointF)
  : View :=
  let new_vp := mapFromScene qt (transform s) (scroll s) (viewport s) old_scene_pt in
  let dx_v := pt_x new_vp - pt_x viewport_pt in
  let dy_v := pt_y new_vp - pt_y viewport_pt in
  let center_vp := viewport_center s in
  let desired_center_vp := mkQPoint (pt_x center_vp + dx_v) (pt_y center_vp + dy_v) in
  let desired_center_scene := to_scene s desired_center_vp in
  with_scroll s
    (centerOn qt (transform s) (scroll s) (viewport s) (scene_size s)
       desired_center_scene).

(** ** Fitting *)

(** [fit_long_side]. *)
Definition fit_long_side (s : View) (ref_viewport_point : option QPoint)
    (cursor_local : QPoint) : View :=
  match pixmap_item s with
  | None => s
  | Some _ =>
      let ref_pt := get_reference_viewport_point s ref_viewport_point cursor_local in
      let old_scene_pt := to_scene s ref_pt in
      let target := compute_long_side_scale s in
      let t := QTransform_.scale QTransform_.identity target target in
      let s1 := setTransform s t in
      let new_scene_pt := to_scene s1 ref_pt in
      let dx := (ptf_x new_scene_pt - ptf_x old_scene_pt)%float in
      let dy := (ptf_y new_scene_pt - ptf_y old_scene_pt)%float in
      let s2 := view_translate s1 dx dy in
      with_auto_fit s2 true
  end.

(** [QApplication.processEvents()] inside a handler: Qt delivers what
    has been posted, which for this view are the zero-delay
    [fit_long_side(None)] calls that [load_image] and [exit_pixel_mode]
    queue.  Input events and the interval timers are taken not to be due
    during the call, and the cursor not to move. *)
Fixpoint deliver_fits (n : nat) (s : View) (cursor_local : QPoint) : View :=
  match n with
  | O => s
  | S n' => deliver_fits n' (fit_long_side s None cursor_local) cursor_local
  end.

Definition processEvents (s : View) (cursor_local : QPoint) : View :=
  deliver_fits (pending_fit s) (with_pending_fit s 0) cursor_local.

(** [t = QTransform(); t.scale(PIXEL_CELL, PIXEL_CELL)]. *)
Definition pixel_transform : QTransform :=
  QTransform_.scale QTransform_.identity
    (Py.float_of_Z PIXEL_CELL) (Py.float_of_Z PIXEL_CELL).

(** The part of [enter_pixel_mode] that runs before the tiles are
    generated: save the matrix, install the exact [PIXEL_CELL] scale,
    re-centre, raise [_pixel_mode]. *)
Definition enter_prepare (s : View) (ref_viewport_point : option QPoint) : View :=
  let ref := default (viewport_center s) ref_viewport_point in
  let old_scene_pt := to_scene s ref in
  let s1 := with_saved s (Some (transform s)) (Some (current_scale s)) in
  let s2 := setTransform s1 pixel_transform in
  let s3 := preserve_ref s2 ref old_scene_pt in
  with_pixel_mode s3 true.

(** [math.floor] and [math.ceil] of the visible scene rectangle are
    defined, so that [_visible_tile_range] returns. *)
Definition tiles_computable (s : View) : Prop :=
  is_Some (visible_tile_range s 1).

(** [enter_pixel_mode]; [cursor_local] is the cursor position while the
    handler runs.  The two [processEvents()] calls come after the tiles
    are generated, around the hiding of the pixmap item. *)
Definition enter_pixel_mode (s : View) (ref_viewport_point : option QPoint)
    (cursor_local : QPoint) : option View :=
  match orig_qimage s with
  | None => Some s
  | Some _ =>
      if pixel_mode s then Some s
      else
        r ← update_visible_tiles (enter_prepare s ref_viewport_point);
        let s5 := processEvents (fst r) cursor_local in
        let s6 := with_pixmap_visible s5 false in
        let s7 := processEvents s6 cursor_local in
        Some (with_scroll_connected s7 true)
  end.

(** [exit_pixel_mode]: its [processEvents()] call comes after the tiles
    are removed and before the matrix is restored. *)
Definition exit_pixel_mode (s : View) (ref_viewport_point : option QPoint)
    (cursor_local : QPoint) : View :=
  if negb (pixel_mode s) then s
  else
    match orig_qimage s with
    | None => s
    | Some _ =>
        let ref := default (viewport_center s) ref_viewport_point in
        let old_scene_pt := to_scene s ref in
        let s1 := with_scroll_connected s false in
        let s2 := with_visible_update_timer s1 false in
        let s3 := processEvents (with_tiles s2 (tile_cache s2) ∅) cursor_local in
        let s4 :=
          match saved_transform s3 with
          | Some t => setTransform s3 t
          | None =>
              let s' := resetTransform s3 in
              with_pending_fit s' (S (pending_fit s'))
          end in
        let s5 := preserve_ref s4 ref old_scene_pt in
        let s6 := with_pixmap_visible s5 true in
        with_pixel_mode s6 false
    end.

(** ** Pixel probe *)

(** [_emit_pixel_info_at_viewport_point], as the arguments it emits
    [pixelInfoChanged] with. *)
Definition emit_pixel_info_at_viewport_point (s : View) (vp_point : QPoint)
  : option PixelInfo :=
  match orig_qimage s with
  | None => Some absent_sample
  | Some img =>
      let scene_pt := to_scene s vp_point in
      x ← Py.floor (ptf_x scene_pt);
      y ← Py.floor (ptf_y scene_pt);
      let iw := img_width img in
      let ih := img_height img in
      if (x <? 0) || (y <? 0) || (x >=? iw) || (y >=? ih) then Some absent_sample
      else
        let '(r, g, b) := img_pixel img x y in
        if is_grayscale s then Some (x, y, Gray r)
        else Some (x, y, RGB r g b)
  end.

(** ** Wheel handling *)

(** [factor = 1.0 + (0.0015 * delta)]. *)
Definition zoom_factor (delta : Z) : float :=
  (1.0 + 0.0015 * Py.float_of_Z delta)%float.

(** [new_scale = max(MIN_SCALE, min(target_scale, self._max_scale))]. *)
Definition clamp_scale (target_scale : float) : float :=
  Py.max MIN_SCALE (Py.min target_scale max_scale).

Definition new_scale_of (s : View) (delta : Z) : float :=
  clamp_scale (current_scale s * zoom_factor delta)%float.

(** [step = int(-delta / 120 * 30)]. *)
Definition scroll_step (delta : Z) : option Z :=
  Py.int (Py.float_of_Z (- delta) / 120 * 30)%float.

(** The rescaling block of [wheelEvent]: scale about the origin by
    [factor_to_apply], then translate so that the scene point under the
    cursor returns to it. *)
Definition zoom_about (s : View) (ref_pt : QPoint) (old_scene_pt : QPointF)
    (factor_to_apply : float) : View :=
  let s1 := view_scale s factor_to_apply factor_to_apply in
  let new_scene_pt := to_scene s1 ref_pt in
  let dx := (ptf_x new_scene_pt - ptf_x old_scene_pt)%float in
  let dy := (ptf_y new_scene_pt - ptf_y old_scene_pt)%float in
  view_translate s1 dx dy.

(** The smooth / fast resampling switch with its hysteresis flag. *)
Definition smooth_after (new_scale : float) (smooth : bool) : bool :=
  let smooth1 :=
    if ((smooth_threshold <? new_scale)%float && smooth)%bool then false else smooth in
  if ((new_scale <=? smooth_threshold)%float && negb smooth1)%bool then true else smooth1.

(** [wheelEvent] from the rescaling to [self._auto_fit_mode = False]:
    the view after a zoom step that stays in its mode. *)
Definition wheel_zoomed (s : View) (event : WheelEvent) (factor_to_apply : float)
  : View :=
  let ref_pt := wheel_pos event in
  let old_scene_pt := to_scene s ref_pt in
  let new_scale := new_scale_of s (angleDelta event) in
  let s2 := zoom_about s ref_pt old_scene_pt factor_to_apply in
  with_zoom_flags s2 false (smooth_after new_scale (smooth_enabled s2)) true true.

Definition wheelEvent (s : View) (event : WheelEvent) : option View :=
  let delta := angleDelta event in
  if delta =? 0 then Some s
  else if ctrl_held event then
    step ← scroll_step delta;
    Some (with_scroll s
            (setValue qt (transform s) (scroll s) (viewport s) (scene_size s)
               false (snd (scroll s) + step)))
  else if shift_held event then
    step ← scroll_step delta;
    Some (with_scroll s
            (setValue qt (transform s) (scroll s) (viewport s) (scene_size s)
               true (fst (scroll s) + step)))
  else
    match pixmap_item s with
    | None => Some s
    | Some _ =>
        let ref_pt := wheel_pos event in
        let new_scale := new_scale_of s delta in
        factor_to_apply ← Py.div new_scale (current_scale s);
        if pixel_mode s && (delta <? 0)
        then Some (exit_pixel_mode s (Some ref_pt) (wheel_cursor event))
        else
          let s3 := wheel_zoomed s event factor_to_apply in
          if ((Py.float_of_Z (PIXEL_CELL - 1) <=? new_scale)%float
              && (delta >? 0) && bool_decide (is_Some (orig_qimage s3)))%bool
          then enter_pixel_mode s3 (Some ref_pt) (wheel_cursor event)
          else Some s3
    end.

(** ** Loading *)

(** [load_image]: the new state and what is shown to the user. *)
Definition load_image (s : View) (qpixmap : option QPixmap)
  : View * list UiEffect :=
  match qpixmap with
  | None => (s, [LoadFailedWarning])
  | Some p =>
      if isNull p then (s, [LoadFailedWarning])
      else
        (* img = self._orig_pixmap.toImage(), then Format_RGB888 *)
        let orig := if negb (isNull p) then Some p else None in
        let gray :=
          match orig with
          | Some _ => detect_grayscale orig
          | None => false
          end in
        let s1 :=
          mkView (Some (mkPixmapItem p true)) orig gray (transform s) (scroll s)
            (viewport s) (last_viewport_size s) (auto_fit_mode s)
            (smooth_enabled s) (zooming s) (zoom_end_timer s)
            (visible_update_timer s) (scroll_connected s)
            (TileCache.clear (tile_cache s)) ∅ false (saved_transform s)
            (saved_scale s) (pending_fit s) in
        let s2 := resetTransform s1 in
        let s3 :=
          mkView (pixmap_item s2) (orig_qimage s2) (is_grayscale s2) (transform s2)
            (scroll s2) (viewport s2) (viewport s2) true (smooth_enabled s2)
            false false (visible_update_timer s2) (scroll_connected s2)
            (tile_cache s2) (tile_items s2) (pixel_mode s2) (saved_transform s2)
            (saved_scale s2) (S (pending_fit s2)) in
        (s3, [])
  end.

End Viewer.

(* ================================================================== *)
(** * A concrete geometry and concrete states for the examples *)
(* ================================================================== *)

(** A scroll area without range limits: viewport point [p] shows the
    scene point [(p + scroll - (dx, dy)) / scale]. *)
Definition plain_to_scene (t : QTransform) (sc : Scroll) (p : QPoint) : QPointF :=
  mkQPointF
    ((Py.float_of_Z (pt_x p + fst sc) - m31 t) / m11 t)%float
    ((Py.float_of_Z (pt_y p + snd sc) - m32 t) / m22 t)%float.

Definition plain_from_scene (t : QTransform) (sc : Scroll) (q : QPointF) : QPoint :=
  mkQPoint
    (default 0 (Py.floor (ptf_x q * m11 t + m31 t)%float) - fst sc)
    (default 0 (Py.floor (ptf_y q * m22 t + m32 t)%float) - snd sc).

Definition plain_geometry : QtGeometry :=
  mkQtGeometry
    (fun t sc _ p => plain_to_scene t sc p)
    (fun t sc _ q => plain_from_scene t sc q)
    (fun t sc vp =>
       let a := plain_to_scene t sc (mkQPoint 0 0) in
       let b := plain_to_scene t sc (mkQPoint (sz_width vp) (sz_height vp)) in
       Some (mkQRectF (ptf_x a) (ptf_y a) (ptf_x b) (ptf_y b)))
    (fun t sc vp _ q =>
       let c := plain_from_scene t (0, 0) q in
       (pt_x c - sz_width vp / 2, pt_y c - sz_height vp / 2))
    (fun _ sc _ _ => sc)
    (fun _ sc _ _ horizontal v => if horizontal then (v, snd sc) else (fst sc, v)).

Definition uniform_image (w h : Z) (c : Z * Z * Z) : QImage :=
  mkQImage w h (fun _ _ => c).

(** The view as [__init__] leaves it, in a viewport of the given size. *)
Definition initial_view (vp : QSize) : View :=
  mkView None None false QTransform_.identity (0, 0) vp vp true true false false
    false false (TileCache.new CACHE_MAX_TILES) ∅ false None None 0.

(** A view showing [img] in Normal mode at the given scale. *)
Definition normal_view (vp : QSize) (img : QImage) (scale : float) : View :=
  mkView (Some (mkPixmapItem img true)) (Some img) (detect_grayscale (Some img))
    (mkQTransform scale scale 0 0) (0, 0) vp vp false true false false
    false false (TileCache.new CACHE_MAX_TILES) ∅ false None None 0.


(* ================================================================== *)
(** * Resizing, double click, panning *)
(* ================================================================== *)

Section Fitting.
Variable qt : QtGeometry.

(** [_on_zoom_end], the slot of the single-shot zoom-end timer. *)
Definition on_zoom_end (s : View) : View :=
  let smooth :=
    if ((current_scale s <=? smooth_threshold)%float && negb (smooth_enabled s))%bool
    then true else smooth_enabled s in
  with_zoom_flags s (auto_fit_mode s) smooth false false.

(** [_on_debounced_resize]. *)
Definition on_debounced_resize (s : View) (cursor_local : QPoint) : View :=
  if zooming s then s
  else
    match pixmap_item s with
    | None => s
    | Some _ =>
        if auto_fit_mode s then
          let ref := get_reference_viewport_point s None cursor_local in
          let target := compute_long_side_scale s in
          if (0.001 <? abs (current_scale s - target))%float
          then fit_long_side qt s (Some ref) cursor_local
          else s
        else s
    end.

(** [resizeEvent] for a viewport that Qt has resized to [new_size]: the
    new state, and whether the resize debounce timer was started.
    ([_last_viewport_size] is assigned in [__init__], so the
    [prev is None] branch is never taken.) *)
Definition resizeEvent (s : View) (new_size : QSize) (cursor_local : QPoint)
  : View * bool :=
  let s0 := with_viewport s new_size in
  let s1 :=
    with_scroll s0 (relayout qt (transform s0) (scroll s0) new_size (scene_size s0)) in
  let s2 := with_last_viewport_size s1 new_size in
  if auto_fit_mode s2 && negb (zooming s2) then
    let ref := get_reference_viewport_point s2 None cursor_local in
    (fit_long_side qt s2 (Some ref) cursor_local, false)
  else (s2, true).

(** [mouseDoubleClickEvent] at the viewport position [pos]: the new state
    and the navigation signals emitted. *)
Definition mouseDoubleClickEvent (s : View) (pos : QPointF) (cursor_local : QPoint)
  : option (View * list NavSignal) :=
  match pixmap_item s with
  | None => Some (s, [])
  | Some _ =>
      let x := ptf_x pos in
      let w := sz_width (viewport s) in
      let hw := hotspot_width in
      if (x <=? Py.float_of_Z hw)%float then Some (s, [PrevRequested])
      else if (Py.float_of_Z (w - hw) <=? x)%float then Some (s, [NextRequested])
      else
        rx ← Py.int (ptf_x pos);
        ry ← Py.int (ptf_y pos);
        let ref := mkQPoint rx ry in
        let s1 := with_visible_update_timer s false in
        let s2 :=
          if pixel_mode s1 then exit_pixel_mode qt s1 (Some ref) cursor_local else s1 in
        let s3 := processEvents qt s2 cursor_local in
        let s4 := fit_long_side qt s3 (Some ref) cursor_local in
        Some (with_auto_fit s4 true, [])
  end.

(** The panning block of [mouseMoveEvent], for a drag by [delta] while
    [_panning] is set: both bars move, and Pixel mode schedules a tile
    update. *)
Definition pan (s : View) (delta : QPoint) : View :=
  let s1 :=
    with_scroll s
      (setValue qt (transform s) (scroll s) (viewport s) (scene_size s)
         true (fst (scroll s) - pt_x delta)) in
  let s2 :=
    with_scroll s1
      (setValue qt (transform s1) (scroll s1) (viewport s1) (scene_size s1)
         false (snd (scroll s1) - pt_y delta)) in
  if pixel_mode s2 then with_visible_update_timer s2 true else s2.

End Fitting.

(* ================================================================== *)
(** * Events *)
(* ================================================================== *)

(** The inputs of the view that the handlers above serve.  [PendingFit]
    is the event loop delivering one of the zero-delay [fit_long_side]
    calls that [load_image] and [exit_pixel_mode] queue. *)
Inductive ViewEvent : Type :=
| Wheel (event : WheelEvent)
| VisibleUpdateTimeout
| ZoomEndTimeout
| LoadImage (qpixmap : option QPixmap)
| DoubleClick (pos : QPointF) (cursor_local : QPoint)
| Resize (new_size : QSize) (cursor_local : QPoint)
| ResizeDebounceTimeout (cursor_local : QPoint)
| Pan (delta : QPoint)
| PendingFit (cursor_local : QPoint).

Definition is_wheel (e : ViewEvent) : bool :=
  match e with Wheel _ => true | _ => false end.

Definition handle (qt : QtGeometry) (s : View) (e : ViewEvent) : option View :=
  match e with
  | Wheel event => wheelEvent qt s event
  | VisibleUpdateTimeout => on_visible_update_timeout qt s
  | ZoomEndTimeout => Some (on_zoom_end s)
  | LoadImage qpixmap => Some (fst (load_image qt s qpixmap))
  | DoubleClick pos cursor_local => fst <$> mouseDoubleClickEvent qt s pos cursor_local
  | Resize new_size cursor_local => Some (fst (resizeEvent qt s new_size cursor_local))
  | ResizeDebounceTimeout cursor_local => Some (on_debounced_resize qt s cursor_local)
  | Pan delta => Some (pan qt s delta)
  | PendingFit cursor_local =>
      match pending_fit s with
      | O => Some s
      | S n => Some (fit_long_side qt (with_pending_fit s n) None cursor_local)
      end
  end.

(** A run of events; [None] once a handler has raised. *)
Fixpoint handle_all (qt : QtGeometry) (s : View) (es : list ViewEvent) : option View :=
  match es with
  | [] => Some s
  | e :: es' => s' ← handle qt s e; handle_all qt s' es'
  end.

(** No wheel event of the run is handled while a zero-delay fit is
    still queued: the event loop has delivered it first. *)
Fixpoint wheels_find_no_fit (qt : QtGeometry) (s : View) (es : list ViewEvent) : bool :=
  match es with
  | [] => true
  | e :: es' =>
      (negb (is_wheel e) || Nat.eqb (pending_fit s) 0)
      && match handle qt s e with
         | Some s' => wheels_find_no_fit qt s' es'
         | None => true
         end
  end.

(* ================================================================== *)
(** * Tile annotation *)
(* ================================================================== *)

(** [lum = 0.299 * r + 0.587 * g + 0.114 * b]. *)
Definition luminance (r g b : Z) : float :=
  (0.299 * Py.float_of_Z r + 0.587 * Py.float_of_Z g + 0.114 * Py.float_of_Z b)%float.

(** The pen is [QColor(0, 0, 0)] when [lum > 140], white otherwise. *)
Definition pen_is_black (r g b : Z) : bool := (140 <? luminance r g b)%float.

(* ================================================================== *)
(** * Gallery navigation of [ImageViewer] *)
(* ================================================================== *)

Section Gallery.
Context {Path : Type}.

Record Gallery : Type := mkGallery {
  folder_images : list Path;
  current_index : Z;
}.

(** What [show_next] / [show_prev] do besides moving the index: forward
    the request to the owner, or hand a path to [_load_image]. *)
Inductive GalleryEffect : Type :=
| EmitNextRequested
| EmitPrevRequested
| LoadPath (path : Path).

(** [self._folder_images[i]] for a Python list: a negative index counts
    from the end, an index out of range raises [IndexError]. *)
Definition py_index (l : list Path) (i : Z) : option Path :=
  if (0 <=? i) then l !! Z.to_nat i
  else if (- Z.of_nat (length l) <=? i) then l !! Z.to_nat (Z.of_nat (length l) + i)
  else None.

Definition show_next (g : Gallery) : option (Gallery * GalleryEffect) :=
  match folder_images g with
  | [] => Some (g, EmitNextRequested)
  | _ =>
      let i := (current_index g + 1) `mod` Z.of_nat (length (folder_images g)) in
      path ← py_index (folder_images g) i;
      Some (mkGallery (folder_images g) i, LoadPath path)
  end.

Definition show_prev (g : Gallery) : option (Gallery * GalleryEffect) :=
  match folder_images g with
  | [] => Some (g, EmitPrevRequested)
  | _ =>
      let i := (current_index g - 1) `mod` Z.of_nat (length (folder_images g)) in
      path ← py_index (folder_images g) i;
      Some (mkGallery (folder_images g) i, LoadPath path)
  end.

End Gallery.
Arguments Gallery : clear implicits.
Arguments GalleryEffect : clear implicits.


(** Concrete views for the examples. *)
Definition example_viewport : QSize := mkQSize 800 600.

Definition wheel_at_center (delta : Z) : WheelEvent :=
  mkWheelEvent (mkQPoint 400 300) delta false false (mkQPoint 400 300).

(** A 40 x 30 gray image shown at scale 60. *)
Definition small_gray_view : View :=
  normal_view example_viewport (uniform_image 40 30 (10, 10, 10)) 60.

(** The same view after one wheel notch forwards: Pixel mode, four tiles. *)
Definition small_pixel_view : View :=
  default small_gray_view
    (wheelEvent plain_geometry small_gray_view (wheel_at_center 120)).

(** The Pixel-mode view stripped of its tiles and of its cache. *)
Definition untiled_pixel_view : View :=
  with_tiles small_pixel_view (TileCache.new CACHE_MAX_TILES) ∅.

(** A 2000 x 1500 image shown at scale 0.077. *)
Definition wide_view : View :=
  normal_view example_viewport (uniform_image 2000 1500 (10, 10, 10)) 0.077.

(** A 10 x 10 all-red image at scale 20, its left edge 40 pixels into
    the viewport. *)
Definition red_view : View :=
  with_scroll (normal_view example_viewport (uniform_image 10 10 (255, 0, 0)) 20)
    (-40, 0).

(** A 300 x 300 gray image with one red pixel at the sampled point (6, 9)
    (the stride is 3 on both axes). *)
Definition one_red_pixel : QImage :=
  mkQImage 300 300
    (fun x y => if (x =? 6) && (y =? 9) then (255, 0, 0) else (128, 128, 128)).

(** Tiles keyed [(1, 0) .. (n, 0)], each holding its own number. *)
Definition numbered_tiles (n : nat) : list (TileKey * nat) :=
  (fun i => ((Z.of_nat i, 0), i)) <$> seq 1 n.

(* ================================================================== *)
(** * Specification predicates *)
(* ================================================================== *)

(** The deque lists exactly the keys of the dictionary, once each, and
    fits the capacity. *)
Definition cache_wf {Pix : Type} (c : TileCache.t Pix) : Prop :=
  NoDup (TileCache.order c) ∧
  (∀ k, k ∈ TileCache.order c ↔ is_Some (TileCache.cache c !! k)) ∧
  (length (TileCache.order c) ≤ TileCache.max_tiles c)%nat.

(** What a pass over [required] leaves behind: every key it met is
    either materialized, or has no cached bitmap and cannot be rendered. *)
Definition settled (s : View) (c : TileCache.t TilePixmap)
    (items : gmap TileKey TilePixmap) (k : TileKey) : Prop :=
  is_Some (items !! k) ∨
  (TileCache.cache c !! k = None ∧ make_tile_pixmap s k.1 k.2 = None).

(** [m * 2^e] is at least [2^k], stated on integers. *)
Definition at_least_pow2 (k m e : Z) : Prop :=
  (e ≤ k ∧ 2 ^ (k - e) ≤ m) ∨ (k < e ∧ 1 ≤ m).

(** [(m, e)] is not below [(2^52, k - 52)] in the order [SFcompare] uses
    on positive finite floats: exponent first, then mantissa. *)
Definition normal_above (k m e : Z) : Prop :=
  k - 52 < e ∨ (e = k - 52 ∧ 2 ^ 52 ≤ m).

(** A positive float that is at least [2^k], infinity included. *)
Definition SF_at_least (k : Z) (x : spec_float) : Prop :=
  match x with
  | S754_infinity false => True
  | S754_finite false m e => at_least_pow2 k (Zpos m) e ∧ normal_above k (Zpos m) e
  | _ => False
  end.

(** A float with the sign bit clear: [+0], positive finite, [+inf]. *)
Definition SF_nonneg (x : spec_float) : Prop :=
  match x with
  | S754_zero false | S754_finite false _ _ | S754_infinity false => True
  | _ => False
  end.

(** The fields that fitting leaves alone. *)
Definition same_frame (s s' : View) : Prop :=
  pixel_mode s' = pixel_mode s ∧ orig_qimage s' = orig_qimage s ∧
  is_grayscale s' = is_grayscale s ∧ pixmap_item s' = pixmap_item s ∧
  saved_transform s' = saved_transform s ∧ saved_scale s' = saved_scale s ∧
  tile_cache s' = tile_cache s ∧ tile_items s' = tile_items s ∧
  viewport s' = viewport s ∧ scroll_connected s' = scroll_connected s.

(** No bitmap is stale: whatever is materialized or cached under a key is
    what [_make_tile_pixmap] renders for that key now, and no key has a
    negative index. *)
Definition fresh_tile (s : View) (k : TileKey) (pix : TilePixmap) : Prop :=
  0 ≤ k.1 ∧ 0 ≤ k.2 ∧ make_tile_pixmap s k.1 k.2 = Some pix.

Definition tiles_fresh (s : View) (c : TileCache.t TilePixmap)
    (items : gmap TileKey TilePixmap) : Prop :=
  (∀ k pix, items !! k = Some pix → fresh_tile s k pix) ∧
  (∀ k pix, TileCache.cache c !! k = Some pix → fresh_tile s k pix).

(** The tile side of the view's invariant. *)
Definition tiles_inv (s : View) : Prop :=
  tiles_fresh s (tile_cache s) (tile_items s) ∧
  cache_wf (tile_cache s) ∧
  TileCache.max_tiles (tile_cache s) = CACHE_MAX_TILES.

(** The mode side: what Pixel mode and Normal mode each guarantee.  (No
    zero-delay fit stays queued in Pixel mode: [enter_pixel_mode] ends
    with a [processEvents()] call.) *)
Definition mode_inv (s : View) : Prop :=
  (pixel_mode s = true →
     is_Some (orig_qimage s) ∧
     (∃ it, pixmap_item s = Some it ∧ item_visible it = false) ∧
     is_Some (saved_transform s) ∧ pending_fit s = 0%nat) ∧
  (pixel_mode s = false →
     tile_items s = ∅ ∧ ∀ it, pixmap_item s = Some it → item_visible it = true).

(** Pixel mode at the exact [PIXEL_CELL] scale with auto-fit off. *)
Definition pixel_exact (s : View) : Prop :=
  pixel_mode s = true → current_scale s = 64%float ∧ auto_fit_mode s = false.

(** The image side: the image kept for probing and tiling is not null and
    is the one the pixmap item shows. *)
Definition image_inv (s : View) : Prop :=
  ∀ img, orig_qimage s = Some img →
    isNull img = false ∧ ∃ it, pixmap_item s = Some it ∧ item_pixmap it = img.

Definition view_inv (s : View) : Prop := mode_inv s ∧ tiles_inv s ∧ image_inv s.

(** The entry a gallery step hands to [_load_image]: the step returns,
    keeps the list, and moves to an index inside it. *)
Definition loads_entry {Path : Type} (g : Gallery Path)
    (r : option (Gallery Path * GalleryEffect Path)) : Prop :=
  ∃ g' path, r = Some (g', LoadPath path) ∧
    folder_images g' = folder_images g ∧
    0 ≤ current_index g' < Z.of_nat (length (folder_images g)) ∧
    folder_images g !! Z.to_nat (current_index g') = Some path.

(** The view right after [load_image] of a 40 x 30 gray image into an
    800 x 600 viewport: the zero-delay fit it queued is not delivered
    yet. *)
Definition just_loaded_view : View :=
  (load_image plain_geometry (initial_view example_viewport)
     (Some (uniform_image 40 30 (10, 10, 10)))).1.

(** A session: load a 40 x 30 gray image, let the queued fit run, resize
    the window, zoom in far enough to enter Pixel mode, drag to the
    right, let the tile timer fire. *)
Definition example_run : list ViewEvent :=
  [LoadImage (Some (uniform_image 40 30 (10, 10, 10)));
   PendingFit (mkQPoint 5 5);
   Resize (mkQSize 640 480) (mkQPoint 5 5);
   Wheel (wheel_at_center 60000);
   Pan (mkQPoint (-700) 0);
   VisibleUpdateTimeout].

Definition example_pixel_state : View :=
  default (initial_view example_viewport)
    (handle_all plain_geometry (initial_view example_viewport) example_run).

(** The same session ended by a double click in the middle. *)
Definition example_run_fitted : list ViewEvent :=
  example_run ++ [DoubleClick (mkQPointF 300 200) (mkQPoint 5 5)].

Definition example_normal_state : View :=
  default (initial_view example_viewport)
    (handle_all plain_geometry (initial_view example_viewport) example_run_fitted).

(** The first session followed by the load of a second image of the same
    size, lighter, a zoom into Pixel mode again, and a drag back to
    where the first session ended. *)
Definition example_run_reloaded : list ViewEvent :=
  example_run ++
  [LoadImage (Some (uniform_image 40 30 (200, 200, 200)));
   PendingFit (mkQPoint 5 5);
   Wheel (wheel_at_center 60000);
   Pan (mkQPoint 140100 76800);
   VisibleUpdateTimeout].

(** Every cell of every bitmap of a list of tiles has the colour [c]. *)
Definition tiles_all_of_colour (c : Z * Z * Z) (tiles : list TilePixmap) : bool :=
  forallb (λ pix, forallb (forallb (λ cell, bool_decide (cell = c))) (tile_cells pix))
    tiles.

(** A full cache of capacity 3 holding the keys (1, 0), (2, 0), (3, 0),
    oldest first. *)
Definition example_cache : TileCache.t nat :=
  TileCache.put_all (TileCache.new 3) (numbered_tiles 3).

(** A folder of three entries with the third one current. *)
Definition example_gallery : Gallery nat := mkGallery [10; 20; 30]%nat 2.


(* ================================================================== *)
(** * Facts about finite maps *)
(* ================================================================== *)

#[local] Set Warnings "-clear-no-such-hyp".

Lemma lookup_foldl_delete {V} (m : gmap TileKey V) (l : list TileKey) k :
  foldl (fun m k => delete k m) m l !! k = if decide (k ∈ l) then None else m !! k.
Proof.
  revert m. induction l as [|x l IH]; intros m; simpl.
  - destruct (decide (k ∈ [])) as [H|]; [by apply elem_of_nil in H|done].
  - rewrite IH. destruct (decide (k ∈ l)) as [Hin|Hnin].
    + rewrite decide_True by set_solver. done.
    + destruct (decide (x = k)) as [->|Hne].
      * rewrite decide_True by set_solver. apply lookup_delete_eq.
      * rewrite decide_False by set_solver. by apply lookup_delete_ne.
Qed.



(* ================================================================== *)
(** * The tile cache is a bounded LRU *)
(* ================================================================== *)


Section CacheFacts.
Context {Pix : Type}.
Implicit Types (c : TileCache.t Pix) (k key : TileKey) (l : list TileKey)
  (m : gmap TileKey Pix).

Import TileCache.

Lemma remove_first_not_in key l : key ∉ l → remove_first key l = l.
Proof.
  induction l as [|k l IH]; simpl; [done|].
  intros Hnin. apply not_elem_of_cons in Hnin as [Hne Hnin2].
  destruct (decide (k = key)); [congruence|]. by rewrite IH.
Qed.

Lemma remove_first_elem key l x :
  NoDup l → x ∈ remove_first key l ↔ x ∈ l ∧ x ≠ key.
Proof.
  induction l as [|k l IH]; simpl; intros Hnd.
  - set_solver.
  - apply list.NoDup_cons in Hnd as [Hk Hnd].
    destruct (decide (k = key)) as [->|Hne].
    + split; [intros Hx | intros [Hx Hne]].
      * split; [set_solver|]. intros ->. done.
      * set_solver.
    + rewrite !elem_of_cons, IH by done. naive_solver.
Qed.

Lemma remove_first_NoDup key l : NoDup l → NoDup (remove_first key l).
Proof.
  induction l as [|k l IH]; simpl; intros Hnd; [done|].
  apply list.NoDup_cons in Hnd as [Hk Hnd].
  destruct (decide (k = key)); [done|].
  apply list.NoDup_cons. split; [|by apply IH].
  rewrite remove_first_elem by done. naive_solver.
Qed.

Lemma remove_first_length key l :
  key ∈ l → S (length (remove_first key l)) = length l.
Proof.
  induction l as [|k l IH]; simpl; intros Hin; [by apply elem_of_nil in Hin|].
  destruct (decide (k = key)); [done|].
  apply elem_of_cons in Hin as [?|Hin]; [congruence|]. simpl. by rewrite IH.
Qed.

(** The eviction loop pops from the left until the deque fits. *)
Lemma evict_spec n m l :
  evict n m l =
    (foldl (fun m k => delete k m) m (take (length l - n) l),
     drop (length l - n) l).
Proof.
  revert m. induction l as [|old l IH]; intros m; simpl; [done|].
  destruct (decide (n < S (length l))%nat) as [Hlt|Hge].
  - rewrite IH. replace (S (length l) - n)%nat with (S (length l - n)) by lia.
    done.
  - replace (S (length l) - n)%nat with 0%nat by lia. done.
Qed.

Lemma evict_wf n m l m' l' :
  NoDup l → (∀ k, k ∈ l ↔ is_Some (m !! k)) → evict n m l = (m', l') →
  NoDup l' ∧ (∀ k, k ∈ l' ↔ is_Some (m' !! k)) ∧ (length l' ≤ n)%nat.
Proof.
  intros Hnd Hdom. rewrite evict_spec. intros [= <- <-].
  pose proof (take_drop (length l - n) l) as Htd.
  assert (NoDup (take (length l - n) l ++ drop (length l - n) l)) as Hnd'
    by by rewrite Htd.
  apply list.NoDup_app in Hnd' as (Hnt & Hdisj & Hndd).
  split; [done|]. split.
  - intros k. rewrite lookup_foldl_delete.
    destruct (decide (k ∈ take (length l - n) l)) as [Hin|Hnin].
    + split; [intros Hd; by destruct (Hdisj k Hin Hd) | intros Hs; by apply is_Some_None in Hs].
    + rewrite <- Hdom. split.
      * intros Hk. rewrite <- Htd. apply elem_of_app. by right.
      * intros Hk. rewrite <- Htd in Hk. apply elem_of_app in Hk. naive_solver.
  - rewrite length_drop. lia.
Qed.

Lemma new_wf n : cache_wf (new (Pix:=Pix) n).
Proof.
  split; [constructor|]. split; [|simpl; lia].
  intros k. simpl. rewrite lookup_empty. split; [set_solver | by intros [? ?]].
Qed.

Lemma clear_wf c : cache_wf (clear c).
Proof.
  split; [constructor|]. split; [|simpl; lia].
  intros k. simpl. rewrite lookup_empty. split; [set_solver | by intros [? ?]].
Qed.

Lemma get_wf c key : cache_wf c → cache_wf (snd (get c key)).
Proof.
  intros (Hnd & Hdom & Hlen). unfold get.
  destruct (cache c !! key) as [pix|] eqn:Hk; simpl; [|done].
  assert (key ∈ order c) as Hin by (apply Hdom; eauto).
  unfold cache_wf; simpl. split; [|split].
  - apply list.NoDup_app. split; [by apply remove_first_NoDup|].
    split; [|apply NoDup_singleton].
    intros x Hx. rewrite remove_first_elem in Hx by done. set_solver.
  - intros k. rewrite elem_of_app, remove_first_elem, <- Hdom by done.
    rewrite list_elem_of_singleton. destruct (decide (k = key)); naive_solver.
  - rewrite length_app. simpl. pose proof (remove_first_length key _ Hin). lia.
Qed.

Lemma put_wf c key pixmap : cache_wf c → cache_wf (put c key pixmap).
Proof.
  intros (Hnd & Hdom & Hlen). unfold put.
  set (order1 := match cache c !! key with
                 | Some _ => remove_first key (order c) | None => order c end).
  assert (NoDup order1 ∧ ∀ k, k ∈ order1 ↔ k ∈ order c ∧ k ≠ key) as [Hnd1 Hin1].
  { subst order1. destruct (cache c !! key) eqn:Hk.
    - split; [by apply remove_first_NoDup|]. intros k. by apply remove_first_elem.
    - split; [done|]. intros k. split; [|naive_solver]. intros Hin. split; [done|].
      intros ->. apply Hdom in Hin as [? ?]. congruence. }
  destruct (evict _ _ _) as [cache2 order3] eqn:Hev.
  unfold cache_wf; simpl. apply evict_wf in Hev; [done| |].
  - apply list.NoDup_app. split; [done|]. split; [|apply NoDup_singleton].
    intros x Hx. apply Hin1 in Hx. set_solver.
  - intros k. rewrite elem_of_app, Hin1, list_elem_of_singleton, Hdom.
    destruct (decide (k = key)) as [->|Hne].
    + rewrite lookup_insert_eq. naive_solver.
    + rewrite lookup_insert_ne by done. naive_solver.
Qed.

Lemma run_wf c ops : cache_wf c → cache_wf (run c ops).
Proof.
  revert c. induction ops as [|o ops IH]; intros c Hwf; simpl; [done|].
  apply IH. destruct o; simpl; auto using get_wf, put_wf, clear_wf.
Qed.

Lemma max_tiles_step c o : max_tiles (step c o) = max_tiles c.
Proof.
  destruct o; simpl; [| |done].
  - unfold get. by destruct (cache c !! key).
  - unfold put. by destruct (evict _ _ _).
Qed.

Lemma max_tiles_run c ops : max_tiles (run c ops) = max_tiles c.
Proof.
  revert c. induction ops as [|o ops IH]; intros c; simpl; [done|].
  by rewrite IH, max_tiles_step.
Qed.

Lemma cache_wf_size c : cache_wf c → size (cache c) = length (order c).
Proof.
  intros (Hnd & Hdom & _).
  rewrite <- size_dom, <- (size_list_to_set (C:=gset TileKey) (order c)) by done.
  f_equal. apply set_eq. intros k.
  by rewrite elem_of_dom, elem_of_list_to_set, Hdom.
Qed.

Lemma put_all_snoc c kvs kv :
  put_all c (kvs ++ [kv]) = put (put_all c kvs) kv.1 kv.2.
Proof. unfold put_all. by rewrite foldl_app. Qed.

(** Distinct keys that fit the capacity are all kept, in insertion order. *)
Lemma put_all_fits n (kvs : list (TileKey * Pix)) :
  NoDup kvs.*1 → (length kvs ≤ n)%nat →
  let c := put_all (new n) kvs in
  max_tiles c = n ∧ order c = kvs.*1 ∧
  (∀ k v, (k, v) ∈ kvs → cache c !! k = Some v) ∧
  (∀ k, k ∉ kvs.*1 → cache c !! k = None).
Proof.
  induction kvs as [|[key pixmap] kvs IH] using rev_ind; intros Hnd Hlen.
  - simpl. split; [done|]. split; [done|]. split; [|done].
    intros k v Hin. by apply elem_of_nil in Hin.
  - rewrite fmap_app in Hnd. simpl in Hnd.
    apply list.NoDup_app in Hnd as (Hnd & Hfresh & _).
    rewrite length_app in Hlen. simpl in Hlen.
    destruct IH as (Hmax & Hord & Hin & Hout); [done|lia|].
    assert (key ∉ kvs.*1) as Hkey by (intros Hk; apply (Hfresh key Hk); set_solver).
    cbv zeta. rewrite put_all_snoc. simpl. unfold put.
    rewrite (Hout key Hkey), Hmax, Hord, evict_spec.
    rewrite length_app, length_fmap. simpl.
    replace (length kvs + 1 - n)%nat with 0%nat by lia. simpl.
    split; [done|]. split; [by rewrite fmap_app|]. split.
    + intros k v Hkv. apply elem_of_app in Hkv as [Hkv|Hkv].
      * rewrite lookup_insert_ne; [by apply Hin|].
        intros <-. apply Hkey. apply list_elem_of_fmap. by exists (key, v).
      * apply list_elem_of_singleton in Hkv as [= -> ->]. apply lookup_insert_eq.
    + intros k Hk. rewrite fmap_app in Hk. simpl in Hk.
      apply not_elem_of_app in Hk as [Hk1 Hk2].
      rewrite lookup_insert_ne by set_solver. by apply Hout.
Qed.

(** One key more than the capacity: the first key inserted is evicted and
    every later one is kept. *)
Lemma put_all_overflow n (first : TileKey * Pix) (others : list (TileKey * Pix)) :
  NoDup (first.1 :: others.*1) → length others = n →
  let c := put_all (new n) (first :: others) in
  cache c !! first.1 = None ∧
  (∀ kv, kv ∈ others → cache c !! kv.1 = Some kv.2) ∧
  order c = others.*1.
Proof.
  intros Hnd Hlen.
  destruct others as [|kv0 others0 _] using rev_ind.
  - simpl in Hlen. subst n. cbv zeta. unfold put_all. simpl. unfold put. simpl.
    rewrite lookup_empty, evict_spec. simpl.
    rewrite lookup_delete_eq. split; [done|]. split; [|done].
    intros kv Hkv. by apply elem_of_nil in Hkv.
  - rewrite length_app in Hlen. simpl in Hlen.
    set (others := others0 ++ [kv0]) in *.
    assert (NoDup (first :: others0).*1 ∧ (kv0.1 ∉ (first :: others0).*1)
            ∧ (first.1 ∉ others.*1)) as (Hnd0 & Hlast & Hfirst).
    { subst others. rewrite fmap_app in Hnd. simpl in Hnd.
      apply list.NoDup_cons in Hnd as [Hf Hnd].
      apply list.NoDup_app in Hnd as (Hnd' & Hdisj & _).
      rewrite fmap_app. simpl. split; [|split; [|done]].
      - apply list.NoDup_cons. split; [|done]. set_solver.
      - rewrite not_elem_of_cons. split.
        + intros Heq. apply Hf. rewrite Heq. set_solver.
        + intros Hk. apply (Hdisj _ Hk). set_solver. }
    pose proof (put_all_fits n (first :: others0) Hnd0) as Hfit.
    cbv zeta in Hfit. cbv zeta.
    change (first :: others) with ((first :: others0) ++ [kv0]).
    rewrite put_all_snoc.
    set (c0 := put_all (new n) (first :: others0)) in *. clearbody c0.
    destruct Hfit as (Hmax & Hord & Hin & Hout); [simpl; lia|].
    unfold put.
    rewrite (Hout _ Hlast), Hmax, Hord, evict_spec.
    rewrite length_app, length_fmap. simpl.
    replace (S (length others0 + 1) - n)%nat with 1%nat by lia. simpl.
    rewrite drop_0. split; [apply lookup_delete_eq|]. split.
    + intros kv Hkv.
      assert (kv.1 ≠ first.1) as Hne.
      { intros Heq. apply Hfirst. rewrite <- Heq. apply list_elem_of_fmap. eauto. }
      rewrite lookup_delete_ne by done.
      subst others. apply elem_of_app in Hkv as [Hkv|Hkv].
      * rewrite lookup_insert_ne.
        -- apply Hin. destruct kv. set_solver.
        -- intros Heq. apply Hlast. rewrite Heq. apply list_elem_of_fmap.
           exists kv. set_solver.
      * apply list_elem_of_singleton in Hkv as ->. apply lookup_insert_eq.
    + subst others. by rewrite fmap_app.
Qed.

End CacheFacts.

(** C3. The tile cache never holds more than [CACHE_MAX_TILES] = 200
    entries after any run of [get] / [put] / [clear] calls on a fresh cache;
    and after 201 [put]s of distinct keys into a fresh cache the first key
    inserted (the least recently used one) is absent while the other 200
    are present with their bitmaps. *)
Theorem tile_cache_capacity {Pix : Type} (ops : list (TileCache.op (Pix:=Pix)))
    (first : TileKey * Pix) (others : list (TileKey * Pix)) :
  NoDup (first.1 :: others.*1) → length others = CACHE_MAX_TILES →
  (size (TileCache.cache (TileCache.run (TileCache.new CACHE_MAX_TILES) ops))
     ≤ CACHE_MAX_TILES)%nat ∧
  TileCache.cache (TileCache.put_all (TileCache.new CACHE_MAX_TILES) (first :: others))
    !! first.1 = None ∧
  (∀ kv, kv ∈ others →
     TileCache.cache (TileCache.put_all (TileCache.new CACHE_MAX_TILES) (first :: others))
       !! kv.1 = Some kv.2).
Proof.
  intros Hnd Hlen. split.
  - pose proof (run_wf _ ops (new_wf (Pix:=Pix) CACHE_MAX_TILES)) as Hwf.
    rewrite (cache_wf_size _ Hwf). destruct Hwf as (_ & _ & Hle).
    by rewrite max_tiles_run in Hle.
  - destruct (put_all_overflow _ first others Hnd Hlen) as (H1 & H2 & _). done.
Qed.



(* ================================================================== *)
(** * The grayscale pass *)
(* ================================================================== *)


Lemma scan_row_true img y xs :
  scan_row img y xs = true ↔ ∀ x, x ∈ xs → channels_equal (img_pixel img x y) = true.
Proof.
  induction xs as [|x xs IH]; simpl.
  - split; [intros _ x Hx; by apply elem_of_nil in Hx | done].
  - destruct (channels_equal (img_pixel img x y)) eqn:Hc.
    + rewrite IH. split.
      * intros H x' Hx'. apply elem_of_cons in Hx' as [->|Hx']; auto.
      * intros H x' Hx'. apply H. by right.
    + split; [done|]. intros H. rewrite <- Hc. apply H. by left.
Qed.

Lemma scan_rows_true img ys xs :
  scan_rows img ys xs = true ↔
  ∀ x y, x ∈ xs → y ∈ ys → channels_equal (img_pixel img x y) = true.
Proof.
  induction ys as [|y ys IH]; simpl.
  - split; [intros _ x y _ Hy; by apply elem_of_nil in Hy | done].
  - destruct (scan_row img y xs) eqn:Hrow.
    + rewrite IH. rewrite scan_row_true in Hrow. split.
      * intros H x y' Hx Hy'. apply elem_of_cons in Hy' as [->|Hy']; auto.
      * intros H x y' Hx Hy'. apply H; [done | by right].
    + split; [done|]. intros H. rewrite <- Hrow. apply scan_row_true.
      intros x Hx. apply H; [done | by left].
Qed.

Lemma elem_of_range stop step x :
  0 < step → x ∈ Py.range stop step ↔ 0 ≤ x < stop ∧ (step | x).
Proof.
  intros Hstep. unfold Py.range, Py.range_len.
  rewrite list_elem_of_fmap. setoid_rewrite elem_of_seq.
  destruct (stop <=? 0) eqn:Hstop.
  - apply Z.leb_le in Hstop. split; [intros (i & _ & Hi); simpl in Hi; lia | lia].
  - apply Z.leb_gt in Hstop.
    assert (0 ≤ (stop + step - 1) / step) as Hq by (apply Z.div_pos; lia).
    split.
    + intros (i & -> & _ & Hi). simpl in Hi.
      assert (Z.of_nat i < (stop + step - 1) / step) as Hlt by lia.
      split; [|by exists (Z.of_nat i)].
      split; [lia|].
      assert (Z.of_nat i + 1 ≤ (stop + step - 1) / step) as Hle by lia.
      pose proof (Z.mul_div_le (stop + step - 1) step Hstep). nia.
    + intros ([Hx0 Hx] & (q & ->)).
      assert (0 ≤ q) by nia.
      exists (Z.to_nat q). split; [lia|]. split; [lia|]. simpl.
      assert (q < (stop + step - 1) / step); [|lia].
      apply Z.div_le_lower_bound with (b := step) (q := q + 1) (a := stop + step - 1) in Hstep as H'; nia.
Qed.

Lemma grid_step_pos dim : 0 < grid_step dim.
Proof. unfold grid_step. lia. Qed.

(** A sampled axis has fewer than 200 points, whatever its length. *)
Lemma grid_axis_length dim :
  (Py.range_len dim (grid_step dim) ≤ 199)%nat.
Proof.
  unfold Py.range_len, grid_step, max_grid.
  destruct (dim <=? 0) eqn:Hdim; [lia|]. apply Z.leb_gt in Hdim.
  assert (0 ≤ dim / 100) by (apply Z.div_pos; lia).
  pose proof (Z.mul_div_le dim 100 ltac:(lia)).
  pose proof (Z.mul_succ_div_gt dim 100 ltac:(lia)).
  set (q := dim / 100) in *.
  assert ((dim + Z.max 1 q - 1) / Z.max 1 q ≤ 199); [|lia].
  apply Z.div_le_upper_bound; lia.
Qed.

Lemma length_range stop step : length (Py.range stop step) = Py.range_len stop step.
Proof. unfold Py.range. by rewrite length_map, length_seq. Qed.

(** C6 (amended). The grayscale pass visits the grid of the multiples of
    [max(1, dim // 100)] on each axis, which has at most 199 points per
    axis (not 100), and it answers [True] exactly when every visited pixel
    has equal channels: one visited pixel with unequal channels makes it
    [False]. *)
Theorem detect_grayscale_sampling (img : QImage) :
  (length (grid_xs img) ≤ 199 ∧ length (grid_ys img) ≤ 199)%nat ∧
  (∀ x, x ∈ grid_xs img ↔
        0 ≤ x < img_width img ∧ (Z.max 1 (img_width img / 100) | x)) ∧
  (∀ y, y ∈ grid_ys img ↔
        0 ≤ y < img_height img ∧ (Z.max 1 (img_height img / 100) | y)) ∧
  (detect_grayscale (Some img) = true ↔
   ∀ x y, x ∈ grid_xs img → y ∈ grid_ys img →
          channels_equal (img_pixel img x y) = true).
Proof.
  split; [|split; [|split]].
  - unfold grid_xs, grid_ys. rewrite !length_range. split; apply grid_axis_length.
  - intros x. apply elem_of_range, grid_step_pos.
  - intros y. apply elem_of_range, grid_step_pos.
  - simpl. apply scan_rows_true.
Qed.



(* ================================================================== *)
(** * Visible-tile reconciliation *)
(* ================================================================== *)


Section TileFacts.
Variable qt : QtGeometry.
Implicit Types (s : View) (k : TileKey) (c : TileCache.t TilePixmap)
  (items : gmap TileKey TilePixmap).

Lemma get_cache c k : TileCache.cache (TileCache.get c k).2 = TileCache.cache c.
Proof. unfold TileCache.get. by destruct (TileCache.cache c !! k). Qed.

Lemma get_miss c k :
  TileCache.cache c !! k = None → TileCache.get c k = (None, c).
Proof. intros H. unfold TileCache.get. by rewrite H. Qed.

Lemma get_result c k : (TileCache.get c k).1 = TileCache.cache c !! k.
Proof. unfold TileCache.get. by destruct (TileCache.cache c !! k). Qed.

Lemma put_other_absent c k k' pix :
  k ≠ k' → TileCache.cache c !! k = None →
  TileCache.cache (TileCache.put c k' pix) !! k = None.
Proof.
  intros Hne Hk. unfold TileCache.put.
  destruct (TileCache.evict _ _ _) as [m l] eqn:Hev. simpl.
  revert Hev. generalize (match TileCache.cache c !! k' with
                          | Some _ => TileCache.remove_first k' (TileCache.order c)
                          | None => TileCache.order c end ++ [k']).
  assert (<[k':=pix]> (TileCache.cache c) !! k = None) as Hins
    by by rewrite lookup_insert_ne.
  revert Hins. generalize (<[k':=pix]> (TileCache.cache c)).
  intros m0 Hm0 l0. revert m0 Hm0.
  induction l0 as [|old l0 IH]; intros m0 Hm0; simpl.
  - by intros [= <- <-].
  - destruct (decide _); [|by intros [= <- <-]].
    apply IH. destruct (decide (old = k)) as [->|?].
    + apply lookup_delete_eq.
    + by rewrite lookup_delete_ne.
Qed.

Lemma add_tile_settles s c items added k c' items' added' :
  add_tile s (c, items, added) k = (c', items', added') →
  settled s c' items' k ∧
  (∀ k', settled s c items k' → settled s c' items' k') ∧
  (∀ k', is_Some (items' !! k') → is_Some (items !! k') ∨ k' = k).
Proof.
  unfold add_tile. destruct (items !! k) as [pix|] eqn:Hit.
  { intros [= <- <- <-]. split; [left; eauto|]. split; [done|]. by left. }
  destruct (TileCache.get c k) as [[pix|] c1] eqn:Hget.
  - intros [= <- <- <-].
    assert (TileCache.cache c1 = TileCache.cache c) as Hc
      by (rewrite <- (get_cache c k); by rewrite Hget).
    split; [left; rewrite lookup_insert_eq; eauto|]. split.
    + intros k' [Hs|Hs]; [left|right; by rewrite Hc].
      destruct (decide (k = k')) as [->|?];
        [rewrite lookup_insert_eq; eauto | by rewrite lookup_insert_ne].
    + intros k'. destruct (decide (k = k')) as [->|?]; [by right|].
      rewrite lookup_insert_ne by done. by left.
  - assert (TileCache.cache c !! k = None) as Hmiss
      by (rewrite <- get_result; by rewrite Hget).
    rewrite (get_miss _ _ Hmiss) in Hget. injection Hget as <-.
    destruct (make_tile_pixmap s k.1 k.2) as [pix|] eqn:Hmake.
    + intros [= <- <- <-].
      split; [left; rewrite lookup_insert_eq; eauto|]. split.
      * intros k' [Hs|[Hs1 Hs2]].
        -- left. destruct (decide (k = k')) as [->|?];
             [rewrite lookup_insert_eq; eauto | by rewrite lookup_insert_ne].
        -- right. split; [|done]. apply put_other_absent; [|done].
           intros ->. congruence.
      * intros k'. destruct (decide (k = k')) as [->|?]; [by right|].
        rewrite lookup_insert_ne by done. by left.
    + intros [= <- <- <-]. split; [by right|]. split; [done|]. by left.
Qed.

Lemma foldl_add_tile_settles s required c items added c' items' added' :
  foldl (add_tile s) (c, items, added) required = (c', items', added') →
  (∀ k, k ∈ required → settled s c' items' k) ∧
  (∀ k, settled s c items k → settled s c' items' k) ∧
  (∀ k, is_Some (items' !! k) → is_Some (items !! k) ∨ k ∈ required).
Proof.
  revert c items added.
  induction required as [|k0 required IH]; intros c items added.
  - simpl. intros [= <- <- <-]. split; [intros k Hk; by apply elem_of_nil in Hk|].
    split; [done|]. by left.
  - cbn [foldl].
    destruct (add_tile s (c, items, added) k0) as [[c1 items1] added1] eqn:Hstep.
    apply add_tile_settles in Hstep as (Hk0 & Hmono & Hdom).
    intros Hfold. apply IH in Hfold as (Hreq & Hmono' & Hdom').
    split; [|split].
    + intros k Hk. apply elem_of_cons in Hk as [->|Hk]; auto.
    + auto.
    + intros k Hk. apply Hdom' in Hk as [Hk|Hk]; [|right; by right].
      apply Hdom in Hk as [Hk| ->]; [by left | right; by left].
Qed.

(** A pass over keys that are all settled changes nothing. *)
Lemma foldl_add_tile_settled s required c items added :
  (∀ k, k ∈ required → settled s c items k) →
  foldl (add_tile s) (c, items, added) required = (c, items, added).
Proof.
  induction required as [|k0 required IH]; intros Hall; [done|]. cbn [foldl].
  assert (add_tile s (c, items, added) k0 = (c, items, added)) as ->.
  { unfold add_tile. destruct (Hall k0) as [[pix Hs]|[Hmiss Hmake]]; [by left| |].
    - by rewrite Hs.
    - destruct (items !! k0); [done|]. by rewrite (get_miss _ _ Hmiss), Hmake. }
  apply IH. intros k Hk. apply Hall. by right.
Qed.

Lemma filter_nil_iff {A} (P : A → Prop) `{!∀ x, Decision (P x)} (l : list A) :
  (∀ x, x ∈ l → ¬ P x) → filter P l = [].
Proof.
  induction l as [|x l IH]; intros Hall; [done|].
  rewrite filter_cons_False by (apply Hall; by left).
  apply IH. intros y Hy. apply Hall. by right.
Qed.

Lemma visible_tile_range_with_tiles s c items m :
  visible_tile_range qt (with_tiles s c items) m = visible_tile_range qt s m.
Proof. reflexivity. Qed.

Lemma add_tile_with_tiles s c items :
  add_tile (with_tiles s c items) = add_tile s.
Proof. reflexivity. Qed.

(** C8. Running the visible-tile reconciliation a second time, with the
    viewport and the transform untouched in between, removes no tile and
    adds no tile: the second call returns the state it was given. *)
Theorem update_visible_tiles_idempotent s s1 removed added :
  update_visible_tiles qt s = Some (s1, (removed, added)) →
  update_visible_tiles qt s1 = Some (s1, ([], [])).
Proof.
  unfold update_visible_tiles at 1.
  destruct (orig_qimage s) as [img|] eqn:Himg; cycle 1.
  { intros [= <- <- <-]. unfold update_visible_tiles. by rewrite Himg. }
  destruct (pixel_mode s) eqn:Hpix; simpl; cycle 1.
  { intros [= <- <- <-]. unfold update_visible_tiles. by rewrite Himg, Hpix. }
  destruct (visible_tile_range qt s 1) as [rng|] eqn:Hrng; simpl; [|done].
  set (required := required_tiles rng).
  set (to_remove := filter (fun k => k ∉ required) (map_to_list (tile_items s)).*1).
  set (items1 := foldl (fun m k => delete k m) (tile_items s) to_remove).
  destruct (foldl (add_tile s) (tile_cache s, items1, []) required)
    as [[c items2] added'] eqn:Hfold.
  intros [= <- <- <-].
  apply foldl_add_tile_settles in Hfold as (Hreq & _ & Hdom).
  assert (∀ k, is_Some (items2 !! k) → k ∈ required) as Hsub.
  { intros k Hk. apply Hdom in Hk as [Hk|Hk]; [|done].
    subst items1. rewrite lookup_foldl_delete in Hk.
    destruct (decide (k ∈ to_remove)) as [|Hnin]; [by apply is_Some_None in Hk|].
    destruct (decide (k ∈ required)) as [|Hnreq]; [done|].
    exfalso. apply Hnin. subst to_remove. apply list_elem_of_filter. split; [done|].
    destruct Hk as [pix Hk]. apply list_elem_of_fmap. exists (k, pix).
    split; [done|]. by apply elem_of_map_to_list. }
  unfold update_visible_tiles.
  change (orig_qimage (with_tiles s c items2)) with (orig_qimage s).
  change (pixel_mode (with_tiles s c items2)) with (pixel_mode s).
  rewrite Himg, Hpix, visible_tile_range_with_tiles, Hrng. simpl.
  fold required.
  change (tile_items (with_tiles s c items2)) with items2.
  change (tile_cache (with_tiles s c items2)) with c.
  rewrite (filter_nil_iff (fun k => k ∉ required)); cycle 1.
  { intros k Hk Hnreq. apply Hnreq, Hsub.
    apply list_elem_of_fmap in Hk as ([k' pix] & -> & Hk).
    apply elem_of_map_to_list in Hk. simpl. eauto. }
  simpl. rewrite add_tile_with_tiles.
  rewrite (foldl_add_tile_settled s required c items2 []) by done.
  reflexivity.
Qed.

End TileFacts.


(* ================================================================== *)
(** * Rounding in binary64 *)
(* ================================================================== *)


(** * Rounding does not cross a power of two from above *)

Lemma digits2_pos_size (m : positive) : digits2_pos m = Pos.size m.
Proof. induction m; simpl; congruence. Qed.

Lemma digits2_pos_bounds (m : positive) :
  2 ^ (Zpos (digits2_pos m) - 1) ≤ Zpos m < 2 ^ Zpos (digits2_pos m).
Proof.
  rewrite digits2_pos_size. split.
  - pose proof (Pos.size_le m) as H.
    assert (2 ^ Zpos (Pos.size m) ≤ 2 * Zpos m) as H'.
    { rewrite <- Pos2Z.inj_pow. change (2 * Zpos m) with (Zpos m~0). lia. }
    replace (Zpos (Pos.size m)) with (Zpos (Pos.size m) - 1 + 1) in H' by lia.
    rewrite Z.pow_add_r in H' by lia. lia.
  - pose proof (Pos.size_gt m) as H. rewrite <- Pos2Z.inj_pow. lia.
Qed.

Lemma shr_1_m (mrs : shr_record) :
  0 ≤ shr_m mrs → shr_m (shr_1 mrs) = shr_m mrs / 2.
Proof.
  destruct mrs as [m r s]. simpl. intros Hm.
  destruct m as [|[p|p|]|p]; simpl; try lia; try done.
  - apply Z.div_unique with 1; lia.
  - apply Z.div_unique with 0; lia.
Qed.

Lemma pow2_xO (p : positive) : 2 ^ Zpos p~0 = 2 ^ Zpos p * 2 ^ Zpos p.
Proof.
  replace (Zpos p~0) with (Zpos p + Zpos p) by lia.
  apply Z.pow_add_r; lia.
Qed.

Lemma pow2_xI (p : positive) : 2 ^ Zpos p~1 = 2 * (2 ^ Zpos p * 2 ^ Zpos p).
Proof.
  replace (Zpos p~1) with (1 + (Zpos p + Zpos p)) by lia.
  rewrite Z.pow_add_r, Z.pow_add_r by lia. done.
Qed.

Lemma iter_pos_shr_m (p : positive) (mrs : shr_record) :
  0 ≤ shr_m mrs →
  shr_m (SpecFloat.iter_pos shr_1 p mrs) = shr_m mrs / 2 ^ Zpos p.
Proof.
  revert mrs. induction p as [p IH|p IH|]; intros mrs Hm; simpl.
  - assert (0 ≤ shr_m (shr_1 mrs)) as H1
      by (rewrite shr_1_m by done; apply Z.div_pos; lia).
    assert (0 ≤ shr_m (SpecFloat.iter_pos shr_1 p (shr_1 mrs))) as H2
      by (rewrite IH by done; apply Z.div_pos; lia).
    rewrite IH, IH, shr_1_m by done.
    rewrite !Z.div_div by lia. by rewrite pow2_xI.
  - assert (0 ≤ shr_m (SpecFloat.iter_pos shr_1 p mrs)) as H2
      by (rewrite IH by done; apply Z.div_pos; lia).
    rewrite IH, IH by done.
    rewrite !Z.div_div by lia. by rewrite pow2_xO.
  - rewrite shr_1_m by done. done.
Qed.

(** [shr] divides the mantissa by [2^n] and raises the exponent by [n]
    when [n] is positive, and does nothing otherwise. *)
Lemma shr_spec (mrs : shr_record) (e n : Z) :
  0 ≤ shr_m mrs →
  shr_m (fst (shr mrs e n)) = shr_m mrs / 2 ^ Z.max 0 n ∧
  snd (shr mrs e n) = e + Z.max 0 n ∧
  (n ≤ 0 → fst (shr mrs e n) = mrs).
Proof.
  intros Hm. destruct n as [|p|p]; simpl.
  - rewrite Z.div_1_r. split; [done|]. split; [lia|done].
  - rewrite iter_pos_shr_m by done. split; [done|]. split; lia.
  - rewrite Z.div_1_r. split; [done|]. split; [lia|done].
Qed.

Lemma round_nearest_even_bounds (m : Z) (l : location) :
  m ≤ round_nearest_even m l ≤ m + 1.
Proof.
  destruct l as [|[]]; simpl; try lia. destruct (Z.even m); lia.
Qed.

Lemma fexp_64 (e : Z) : fexp prec emax e = Z.max (e - 53) (-1074).
Proof. reflexivity. Qed.

Lemma pow2_le (a b : Z) : 0 ≤ a ≤ b → 2 ^ a ≤ 2 ^ b.
Proof. intros. apply Z.pow_le_mono_r; lia. Qed.

Lemma pow2_pos (a : Z) : 0 ≤ a → 0 < 2 ^ a.
Proof. intros. apply Z.pow_pos_nonneg; lia. Qed.

(** The digit count of a positive integer is determined by its bounds. *)
Lemma digits2_pos_unique (m : positive) (d : Z) :
  2 ^ (d - 1) ≤ Zpos m < 2 ^ d → 1 ≤ d → Zpos (digits2_pos m) = d.
Proof.
  intros [Hlo Hhi] Hd. pose proof (digits2_pos_bounds m) as [Hlo' Hhi'].
  set (d' := Zpos (digits2_pos m)) in *.
  assert (1 ≤ d') by (subst d'; lia).
  destruct (Z.lt_trichotomy d d') as [Hlt|[Heq|Hgt]]; [|done|].
  - pose proof (pow2_le d (d' - 1) ltac:(lia)). lia.
  - pose proof (pow2_le d' (d - 1) ltac:(lia)). lia.
Qed.

(** Division by a power of two keeps a value above a power of two. *)
Lemma div_pow2_ge (m a n : Z) :
  0 ≤ n ≤ a → 2 ^ a ≤ m → 2 ^ (a - n) ≤ m / 2 ^ n.
Proof.
  intros Hn Hm. apply Z.div_le_lower_bound; [by apply pow2_pos; lia|].
  rewrite <- Z.pow_add_r by lia. replace (n + (a - n)) with a by lia. done.
Qed.

Lemma div_pow2_lt (m a n : Z) :
  0 ≤ n ≤ a → m < 2 ^ a → m / 2 ^ n < 2 ^ (a - n).
Proof.
  intros Hn Hm. apply Z.div_lt_upper_bound; [by apply pow2_pos; lia|].
  rewrite <- Z.pow_add_r by lia. replace (n + (a - n)) with a by lia. done.
Qed.

(** The final step of [binary_round_aux] on a mantissa and exponent that
    are at or above [(2^52, k - 52)]. *)
Lemma finish_at_least (k m e : Z) :
  1 ≤ m → k - 52 ≤ e → (e = k - 52 → 2 ^ 52 ≤ m) → (e ≤ k → 2 ^ (k - e) ≤ m) →
  SF_at_least k
    match m with
    | Z0 => S754_zero false
    | Zpos p => if e <=? emax - prec then S754_finite false p e else S754_infinity false
    | Zneg _ => S754_nan
    end.
Proof.
  intros Hm He Hlex Hval. destruct m as [|p|p]; [lia| |lia].
  destruct (e <=? emax - prec); [|done]. split.
  - destruct (Z_le_gt_dec e k); [left|right]; split; auto; lia.
  - destruct (Z.eq_dec e (k - 52)); [right|left]; auto; lia.
Qed.

(** Rounding a positive value that is at least [2^k], a normal power of
    two, gives a float that is at least [2^k]. *)
Lemma binary_round_aux_at_least (k : Z) (M : positive) (E : Z) :
  -1074 ≤ k - 52 → at_least_pow2 k (Zpos M) E →
  SF_at_least k (binary_round_aux prec emax false (Zpos M) E loc_Exact).
Proof.
  intros Hk Hval.
  pose proof (digits2_pos_bounds M) as [Hdlo Hdhi].
  set (d := Zpos (digits2_pos M)) in *.
  assert (1 ≤ d) as Hd1 by (subst d; lia).
  (* the value is normal: its digits reach above 2^k *)
  assert (k < d + E) as Hkd.
  { destruct Hval as [[HE Hpow]|[HE Hone]]; [|lia].
    destruct (Z_lt_le_dec k (d + E)) as [|Hge]; [done|].
    pose proof (pow2_le d (k - E) ltac:(lia)). lia. }
  unfold binary_round_aux, shr_fexp. cbn [Zdigits2 shr_record_of_loc].
  fold d. rewrite fexp_64. rewrite Z.max_l by lia.
  set (n := d + E - 53 - E).
  pose proof (shr_spec (Build_shr_record (Zpos M) false false) E n ltac:(simpl; lia))
    as (Hm1 & He1 & Hsame).
  destruct (shr _ E n) as [mrs1 e1]. cbn [fst snd shr_m] in Hm1, He1, Hsame.
  destruct (Z_le_gt_dec n 0) as [Hn|Hn].
  - (* the mantissa fits: nothing is shifted, nothing is rounded *)
    rewrite (Hsame Hn). cbn [shr_m loc_of_shr_record round_nearest_even].
    rewrite Z.max_l in He1 by lia. replace e1 with E by lia.
    cbn [Zdigits2 shr_record_of_loc]. fold d. rewrite fexp_64, Z.max_l by lia.
    fold n.
    pose proof (shr_spec (Build_shr_record (Zpos M) false false) E n
                  ltac:(simpl; lia)) as (_ & He2 & Hsame2).
    destruct (shr _ E n) as [mrs2 e2]. cbn [fst snd] in He2, Hsame2.
    rewrite (Hsame2 Hn). rewrite Z.max_l in He2 by lia. replace e2 with E by lia.
    cbn [shr_m]. apply (finish_at_least k (Zpos M) E); [lia|lia| |].
    + intros ->. destruct Hval as [[_ Hpow]|[? _]]; [|lia].
      by replace (k - (k - 52)) with 52 in Hpow by lia.
    + intros HE. destruct Hval as [[_ Hpow]|[? _]]; [done|lia].
  - (* [n = d - 53] places are shifted out: the mantissa lands in
       [2^52, 2^53), and rounding may carry it to [2^53] *)
    rewrite Z.max_r in Hm1, He1 by lia.
    assert (2 ^ 52 ≤ shr_m mrs1 < 2 ^ 53) as Hrange.
    { rewrite Hm1. split.
      - pose proof (div_pow2_ge (Zpos M) (d - 1) n ltac:(lia) Hdlo) as H.
        by replace (d - 1 - n) with 52 in H by lia.
      - pose proof (div_pow2_lt (Zpos M) d n ltac:(lia) Hdhi) as H.
        by replace (d - n) with 53 in H by lia. }
    set (m1 := round_nearest_even (shr_m mrs1) (loc_of_shr_record mrs1)).
    pose proof (round_nearest_even_bounds (shr_m mrs1) (loc_of_shr_record mrs1))
      as Hround. fold m1 in Hround.
    destruct m1 as [|m1p|m1p] eqn:Hm1eq; [lia| |lia].
    cbn [Zdigits2 shr_record_of_loc]. rewrite fexp_64.
    assert (e1 = d + E - 53) as He1' by lia.
    destruct (Z_lt_le_dec (Zpos m1p) (2 ^ 53)) as [Hlt|Hcarry].
    + rewrite (digits2_pos_unique m1p 53) by (change (53 - 1) with 52; lia).
      set (n2 := Z.max (53 + e1 - 53) (-1074) - e1).
      pose proof (shr_spec (Build_shr_record (Zpos m1p) false false) e1 n2
                    ltac:(simpl; lia)) as (_ & He2 & Hsame2).
      destruct (shr _ e1 n2) as [mrs2 e2]. cbn [fst snd] in He2, Hsame2.
      rewrite (Hsame2 ltac:(lia)). replace e2 with e1 by lia. cbn [shr_m].
      apply (finish_at_least k (Zpos m1p) e1); [lia|lia|lia|].
      intros He. pose proof (pow2_le (k - e1) 52 ltac:(lia)). lia.
    + assert (Zpos m1p = 2 ^ 53) as Hm1p by lia.
      rewrite (digits2_pos_unique m1p 54)
        by (change (54 - 1) with 53; change (2 ^ 54) with (2 * 2 ^ 53); lia).
      set (n2 := Z.max (54 + e1 - 53) (-1074) - e1).
      pose proof (shr_spec (Build_shr_record (Zpos m1p) false false) e1 n2
                    ltac:(simpl; lia)) as (Hm2 & He2 & _).
      destruct (shr _ e1 n2) as [mrs2 e2]. cbn [fst snd shr_m] in Hm2, He2.
      assert (n2 = 1) as Hn2 by lia. rewrite Hn2 in Hm2, He2.
      rewrite Hm1p in Hm2. change (2 ^ 53 / 2 ^ Z.max 0 1) with (2 ^ 52) in Hm2.
      rewrite Hm2. replace e2 with (e1 + 1) by lia.
      apply (finish_at_least k (2 ^ 52) (e1 + 1)); [lia|lia|lia|].
      intros He. pose proof (pow2_le (k - (e1 + 1)) 52 ltac:(lia)). lia.
Qed.

Lemma binary_round_aux_nonneg (M : positive) (E : Z) :
  SF_nonneg (binary_round_aux prec emax false (Zpos M) E loc_Exact).
Proof.
  unfold binary_round_aux, shr_fexp. cbn [shr_record_of_loc].
  match goal with |- context [shr ?r E ?n] =>
    pose proof (shr_spec r E n ltac:(simpl; lia)) as (Hm1 & _ & _);
    destruct (shr r E n) as [mrs1 e1] end.
  cbn [fst shr_m] in Hm1.
  assert (0 ≤ shr_m mrs1) as Hpos1 by (rewrite Hm1; apply Z.div_pos; lia).
  pose proof (round_nearest_even_bounds (shr_m mrs1) (loc_of_shr_record mrs1))
    as Hround.
  set (m1 := round_nearest_even _ _) in *.
  match goal with |- context [shr ?r e1 ?n] =>
    pose proof (shr_spec r e1 n) as Hspec;
    destruct (shr r e1 n) as [mrs2 e2] end.
  destruct m1 as [|m1p|m1p]; [| |lia];
    cbn [shr_record_of_loc shr_m fst] in Hspec;
    destruct Hspec as (Hm2 & _ & _); [lia| |lia|].
  - rewrite Hm2. rewrite Z.div_0_l by lia. done.
  - assert (0 ≤ shr_m mrs2) as Hpos2 by (rewrite Hm2; apply Z.div_pos; lia).
    destruct (shr_m mrs2); [done| |lia]. by destruct (_ <=? _).
Qed.

(** [shl_align] lowers the exponent to the smaller of the two, keeping
    the value. *)
Lemma shl_align_spec (mx : positive) (ex ex' : Z) :
  snd (shl_align mx ex ex') = Z.min ex ex' ∧
  Zpos (fst (shl_align mx ex ex')) = Zpos mx * 2 ^ (ex - Z.min ex ex').
Proof.
  unfold shl_align. destruct (ex' - ex) as [|p|p] eqn:Hd; cbn [fst snd].
  - rewrite Z.min_l by lia. rewrite Z.sub_diag, Z.pow_0_r. lia.
  - rewrite Z.min_l by lia. rewrite Z.sub_diag, Z.pow_0_r. lia.
  - rewrite Z.min_r by lia. split; [done|].
    change (Pos.iter xO mx p) with (shift_pos p mx).
    rewrite shift_pos_correct. replace (ex - ex') with (Zpos p) by lia.
    change (Zpower_pos 2 p) with (2 ^ Zpos p). lia.
Qed.

Lemma at_least_pow2_shl_align (k : Z) (mx : positive) (ex ex' : Z) :
  at_least_pow2 k (Zpos mx) ex →
  at_least_pow2 k (Zpos (fst (shl_align mx ex ex'))) (snd (shl_align mx ex ex')).
Proof.
  intros Hval. destruct (shl_align_spec mx ex ex') as [-> ->].
  set (ez := Z.min ex ex'). assert (ez ≤ ex) by (subst ez; lia).
  pose proof (pow2_pos (ex - ez) ltac:(lia)).
  destruct (Z_le_gt_dec ez k) as [Hez|Hez].
  - left. split; [done|].
    destruct Hval as [[HE Hpow]|[HE Hone]].
    + replace (k - ez) with (k - ex + (ex - ez)) by lia.
      rewrite Z.pow_add_r by lia. nia.
    + pose proof (pow2_le (k - ez) (ex - ez) ltac:(lia)). nia.
  - right. split; [lia|]. nia.
Qed.

Lemma binary_round_at_least (k : Z) (M : positive) (E : Z) :
  -1074 ≤ k - 52 → at_least_pow2 k (Zpos M) E →
  SF_at_least k (binary_round prec emax false M E).
Proof.
  intros Hk Hval. unfold binary_round.
  pose proof (at_least_pow2_shl_align k M E
                (fexp prec emax (Zpos (digits2_pos M) + E)) Hval) as Hal.
  destruct (shl_align _ _ _) as [mz ez]. by apply binary_round_aux_at_least.
Qed.

Lemma binary_round_nonneg (M : positive) (E : Z) :
  SF_nonneg (binary_round prec emax false M E).
Proof.
  unfold binary_round. destruct (shl_align _ _ _). apply binary_round_aux_nonneg.
Qed.

(** ** The operations of the zoom factor. *)

Lemma of_uint63_nonneg (n : PrimInt63.int) : SF_nonneg (Prim2SF (of_uint63 n)).
Proof.
  rewrite of_uint63_spec. pose proof (Uint63.to_Z_bounded n) as [Hn _].
  destruct (Uint63.to_Z n) as [|p|p]; [done| |lia]. apply binary_round_nonneg.
Qed.

Lemma SFmul_nonneg (x y : spec_float) :
  (∃ m e, x = S754_finite false m e) → SF_nonneg y → SF_nonneg (SF64mul x y).
Proof.
  intros (m & e & ->) Hy. destruct y as [[]|[]| |[] my ey]; try done.
  apply binary_round_aux_nonneg.
Qed.

Lemma SFadd_one_at_least (p : spec_float) :
  SF_nonneg p →
  SF_at_least 0 (SF64add (S754_finite false 4503599627370496 (-52)) p).
Proof.
  intros Hp. destruct p as [[]|[]| |[] mp ep]; try done.
  - (* p = +0: the sum is 1 *)
    simpl. split; [left|right]; split; try done; lia.
  - unfold SF64add, SFadd. cbn [cond_Zopp].
    set (ez := Z.min (-52) ep).
    destruct (shl_align_spec 4503599627370496 (-52) ez) as [_ Ha].
    rewrite Z.min_r in Ha by (subst ez; lia).
    set (a := fst (shl_align 4503599627370496 (-52) ez)) in *.
    set (b := fst (shl_align mp ep ez)).
    change (Zpos a + Zpos b) with (Zpos (a + b)). cbn [binary_normalize].
    apply binary_round_at_least; [lia|]. left. split; [subst ez; lia|].
    rewrite Pos2Z.inj_add, Ha. change 4503599627370496 with (2 ^ 52).
    rewrite <- Z.pow_add_r by (subst ez; lia).
    replace (52 + (-52 - ez)) with (0 - ez) by lia. lia.
Qed.

Lemma SFmul_64_at_least (q : spec_float) :
  SF_at_least 0 q →
  SF_at_least 6 (SF64mul (S754_finite false 4503599627370496 (-46)) q).
Proof.
  intros Hq. destruct q as [[]|[]| |[] m e]; try done.
  destruct Hq as [Hval _]. unfold SF64mul, SFmul. cbn [xorb].
  apply binary_round_aux_at_least; [lia|].
  rewrite Pos2Z.inj_mul. change (Zpos 4503599627370496) with (2 ^ 52).
  destruct (Z_le_gt_dec (-46 + e) 6) as [He|He]; [left|right]; (split; [lia|]).
  - replace (6 - (-46 + e)) with (52 - e) by lia.
    destruct Hval as [[He0 Hpow]|[He0 Hone]].
    + replace (52 - e) with (52 + (0 - e)) by lia. rewrite Z.pow_add_r by lia. nia.
    + pose proof (pow2_le (52 - e) 52 ltac:(lia)). nia.
  - destruct Hval as [[He0 _]|[_ Hone]]; [lia|].
    pose proof (pow2_pos 52 ltac:(lia)). nia.
Qed.

Lemma Prim2SF_64 : Prim2SF 64 = S754_finite false 4503599627370496 (-46).
Proof. vm_compute. reflexivity. Qed.
Lemma Prim2SF_1 : Prim2SF 1 = S754_finite false 4503599627370496 (-52).
Proof. vm_compute. reflexivity. Qed.
Lemma Prim2SF_0_0015 : ∃ m e, Prim2SF 0.0015 = S754_finite false m e.
Proof. vm_compute. eauto. Qed.

Lemma zoom_in_target_at_least (delta : Z) :
  0 < delta → SF_at_least 6 (Prim2SF (64 * zoom_factor delta)%float).
Proof.
  intros Hdelta. unfold zoom_factor.
  rewrite mul_spec, add_spec, mul_spec, Prim2SF_64, Prim2SF_1.
  apply SFmul_64_at_least, SFadd_one_at_least, SFmul_nonneg.
  - exact Prim2SF_0_0015.
  - destruct delta as [|p|p]; [lia| |lia]. apply of_uint63_nonneg.
Qed.

Lemma ltb_64_64 : (64 <? 64)%float = false.
Proof. vm_compute. reflexivity. Qed.
Lemma max_min_scale_64 : Py.max MIN_SCALE 64 = 64%float.
Proof. vm_compute. reflexivity. Qed.

Lemma clamp_at_pixel_scale (delta : Z) :
  0 < delta → clamp_scale (64 * zoom_factor delta)%float = 64%float.
Proof.
  intros Hdelta. pose proof (zoom_in_target_at_least delta Hdelta) as Ht.
  set (t := (64 * zoom_factor delta)%float) in *.
  assert ((64 <? t)%float = true ∨ t = 64%float) as [Hlt| ->].
  { rewrite ltb_spec, Prim2SF_64.
    destruct (Prim2SF t) as [[]|[]| |[] m e] eqn:Hsf; try done; [by left|].
    destruct Ht as [_ [He|[-> Hm]]].
    - left. unfold SFltb, SFcompare.
      by replace (-46 ?= e) with Lt by (symmetry; apply Z.compare_lt_iff; lia).
    - replace (6 - 52) with (-46) in * by lia. unfold SFltb, SFcompare.
      rewrite Z.compare_refl.
      destruct (Pos.compare_spec 4503599627370496 m) as [Heq|Hlt|Hgt].
      + right. apply Prim2SF_inj. rewrite Hsf, <- Heq. symmetry. exact Prim2SF_64.
      + left.
        unfold Pos.lt, Pos.compare in Hlt. by rewrite Hlt.
      + exfalso. apply (Z.lt_irrefl (2 ^ 52)).
        apply Z.le_lt_trans with (Zpos m); [exact Hm|exact Hgt]. }
  - unfold clamp_scale, Py.min. unfold max_scale. rewrite Hlt.
    exact max_min_scale_64.
  - unfold clamp_scale, Py.min. unfold max_scale. rewrite ltb_64_64.
    exact max_min_scale_64.
Qed.

(* ================================================================== *)
(** * The matrix operations, fitting and queued fits *)
(* ================================================================== *)

Lemma m11_translate (t : QTransform) (dx dy : float) :
  m11 (QTransform_.translate t dx dy) = m11 t.
Proof.
  unfold QTransform_.translate. destruct (_ && _); [done|].
  by destruct (QTransform_.type t).
Qed.

Lemma m22_translate (t : QTransform) (dx dy : float) :
  m22 (QTransform_.translate t dx dy) = m22 t.
Proof.
  unfold QTransform_.translate. destruct (_ && _); [done|].
  by destruct (QTransform_.type t).
Qed.

(** What [scale(f, f)] leaves in [m11]: untouched on [f = 1], assigned
    on a matrix within [1e-12] of the identity scale, multiplied
    otherwise. *)
Lemma m11_scale (t : QTransform) (f : float) :
  m11 (QTransform_.scale t f f) =
    if (f =? 1)%float then m11 t
    else match QTransform_.type t with
         | QTransform_.TxScale => (m11 t * f)%float
         | _ => f
         end.
Proof.
  unfold QTransform_.scale. destruct (f =? 1)%float; [done|].
  by destruct (QTransform_.type t).
Qed.

Lemma eqb_one_eq (x : float) : (x =? 1)%float = true → x = 1%float.
Proof.
  rewrite FloatAxioms.eqb_spec, Prim2SF_1. intros H.
  apply Prim2SF_inj. rewrite Prim2SF_1.
  unfold SFeqb, SFcompare in H.
  destruct (Prim2SF x) as [s|s| |s m e]; try done; destruct s; try done.
  destruct (e ?= -52) eqn:He; try done. apply Z.compare_eq in He. subst e.
  destruct (Pos.compare_cont Eq m 4503599627370496) eqn:Hm; try done.
  apply Pos.compare_eq in Hm. by subst m.
Qed.

Lemma type_identity : QTransform_.type QTransform_.identity = QTransform_.TxNone.
Proof. vm_compute. reflexivity. Qed.

(** [t = QTransform(); t.scale(target, target)] has [m11 = m22 = target]. *)
Lemma scale_identity (target : float) :
  QTransform_.scale QTransform_.identity target target
  = mkQTransform target target 0 0.
Proof.
  unfold QTransform_.scale. destruct (target =? 1)%float eqn:H.
  - cbn [andb]. apply eqb_one_eq in H. by subst target.
  - cbn [andb]. by rewrite type_identity.
Qed.

Lemma pixel_transform_exact : pixel_transform = mkQTransform 64 64 0 0.
Proof. vm_compute. reflexivity. Qed.

Lemma compute_long_side_scale_ext (s s' : View) :
  item_pixmap <$> pixmap_item s' = item_pixmap <$> pixmap_item s →
  viewport s' = viewport s →
  compute_long_side_scale s' = compute_long_side_scale s.
Proof.
  intros Hit Hvp. unfold compute_long_side_scale. rewrite Hvp.
  destruct (pixmap_item s') as [it'|], (pixmap_item s) as [it|]; try done.
  injection Hit as ->. done.
Qed.

Lemma with_pending_fit_same (s : View) : with_pending_fit s (pending_fit s) = s.
Proof. by destruct s. Qed.

Lemma same_frame_refl (s : View) : same_frame s s.
Proof. by repeat split. Qed.

Lemma same_frame_trans (s1 s2 s3 : View) :
  same_frame s1 s2 → same_frame s2 s3 → same_frame s1 s3.
Proof.
  intros (?&?&?&?&?&?&?&?&?&?) (?&?&?&?&?&?&?&?&?&?).
  repeat split; congruence.
Qed.

Section FitFrame.
Variable qt : QtGeometry.
Implicit Types (s : View) (ref : option QPoint) (cursor : QPoint).

(** [fit_long_side] touches the matrix, the scroll position, the tile
    timer and the auto-fit flag only. *)
Lemma fit_long_side_frame s ref cursor :
  same_frame s (fit_long_side qt s ref cursor) ∧
  pending_fit (fit_long_side qt s ref cursor) = pending_fit s.
Proof.
  unfold fit_long_side. destruct (pixmap_item s) eqn:Hit; [|by repeat split].
  repeat split; cbn; by rewrite ?Hit.
Qed.

Lemma fit_long_side_fields s ref cursor :
  let s' := fit_long_side qt s ref cursor in
  pixel_mode s' = pixel_mode s ∧ orig_qimage s' = orig_qimage s ∧
  is_grayscale s' = is_grayscale s ∧ pixmap_item s' = pixmap_item s ∧
  saved_transform s' = saved_transform s ∧
  tile_cache s' = tile_cache s ∧ tile_items s' = tile_items s.
Proof.
  cbv zeta. destruct (fit_long_side_frame s ref cursor)
    as ((?&?&?&?&?&?&?&?&?&?) & _). done.
Qed.

Lemma fit_long_side_transform s ref cursor :
  is_Some (pixmap_item s) →
  m11 (transform (fit_long_side qt s ref cursor)) = compute_long_side_scale s ∧
  m22 (transform (fit_long_side qt s ref cursor)) = compute_long_side_scale s ∧
  auto_fit_mode (fit_long_side qt s ref cursor) = true.
Proof.
  intros [it Hit]. unfold fit_long_side. rewrite Hit. cbv zeta.
  rewrite scale_identity.
  unfold with_auto_fit, view_translate.
  cbn [transform auto_fit_mode with_zoom_flags setTransform with_scroll
       with_transform].
  by rewrite m11_translate, m22_translate.
Qed.

Lemma fit_long_side_compute s ref cursor :
  compute_long_side_scale (fit_long_side qt s ref cursor) = compute_long_side_scale s.
Proof.
  destruct (fit_long_side_frame s ref cursor) as ((_&_&_&Hit&_&_&_&_&Hvp&_) & _).
  apply compute_long_side_scale_ext; [by rewrite Hit|done].
Qed.

(** ** Queued fits *)

Lemma deliver_fits_frame (n : nat) s cursor :
  let s' := deliver_fits qt n s cursor in
  same_frame s s' ∧ pending_fit s' = pending_fit s ∧
  compute_long_side_scale s' = compute_long_side_scale s.
Proof.
  cbv zeta. revert s. induction n as [|n IH]; intros s; cbn [deliver_fits].
  - split; [apply same_frame_refl|done].
  - destruct (IH (fit_long_side qt s None cursor)) as (Hfr & Hp & Hc).
    destruct (fit_long_side_frame s None cursor) as [Hfr1 Hp1].
    split; [eapply same_frame_trans; [exact Hfr1|exact Hfr]|].
    split; [congruence|]. by rewrite Hc, fit_long_side_compute.
Qed.

(** [processEvents] empties the queue and otherwise acts as fits do. *)
Lemma processEvents_frame s cursor :
  same_frame s (processEvents qt s cursor) ∧
  pending_fit (processEvents qt s cursor) = 0%nat ∧
  compute_long_side_scale (processEvents qt s cursor) = compute_long_side_scale s.
Proof.
  unfold processEvents.
  destruct (deliver_fits_frame (pending_fit s) (with_pending_fit s 0) cursor)
    as (Hfr & Hp & Hc).
  split; [|split; [exact Hp|exact Hc]].
  eapply same_frame_trans; [|exact Hfr]. by repeat split.
Qed.

(** With nothing queued it does nothing. *)
Lemma processEvents_idle s cursor :
  pending_fit s = 0%nat → processEvents qt s cursor = s.
Proof.
  intros H0. unfold processEvents. rewrite H0. cbn [deliver_fits].
  rewrite <- H0. apply with_pending_fit_same.
Qed.

Lemma deliver_fits_fits (n : nat) s cursor :
  (0 < n)%nat → is_Some (pixmap_item s) →
  m11 (transform (deliver_fits qt n s cursor)) = compute_long_side_scale s ∧
  m22 (transform (deliver_fits qt n s cursor)) = compute_long_side_scale s ∧
  auto_fit_mode (deliver_fits qt n s cursor) = true.
Proof.
  revert s. induction n as [|n IH]; intros s Hpos Hit; [lia|].
  cbn [deliver_fits].
  destruct (fit_long_side_frame s None cursor) as ((_&_&_&Hit1&_) & _).
  destruct n as [|n].
  - cbn [deliver_fits]. by apply fit_long_side_transform.
  - destruct (IH (fit_long_side qt s None cursor) ltac:(lia) ltac:(by rewrite Hit1))
      as (H11 & H22 & Hauto).
    by rewrite H11, H22, fit_long_side_compute.
Qed.

(** With a fit queued and an image shown, it leaves the fit scale and
    auto-fit on. *)
Lemma processEvents_fits s cursor :
  (0 < pending_fit s)%nat → is_Some (pixmap_item s) →
  m11 (transform (processEvents qt s cursor)) = compute_long_side_scale s ∧
  m22 (transform (processEvents qt s cursor)) = compute_long_side_scale s ∧
  auto_fit_mode (processEvents qt s cursor) = true.
Proof.
  intros Hpos Hit. unfold processEvents.
  destruct (deliver_fits_fits (pending_fit s) (with_pending_fit s 0) cursor Hpos Hit)
    as (H11 & H22 & Hauto).
  split; [exact H11|]. split; [exact H22|exact Hauto].
Qed.

End FitFrame.


(* ================================================================== *)
(** * Mode transitions, wheel handling, probe and loading *)
(* ================================================================== *)


(** * Order facts on binary64 *)

Lemma SFcompare_antisym x y c :
  SFcompare x y = Some c → SFcompare y x = Some (CompOpp c).
Proof.
  destruct x as [sx|sx| |sx mx ex], y as [sy|sy| |sy my ey]; simpl;
    try discriminate;
    try (intros [= <-]; by repeat match goal with b : bool |- _ => destruct b end).
  intros [= <-]. f_equal.
  destruct sx, sy; simpl; try done.
  - rewrite (Z.compare_antisym ey ex).
    destruct (ey ?= ex) eqn:He; simpl; try done.
    rewrite (Pos.compare_cont_antisym mx my Eq). done.
  - rewrite (Z.compare_antisym ey ex).
    destruct (ey ?= ex) eqn:He; simpl; try done.
    rewrite (Pos.compare_cont_antisym mx my Eq). simpl.
    by destruct (Pos.compare_cont Eq mx my).
Qed.

Lemma SFcompare_total x y :
  x ≠ S754_nan → y ≠ S754_nan → is_Some (SFcompare x y).
Proof. destruct x, y; simpl; intros; try done; eauto. Qed.

Lemma ltb_leb (x y : float) : (x <? y)%float = true → (x <=? y)%float = true.
Proof.
  rewrite ltb_spec, leb_spec. unfold SFltb, SFleb.
  by destruct (SFcompare _ _) as [[]|].
Qed.

(** [b < t] is false although [t] is comparable (it exceeds [a]): then
    [t <= b]. *)
Lemma not_ltb_leb (a b t : float) :
  (a <? t)%float = true → (b <=? b)%float = true → (b <? t)%float = false →
  (t <=? b)%float = true.
Proof.
  rewrite !ltb_spec, !leb_spec. unfold SFltb, SFleb.
  intros Ha Hb Hlt.
  assert (Prim2SF t ≠ S754_nan) as Ht.
  { intros Heq. rewrite Heq in Ha. by destruct (Prim2SF a). }
  assert (Prim2SF b ≠ S754_nan) as Hb'.
  { intros Heq. by rewrite Heq in Hb. }
  destruct (SFcompare_total _ _ Hb' Ht) as [c Hc].
  rewrite Hc in Hlt. rewrite (SFcompare_antisym _ _ _ Hc).
  by destruct c.
Qed.

(** The clamp always lands in [[MIN_SCALE, max_scale]], NaN included. *)
Lemma clamp_scale_range (t : float) :
  (MIN_SCALE <=? clamp_scale t)%float = true ∧
  (clamp_scale t <=? max_scale)%float = true.
Proof.
  unfold clamp_scale, Py.max, Py.min.
  destruct (max_scale <? t)%float eqn:Hhi.
  - by vm_compute.
  - destruct (MIN_SCALE <? t)%float eqn:Hlo.
    + split; [by apply ltb_leb|].
      by apply (not_ltb_leb MIN_SCALE).
    + by vm_compute.
Qed.

Section ViewFacts.
Variable qt : QtGeometry.
Implicit Types (s : View) (ref : option QPoint) (cursor : QPoint).

(** The reconciliation only rewrites the cache and the materialized set. *)
Lemma update_visible_tiles_frame s s1 d :
  update_visible_tiles qt s = Some (s1, d) →
  ∃ c items, s1 = with_tiles s c items.
Proof.
  unfold update_visible_tiles.
  assert (s = with_tiles s (tile_cache s) (tile_items s)) as Hs by by destruct s.
  destruct (orig_qimage s); [|intros [= <- <-]; eauto].
  destruct (pixel_mode s); simpl; [|intros [= <- <-]; eauto].
  destruct (visible_tile_range qt s 1); simpl; [|done].
  destruct (foldl _ _ _) as [[c items] added].
  intros [= <- <-]. eauto.
Qed.

(** Entering from Normal mode with an image: the tiles are generated in
    the prepared state, queued events run, the pixmap is hidden, queued
    events run again, and the scroll bars are connected. *)
Lemma enter_pixel_mode_from_normal s ref cursor :
  is_Some (orig_qimage s) → pixel_mode s = false →
  enter_pixel_mode qt s ref cursor =
    r ← update_visible_tiles qt (enter_prepare qt s ref);
    Some (with_scroll_connected
            (processEvents qt
               (with_pixmap_visible (processEvents qt r.1 cursor) false) cursor)
            true).
Proof.
  intros [img Himg] Hpix. unfold enter_pixel_mode. by rewrite Himg, Hpix.
Qed.

(** What the prepared state holds. *)
Lemma enter_prepare_fields s ref :
  let s0 := enter_prepare qt s ref in
  pixel_mode s0 = true ∧ transform s0 = mkQTransform 64 64 0 0 ∧
  saved_transform s0 = Some (transform s) ∧
  saved_scale s0 = Some (current_scale s) ∧
  orig_qimage s0 = orig_qimage s ∧ is_grayscale s0 = is_grayscale s ∧
  pixmap_item s0 = pixmap_item s ∧ viewport s0 = viewport s ∧
  auto_fit_mode s0 = auto_fit_mode s ∧ pending_fit s0 = pending_fit s ∧
  tile_cache s0 = tile_cache s ∧ tile_items s0 = tile_items s.
Proof.
  cbv zeta. split; [reflexivity|]. split; [exact pixel_transform_exact|].
  repeat split.
Qed.

(** What [enter_pixel_mode] leaves, whatever was queued. *)
Lemma enter_pixel_mode_state s ref cursor s1 :
  is_Some (orig_qimage s) → pixel_mode s = false →
  enter_pixel_mode qt s ref cursor = Some s1 →
  ∃ s0 d, update_visible_tiles qt (enter_prepare qt s ref) = Some (s0, d) ∧
    pixel_mode s1 = true ∧
    saved_transform s1 = Some (transform s) ∧
    saved_scale s1 = Some (current_scale s) ∧
    orig_qimage s1 = orig_qimage s ∧ is_grayscale s1 = is_grayscale s ∧
    pixmap_item s1 = (λ it, mkPixmapItem (item_pixmap it) false) <$> pixmap_item s ∧
    tile_cache s1 = tile_cache s0 ∧ tile_items s1 = tile_items s0 ∧
    pending_fit s1 = 0%nat.
Proof.
  intros Himg Hpix Henter.
  rewrite enter_pixel_mode_from_normal in Henter by done.
  destruct (update_visible_tiles qt (enter_prepare qt s ref)) as [[s0 d]|] eqn:Hup;
    [|done].
  exists s0, d. split; [done|].
  apply update_visible_tiles_frame in Hup as (c & items & Hs0).
  destruct (enter_prepare_fields s ref)
    as (Hp0 & _ & Hst0 & Hss0 & Hi0 & Hg0 & Hit0 & _).
  assert (pixel_mode s0 = true ∧ saved_transform s0 = Some (transform s) ∧
          saved_scale s0 = Some (current_scale s) ∧
          orig_qimage s0 = orig_qimage s ∧ is_grayscale s0 = is_grayscale s ∧
          pixmap_item s0 = pixmap_item s) as (Hp & Hst & Hss & Hi & Hg & Hit).
  { by subst s0. }
  clear Hs0 Hp0 Hst0 Hss0 Hi0 Hg0 Hit0 c items.
  cbn [mbind option_bind fst] in Henter. injection Henter as <-.
  destruct (processEvents_frame qt s0 cursor)
    as ((Hp5&Hi5&Hg5&Hit5&Hst5&Hss5&Hc5&Hti5&_) & _).
  set (s5 := processEvents qt s0 cursor) in *. clearbody s5.
  destruct (processEvents_frame qt (with_pixmap_visible s5 false) cursor)
    as ((Hp7&Hi7&Hg7&Hit7&Hst7&Hss7&Hc7&Hti7&_) & Hpend7 & _).
  set (s7 := processEvents qt (with_pixmap_visible s5 false) cursor) in *.
  clearbody s7.
  cbn [pixel_mode saved_transform saved_scale orig_qimage is_grayscale pixmap_item
       tile_cache tile_items pending_fit with_scroll_connected
       with_pixmap_visible] in *.
  split; [congruence|]. split; [congruence|]. split; [congruence|].
  split; [congruence|]. split; [congruence|].
  split; [by rewrite Hit7, Hit5, Hit|].
  split; [congruence|]. split; [congruence|done].
Qed.

(** With nothing queued, the matrix is the exact [PIXEL_CELL] scale. *)
Lemma enter_pixel_mode_snaps s ref cursor s1 :
  is_Some (orig_qimage s) → pixel_mode s = false → pending_fit s = 0%nat →
  enter_pixel_mode qt s ref cursor = Some s1 →
  transform s1 = mkQTransform 64 64 0 0 ∧ auto_fit_mode s1 = auto_fit_mode s.
Proof.
  intros Himg Hpix Hpend Henter.
  rewrite enter_pixel_mode_from_normal in Henter by done.
  destruct (update_visible_tiles qt (enter_prepare qt s ref)) as [[s0 d]|] eqn:Hup;
    [|done].
  apply update_visible_tiles_frame in Hup as (c & items & Hs0).
  destruct (enter_prepare_fields s ref)
    as (_ & Ht0 & _ & _ & _ & _ & _ & _ & Ha0 & Hpe0 & _).
  assert (transform s0 = mkQTransform 64 64 0 0 ∧
          auto_fit_mode s0 = auto_fit_mode s ∧ pending_fit s0 = 0%nat)
    as (Ht & Ha & Hpe).
  { subst s0. cbn [transform auto_fit_mode pending_fit with_tiles]. by rewrite Hpe0. }
  clear Hs0 Ht0 Ha0 Hpe0 c items.
  cbn [mbind option_bind fst] in Henter. injection Henter as <-.
  rewrite (processEvents_idle qt s0 cursor Hpe).
  rewrite (processEvents_idle qt (with_pixmap_visible s0 false) cursor Hpe).
  done.
Qed.

(** With a fit queued, the first [processEvents()] runs it after the
    matrix was snapped: the view ends at the fit scale, auto-fit on. *)
Lemma enter_pixel_mode_refits s ref cursor s1 :
  is_Some (orig_qimage s) → pixel_mode s = false →
  (0 < pending_fit s)%nat → is_Some (pixmap_item s) →
  enter_pixel_mode qt s ref cursor = Some s1 →
  m11 (transform s1) = compute_long_side_scale s ∧
  m22 (transform s1) = compute_long_side_scale s ∧
  auto_fit_mode s1 = true.
Proof.
  intros Himg Hpix Hpend Hitem Henter.
  rewrite enter_pixel_mode_from_normal in Henter by done.
  destruct (update_visible_tiles qt (enter_prepare qt s ref)) as [[s0 d]|] eqn:Hup;
    [|done].
  apply update_visible_tiles_frame in Hup as (c & items & Hs0).
  destruct (enter_prepare_fields s ref)
    as (_ & _ & _ & _ & _ & _ & Hit0 & Hvp0 & _ & Hpe0 & _).
  assert (pixmap_item s0 = pixmap_item s ∧ viewport s0 = viewport s ∧
          pending_fit s0 = pending_fit s) as (Hit & Hvp & Hpe).
  { by subst s0. }
  clear Hs0 Hit0 Hvp0 Hpe0 c items.
  cbn [mbind option_bind fst] in Henter. injection Henter as <-.
  destruct (processEvents_fits qt s0 cursor) as (H11 & H22 & Hauto);
    [by rewrite Hpe|by rewrite Hit|].
  destruct (processEvents_frame qt s0 cursor) as (_ & Hpend5 & _).
  assert (compute_long_side_scale s0 = compute_long_side_scale s) as Hc.
  { apply compute_long_side_scale_ext; [by rewrite Hit|done]. }
  set (s5 := processEvents qt s0 cursor) in *. clearbody s5.
  rewrite (processEvents_idle qt (with_pixmap_visible s5 false) cursor Hpend5).
  cbn [transform auto_fit_mode with_scroll_connected with_pixmap_visible].
  by rewrite H11, H22, Hc.
Qed.

Lemma update_visible_tiles_returns s :
  tiles_computable qt s → is_Some (update_visible_tiles qt s).
Proof.
  intros [rng Hrng]. unfold update_visible_tiles.
  destruct (orig_qimage s); [|eauto].
  destruct (pixel_mode s); [|eauto].
  rewrite Hrng. cbn [negb mbind option_bind].
  destruct (foldl _ _ _) as [[c items] added]. eauto.
Qed.

Lemma enter_pixel_mode_returns s ref cursor :
  is_Some (orig_qimage s) → pixel_mode s = false →
  tiles_computable qt (enter_prepare qt s ref) →
  is_Some (enter_pixel_mode qt s ref cursor).
Proof.
  intros Himg Hpix Hrng. rewrite enter_pixel_mode_from_normal by done.
  destruct (update_visible_tiles_returns _ Hrng) as [r ->]. by eexists.
Qed.

Lemma exit_pixel_mode_state s ref cursor :
  pixel_mode s = true → is_Some (orig_qimage s) →
  let s' := exit_pixel_mode qt s ref cursor in
  pixel_mode s' = false ∧ tile_items s' = ∅ ∧
  transform s' = default QTransform_.identity (saved_transform s) ∧
  tile_cache s' = tile_cache s ∧ orig_qimage s' = orig_qimage s ∧
  is_grayscale s' = is_grayscale s ∧ saved_transform s' = saved_transform s ∧
  viewport s' = viewport s ∧ scroll_connected s' = false ∧
  pixmap_item s' = (λ it, mkPixmapItem (item_pixmap it) true) <$> pixmap_item s.
Proof.
  intros Hpix [img Himg]. unfold exit_pixel_mode. rewrite Hpix, Himg.
  cbn [negb]. cbv zeta.
  set (s2 := with_tiles _ _ ∅).
  assert (tile_items s2 = ∅ ∧ saved_transform s2 = saved_transform s ∧
          tile_cache s2 = tile_cache s ∧ orig_qimage s2 = orig_qimage s ∧
          is_grayscale s2 = is_grayscale s ∧ viewport s2 = viewport s ∧
          scroll_connected s2 = false ∧ pixmap_item s2 = pixmap_item s)
    as (Hti & Hst & Hc & Hi & Hg & Hvp & Hsc & Hit) by done.
  clearbody s2.
  destruct (processEvents_frame qt s2 cursor)
    as ((_&Hi3&Hg3&Hit3&Hst3&_&Hc3&Hti3&Hvp3&Hsc3) & _).
  set (s3 := processEvents qt s2 cursor) in *. clearbody s3.
  destruct (saved_transform s3) as [t|] eqn:Hsaved3;
    cbn [pixel_mode tile_items transform tile_cache orig_qimage is_grayscale
         saved_transform viewport scroll_connected pixmap_item with_pixel_mode
         with_pixmap_visible preserve_ref setTransform resetTransform with_scroll
         with_transform with_pending_fit];
    rewrite <- Hst, <- Hst3, Hsaved3;
    (split; [done|]); (split; [congruence|]); (split; [done|]);
    (split; [congruence|]); (split; [congruence|]); (split; [congruence|]);
    (split; [done|]); (split; [congruence|]); (split; [congruence|]);
    rewrite Hit3, Hit; by destruct (pixmap_item s).
Qed.

(** C2. From Normal mode with an image loaded, [enter_pixel_mode]
    followed at once by [exit_pixel_mode] reinstates the very view
    transform that was installed before the entry (all four entries,
    bit for bit), and the view is back in Normal mode. *)
Theorem enter_then_exit_restores_transform s ref_in ref_out cursor_in cursor_out s1 :
  pixel_mode s = false → is_Some (orig_qimage s) →
  enter_pixel_mode qt s ref_in cursor_in = Some s1 →
  saved_transform s1 = Some (transform s) ∧
  transform (exit_pixel_mode qt s1 ref_out cursor_out) = transform s ∧
  pixel_mode (exit_pixel_mode qt s1 ref_out cursor_out) = false.
Proof.
  intros Hpix Himg Henter.
  destruct (enter_pixel_mode_state s ref_in cursor_in s1 Himg Hpix Henter)
    as (s0 & d & _ & Hpix1 & Hsaved & _ & Himg1 & _).
  rewrite <- Himg1 in Himg.
  destruct (exit_pixel_mode_state s1 ref_out cursor_out Hpix1 Himg)
    as (Hp & _ & Ht & _).
  rewrite Hsaved in Ht. done.
Qed.

(** C10. [enter_pixel_mode] with no image or already in Pixel mode, and
    [exit_pixel_mode] outside Pixel mode, return normally and leave the
    whole state as it was. *)
Theorem invalid_mode_calls_are_noops s ref cursor :
  (orig_qimage s = None ∨ pixel_mode s = true →
   enter_pixel_mode qt s ref cursor = Some s) ∧
  (pixel_mode s = false → exit_pixel_mode qt s ref cursor = s).
Proof.
  split.
  - intros [Himg|Hpix]; unfold enter_pixel_mode.
    + by rewrite Himg.
    + rewrite Hpix. by destruct (orig_qimage s).
  - intros Hpix. unfold exit_pixel_mode. by rewrite Hpix.
Qed.


(** C7. The probe maps the viewport point to the scene, floors both
    coordinates, and emits the absent sample when the pixel lies outside
    the image; inside, it emits the pixel's coordinates with the red
    channel alone when the image was classified grayscale and with the
    (r, g, b) triple otherwise.  [_pixel_mode] plays no part. *)
Theorem pixel_probe s img (vp_point : QPoint) (x y : Z) :
  orig_qimage s = Some img →
  Py.floor (ptf_x (to_scene qt s vp_point)) = Some x →
  Py.floor (ptf_y (to_scene qt s vp_point)) = Some y →
  (¬ (0 ≤ x < img_width img ∧ 0 ≤ y < img_height img) →
   emit_pixel_info_at_viewport_point qt s vp_point = Some absent_sample) ∧
  (0 ≤ x < img_width img ∧ 0 ≤ y < img_height img →
   emit_pixel_info_at_viewport_point qt s vp_point =
     Some (x, y,
           let '(r, g, b) := img_pixel img x y in
           if is_grayscale s then Gray r else RGB r g b)) ∧
  (∀ mode, emit_pixel_info_at_viewport_point qt (with_pixel_mode s mode) vp_point =
           emit_pixel_info_at_viewport_point qt s vp_point).
Proof.
  intros Himg Hx Hy.
  split; [|split; [|reflexivity]];
    unfold emit_pixel_info_at_viewport_point; rewrite Himg, Hx, Hy; simpl.
  - intros Hout.
    destruct ((x <? 0) || (y <? 0) || (x >=? img_width img)
              || (y >=? img_height img)) eqn:Hb; [done|].
    exfalso. apply Hout. lia.
  - intros Hin.
    destruct ((x <? 0) || (y <? 0) || (x >=? img_width img)
              || (y >=? img_height img)) eqn:Hb; [lia|].
    destruct (img_pixel img x y) as [[r g] b]. by destruct (is_grayscale s).
Qed.

Lemma float_of_pixel_cell_pred : Py.float_of_Z (PIXEL_CELL - 1) = 63%float.
Proof. vm_compute. reflexivity. Qed.

(** A zoom step leaves the view with the scaled, then translated, matrix. *)
Lemma wheel_zoomed_scale s ev (f : float) :
  current_scale (wheel_zoomed qt s ev f) =
    if (f =? 1)%float then current_scale s
    else match QTransform_.type (transform s) with
         | QTransform_.TxScale => (current_scale s * f)%float
         | _ => f
         end.
Proof.
  unfold current_scale, wheel_zoomed, zoom_about, view_translate.
  cbn [transform with_zoom_flags setTransform with_scroll with_transform].
  rewrite m11_translate. unfold view_scale.
  cbn [transform setTransform with_scroll with_transform].
  apply m11_scale.
Qed.

(** A zoom step changes neither the mode nor the tiles nor the queue, and
    turns auto-fit off. *)
Lemma wheel_zoomed_fields s ev (f : float) :
  let s3 := wheel_zoomed qt s ev f in
  pixel_mode s3 = pixel_mode s ∧ orig_qimage s3 = orig_qimage s ∧
  is_grayscale s3 = is_grayscale s ∧ pixmap_item s3 = pixmap_item s ∧
  saved_transform s3 = saved_transform s ∧ auto_fit_mode s3 = false ∧
  tile_cache s3 = tile_cache s ∧ tile_items s3 = tile_items s ∧
  pending_fit s3 = pending_fit s ∧ viewport s3 = viewport s.
Proof. repeat split. Qed.

(** The zoom branch of [wheelEvent]: a non-zero delta, no scroll
    modifier, an image shown, and a scale that can be divided by. *)
Lemma wheelEvent_zoom s ev :
  angleDelta ev ≠ 0 → ctrl_held ev = false → shift_held ev = false →
  is_Some (pixmap_item s) → (current_scale s =? 0)%float = false →
  wheelEvent qt s ev =
    let new_scale := new_scale_of s (angleDelta ev) in
    let s3 := wheel_zoomed qt s ev (new_scale / current_scale s)%float in
    if pixel_mode s && (angleDelta ev <? 0)
    then Some (exit_pixel_mode qt s (Some (wheel_pos ev)) (wheel_cursor ev))
    else if ((63 <=? new_scale)%float && (angleDelta ev >? 0)
             && bool_decide (is_Some (orig_qimage s)))%bool
         then enter_pixel_mode qt s3 (Some (wheel_pos ev)) (wheel_cursor ev)
         else Some s3.
Proof.
  intros Hdelta Hctrl Hshift [it Hit] Hscale. unfold wheelEvent.
  apply Z.eqb_neq in Hdelta. rewrite Hdelta, Hctrl, Hshift, Hit.
  unfold Py.div. rewrite Hscale. cbn [mbind option_bind].
  rewrite float_of_pixel_cell_pred. reflexivity.
Qed.

(** C4. In Pixel mode a wheel event with a negative delta and no scroll
    modifier runs [exit_pixel_mode]: the view is in Normal mode afterwards
    and no tile is materialized, whatever scale the delta would have
    produced.  (That the scale is not zero is what the handler's division
    needs.) *)
Theorem wheel_zoom_out_exits_pixel_mode s ev :
  pixel_mode s = true → is_Some (pixmap_item s) → is_Some (orig_qimage s) →
  (current_scale s =? 0)%float = false →
  angleDelta ev < 0 → ctrl_held ev = false → shift_held ev = false →
  ∃ s', wheelEvent qt s ev = Some s' ∧
        s' = exit_pixel_mode qt s (Some (wheel_pos ev)) (wheel_cursor ev) ∧
        pixel_mode s' = false ∧ tile_items s' = ∅.
Proof.
  intros Hpix Hitem Himg Hscale Hdelta Hctrl Hshift.
  rewrite wheelEvent_zoom by (done || lia). cbv zeta.
  rewrite Hpix. replace (angleDelta ev <? 0) with true by lia.
  eexists. split; [reflexivity|]. split; [reflexivity|].
  destruct (exit_pixel_mode_state s (Some (wheel_pos ev)) (wheel_cursor ev) Hpix Himg)
    as (? & ? & _). done.
Qed.

(** C5, in general.  In Normal mode with an image loaded, a wheel event
    with a positive delta and no scroll modifier whose clamped scale reaches 63
    ends in Pixel mode.  With no zero-delay fit queued the matrix is
    [scale(64, 64)] exactly, not the computed target, and auto-fit is
    off.  With one queued, the [processEvents()] call inside
    [enter_pixel_mode] runs [fit_long_side] after the matrix was snapped:
    the view is in Pixel mode at the fit scale with auto-fit on.  The
    hypotheses on the scale and on the visible rectangle say that the
    handler's division and its [math.floor] / [math.ceil] calls do not
    raise. *)
Theorem wheel_zoom_in_enters_pixel_mode s ev :
  ctrl_held ev = false → shift_held ev = false → 0 < angleDelta ev →
  is_Some (pixmap_item s) → is_Some (orig_qimage s) → pixel_mode s = false →
  (current_scale s =? 0)%float = false →
  (63 <=? new_scale_of s (angleDelta ev))%float = true →
  tiles_computable qt
    (enter_prepare qt
       (wheel_zoomed qt s ev
          (new_scale_of s (angleDelta ev) / current_scale s)%float)
       (Some (wheel_pos ev))) →
  ∃ s', wheelEvent qt s ev = Some s' ∧ pixel_mode s' = true ∧
        pending_fit s' = 0%nat ∧
        saved_scale s' =
          Some (current_scale
                  (wheel_zoomed qt s ev
                     (new_scale_of s (angleDelta ev) / current_scale s)%float)) ∧
        (pending_fit s = 0%nat →
           transform s' = mkQTransform 64 64 0 0 ∧ current_scale s' = 64%float ∧
           auto_fit_mode s' = false) ∧
        ((0 < pending_fit s)%nat →
           current_scale s' = compute_long_side_scale s ∧
           auto_fit_mode s' = true).
Proof.
  intros Hctrl Hshift Hdelta Hitem Himg Hpix Hscale Hreach Htiles.
  rewrite wheelEvent_zoom by (done || lia). cbv zeta.
  rewrite Hpix, Hreach. replace (angleDelta ev >? 0) with true by lia.
  rewrite bool_decide_eq_true_2 by done. cbn [andb].
  destruct (wheel_zoomed_fields s ev
              (new_scale_of s (angleDelta ev) / current_scale s)%float)
    as (Hpix3 & Himg3 & _ & Hit3 & _ & Hauto3 & _ & _ & Hpend3 & Hvp3).
  assert (compute_long_side_scale
            (wheel_zoomed qt s ev
               (new_scale_of s (angleDelta ev) / current_scale s)%float)
          = compute_long_side_scale s) as Hfit3.
  { apply compute_long_side_scale_ext; [by rewrite Hit3|done]. }
  set (s3 := wheel_zoomed qt s ev _) in *. clearbody s3.
  assert (is_Some (orig_qimage s3)) as Himg3' by by rewrite Himg3.
  assert (pixel_mode s3 = false) as Hpix3' by by rewrite Hpix3.
  destruct (enter_pixel_mode_returns s3 (Some (wheel_pos ev)) (wheel_cursor ev)
              Himg3' Hpix3' Htiles) as [s' Hs'].
  exists s'. split; [done|].
  destruct (enter_pixel_mode_state s3 _ _ s' Himg3' Hpix3' Hs')
    as (s0 & d & _ & Hp & _ & Hss & _ & _ & _ & _ & _ & Hpend).
  split; [done|]. split; [done|]. split; [done|]. split.
  - intros Hp0.
    destruct (enter_pixel_mode_snaps s3 _ _ s' Himg3' Hpix3'
                ltac:(by rewrite Hpend3) Hs') as [Ht Ha].
    split; [done|]. split; [by unfold current_scale; rewrite Ht|congruence].
  - intros Hpos.
    destruct (enter_pixel_mode_refits s3 _ _ s' Himg3' Hpix3'
                ltac:(by rewrite Hpend3) ltac:(by rewrite Hit3) Hs')
      as (H11 & _ & Ha).
    split; [|done]. unfold current_scale. by rewrite H11.
Qed.

(** C1 (amended). On a zoom step in Normal mode the target
    [new_scale = max(0.05, min(scale * factor, 64.0))] lies in
    [[0.05, 64.0]] for every current scale and every delta; unless the
    step enters Pixel mode, the view's scale is then what
    [scale(new_scale / scale)] leaves: the old scale multiplied, in
    binary64, by that factor, or the factor itself when the matrix is
    within [1e-12] of the identity scale.  (Either is [new_scale] up to
    rounding only.) *)
Theorem wheel_zoom_scale s ev :
  ctrl_held ev = false → shift_held ev = false → angleDelta ev ≠ 0 →
  is_Some (pixmap_item s) → pixel_mode s = false →
  (current_scale s =? 0)%float = false →
  let new_scale := new_scale_of s (angleDelta ev) in
  let factor_to_apply := (new_scale / current_scale s)%float in
  (MIN_SCALE <=? new_scale)%float = true ∧
  (new_scale <=? max_scale)%float = true ∧
  (((63 <=? new_scale)%float && (angleDelta ev >? 0)
    && bool_decide (is_Some (orig_qimage s)))%bool = false →
   ∃ s', wheelEvent qt s ev = Some s' ∧ pixel_mode s' = false ∧
         current_scale s' =
           if (factor_to_apply =? 1)%float then current_scale s
           else match QTransform_.type (transform s) with
                | QTransform_.TxScale => (current_scale s * factor_to_apply)%float
                | _ => factor_to_apply
                end).
Proof.
  intros Hctrl Hshift Hdelta Hitem Hpix Hscale new_scale f.
  destruct (clamp_scale_range (current_scale s * zoom_factor (angleDelta ev))%float)
    as [Hlo Hhi].
  split; [exact Hlo|]. split; [exact Hhi|].
  intros Hstay. rewrite wheelEvent_zoom by done. cbv zeta.
  rewrite Hpix. fold new_scale. rewrite Hstay. cbn [andb].
  eexists. split; [reflexivity|]. split; [exact Hpix|].
  apply wheel_zoomed_scale.
Qed.

End ViewFacts.


(* ================================================================== *)
(** * Invariants of the view along its events *)
(* ================================================================== *)

Section Invariants.
Variable qt : QtGeometry.
Implicit Types (s : View) (k : TileKey) (c : TileCache.t TilePixmap)
  (items : gmap TileKey TilePixmap).

Lemma elem_of_range_incl (lo hi x : Z) : x ∈ Py.range_incl lo hi ↔ lo ≤ x ≤ hi.
Proof.
  unfold Py.range_incl. rewrite list_elem_of_fmap. split.
  - intros (i & -> & Hi). apply elem_of_seq in Hi. lia.
  - intros Hx. exists (Z.to_nat (x - lo)). split; [lia|].
    apply elem_of_seq. lia.
Qed.

Lemma elem_of_required_tiles (tx0 tx1 ty0 ty1 : Z) k :
  k ∈ required_tiles (tx0, tx1, ty0, ty1) ↔ tx0 ≤ k.1 ≤ tx1 ∧ ty0 ≤ k.2 ≤ ty1.
Proof.
  unfold required_tiles. rewrite list_elem_of_bind. split.
  - intros (ty & Hk & Hty). apply list_elem_of_bind in Hk as (tx & Hk & Htx).
    apply list_elem_of_singleton in Hk as ->.
    apply elem_of_range_incl in Hty, Htx. done.
  - intros [Hx Hy]. exists k.2. split; [|by apply elem_of_range_incl].
    apply list_elem_of_bind. exists k.1. split; [|by apply elem_of_range_incl].
    destruct k. by apply list_elem_of_singleton.
Qed.

Lemma visible_tile_range_bounds s img margin tx0 tx1 ty0 ty1 :
  orig_qimage s = Some img →
  visible_tile_range qt s margin = Some (tx0, tx1, ty0, ty1) →
  0 ≤ tx0 ∧ tx1 ≤ (img_width img - 1) / TILE_ORIG_PX ∧
  0 ≤ ty0 ∧ ty1 ≤ (img_height img - 1) / TILE_ORIG_PX.
Proof.
  intros Himg. unfold visible_tile_range. rewrite Himg. cbv zeta.
  set (r := match mapRectToScene qt _ _ _ with Some r => r | None => _ end).
  destruct (Py.floor (rect_left r)) as [fl|]; cbn [mbind option_bind]; [|done].
  destruct (Py.floor (rect_top r)) as [ft|]; cbn [mbind option_bind]; [|done].
  destruct (Py.ceil (rect_right r)) as [cr|]; cbn [mbind option_bind]; [|done].
  destruct (Py.ceil (rect_bottom r)) as [cb|]; cbn [mbind option_bind]; [|done].
  intros [= <- <- <- <-]. lia.
Qed.

Lemma put_lookup_inv c k pix k' pix' :
  TileCache.cache (TileCache.put c k pix) !! k' = Some pix' →
  (k' = k ∧ pix' = pix) ∨ TileCache.cache c !! k' = Some pix'.
Proof.
  unfold TileCache.put. rewrite evict_spec. cbn [TileCache.cache].
  rewrite lookup_foldl_delete. destruct (decide _); [done|].
  destruct (decide (k = k')) as [->|Hne].
  - rewrite lookup_insert_eq. intros [= ->]. by left.
  - rewrite lookup_insert_ne by done. by right.
Qed.

Lemma max_tiles_get c k :
  TileCache.max_tiles (TileCache.get c k).2 = TileCache.max_tiles c.
Proof. unfold TileCache.get. by destruct (TileCache.cache c !! k). Qed.

Lemma max_tiles_put c k pix :
  TileCache.max_tiles (TileCache.put c k pix) = TileCache.max_tiles c.
Proof. unfold TileCache.put. by destruct (TileCache.evict _ _ _). Qed.

Lemma add_tile_keeps_fresh s c items added k c' items' added' :
  add_tile s (c, items, added) k = (c', items', added') →
  0 ≤ k.1 ∧ 0 ≤ k.2 →
  tiles_fresh s c items → cache_wf c →
  tiles_fresh s c' items' ∧ cache_wf c' ∧
  TileCache.max_tiles c' = TileCache.max_tiles c.
Proof.
  intros Hstep [Hk1 Hk2] [Hitems Hcache] Hwf. unfold add_tile in Hstep.
  destruct (items !! k) as [pix0|] eqn:Hit.
  { injection Hstep as <- <- <-. done. }
  pose proof (get_result c k) as Hres. pose proof (get_cache c k) as Hsame.
  pose proof (get_wf c k Hwf) as Hwf1. pose proof (max_tiles_get c k) as Hmax1.
  destruct (TileCache.get c k) as [[pix|] c1]; cbn [fst snd] in *.
  - injection Hstep as <- <- <-. split; [|done]. split.
    + intros k' pix'. destruct (decide (k = k')) as [<-|Hne].
      * rewrite lookup_insert_eq. intros [= <-]. by apply Hcache.
      * rewrite lookup_insert_ne by done. apply Hitems.
    + intros k' pix'. rewrite Hsame. apply Hcache.
  - destruct (make_tile_pixmap s k.1 k.2) as [pix|] eqn:Hmake.
    + injection Hstep as <- <- <-. split; [split|split].
      * intros k' pix'. destruct (decide (k = k')) as [<-|Hne].
        -- rewrite lookup_insert_eq. by intros [= <-].
        -- rewrite lookup_insert_ne by done. apply Hitems.
      * intros k' pix' Hk'. apply put_lookup_inv in Hk' as [[-> ->]|Hk']; [done|].
        rewrite Hsame in Hk'. by apply Hcache.
      * by apply put_wf.
      * by rewrite max_tiles_put.
    + injection Hstep as <- <- <-. split; [|done]. split; [done|].
      intros k' pix'. rewrite Hsame. apply Hcache.
Qed.

Lemma foldl_add_tile_keeps_fresh s required c items added c' items' added' :
  foldl (add_tile s) (c, items, added) required = (c', items', added') →
  (∀ k, k ∈ required → 0 ≤ k.1 ∧ 0 ≤ k.2) →
  tiles_fresh s c items → cache_wf c →
  tiles_fresh s c' items' ∧ cache_wf c' ∧
  TileCache.max_tiles c' = TileCache.max_tiles c.
Proof.
  revert c items added.
  induction required as [|k0 required IH]; intros c items added.
  - simpl. by intros [= <- <- <-].
  - cbn [foldl].
    destruct (add_tile s (c, items, added) k0) as [[c1 items1] added1] eqn:Hstep.
    intros Hfold Hkeys Hfresh Hwf.
    destruct (add_tile_keeps_fresh _ _ _ _ _ _ _ _ Hstep
                (Hkeys k0 ltac:(by left)) Hfresh Hwf)
      as (Hfresh1 & Hwf1 & Hmax1).
    destruct (IH _ _ _ Hfold ltac:(intros k Hk; by apply Hkeys; right) Hfresh1 Hwf1)
      as (? & ? & Hmax).
    split; [done|]. split; [done|]. by rewrite Hmax.
Qed.

(** The reconciliation keeps the tile invariant. *)
Lemma update_visible_tiles_tiles_inv s s1 d :
  update_visible_tiles qt s = Some (s1, d) → tiles_inv s → tiles_inv s1.
Proof.
  unfold update_visible_tiles.
  destruct (orig_qimage s) as [img|] eqn:Himg; [|by intros [= <- <-]].
  destruct (pixel_mode s); cbn [negb]; [|by intros [= <- <-]].
  destruct (visible_tile_range qt s 1) as [rng|] eqn:Hrng;
    cbn [mbind option_bind]; [|done].
  set (required := required_tiles rng).
  set (to_remove := filter _ _).
  set (items1 := foldl _ (tile_items s) to_remove).
  destruct (foldl (add_tile s) _ required) as [[c items2] added] eqn:Hfold.
  intros [= <- <-] ([Hitems Hcache] & Hwf & Hmax).
  assert (tiles_fresh s (tile_cache s) items1) as Hfresh1.
  { split; [|done]. intros k pix. subst items1. rewrite lookup_foldl_delete.
    destruct (decide _); [done|]. apply Hitems. }
  assert (∀ k, k ∈ required → 0 ≤ k.1 ∧ 0 ≤ k.2) as Hkeys.
  { intros k Hk. subst required. destruct rng as [[[tx0 tx1] ty0] ty1].
    apply elem_of_required_tiles in Hk as [Hx Hy].
    destruct (visible_tile_range_bounds s img 1 _ _ _ _ Himg Hrng)
      as (Hx0 & _ & Hy0 & _). lia. }
  destruct (foldl_add_tile_keeps_fresh _ _ _ _ _ _ _ _ Hfold Hkeys Hfresh1 Hwf)
    as (Hfresh2 & Hwf2 & Hmax2).
  split; [exact Hfresh2|]. split; [exact Hwf2|].
  cbn [tile_cache with_tiles]. by rewrite Hmax2.
Qed.

(** What a rendered bitmap is. *)
Lemma make_tile_pixmap_inv s tx ty pix :
  make_tile_pixmap s tx ty = Some pix →
  ∃ img, orig_qimage s = Some img ∧
    tx * TILE_ORIG_PX < img_width img ∧ ty * TILE_ORIG_PX < img_height img ∧
    pix = mkTilePixmap (tx * TILE_ORIG_PX) (ty * TILE_ORIG_PX)
            (Z.min TILE_ORIG_PX (img_width img - tx * TILE_ORIG_PX))
            (Z.min TILE_ORIG_PX (img_height img - ty * TILE_ORIG_PX))
            (is_grayscale s)
            (block_cells img (tx * TILE_ORIG_PX) (ty * TILE_ORIG_PX)
               (Z.min TILE_ORIG_PX (img_width img - tx * TILE_ORIG_PX))
               (Z.min TILE_ORIG_PX (img_height img - ty * TILE_ORIG_PX))).
Proof.
  unfold make_tile_pixmap. destruct (orig_qimage s) as [img|]; [|done].
  cbv zeta. unfold TILE_ORIG_PX.
  destruct (Z.min 16 (img_width img - tx * 16) <=? 0) eqn:Hw; [done|].
  destruct (Z.min 16 (img_height img - ty * 16) <=? 0) eqn:Hh; [done|].
  cbn [orb]. destruct (_ || _); [done|]. intros [= <-].
  exists img. split; [done|]. split; [lia|]. split; [lia|done].
Qed.

End Invariants.

Section ViewInvariant.
Variable qt : QtGeometry.
Implicit Types (s : View) (k : TileKey) (cursor : QPoint).

Lemma mode_inv_frame s s' :
  pixel_mode s' = pixel_mode s →
  orig_qimage s' = orig_qimage s → pixmap_item s' = pixmap_item s →
  saved_transform s' = saved_transform s →
  (pixel_mode s = true → pending_fit s' = pending_fit s) →
  (pixel_mode s = false → tile_items s' = tile_items s) →
  mode_inv s → mode_inv s'.
Proof.
  intros Hpix Himg Hitem Hsaved Hpend Htiles [Hp Hn].
  unfold mode_inv. rewrite Hpix, Himg, Hitem, Hsaved. split.
  - intros Hm. rewrite Hpend by done. by apply Hp.
  - intros Hm. rewrite Htiles by done. by apply Hn.
Qed.

Lemma tiles_inv_frame s s' :
  orig_qimage s' = orig_qimage s → is_grayscale s' = is_grayscale s →
  tile_cache s' = tile_cache s → tile_items s' = tile_items s →
  tiles_inv s → tiles_inv s'.
Proof.
  intros Himg Hgray Hcache Hitems ([Hi Hc] & Hwf & Hmax).
  unfold tiles_inv, tiles_fresh, fresh_tile, make_tile_pixmap.
  rewrite Himg, Hgray, Hcache, Hitems. done.
Qed.

(** Dropping every materialized tile keeps the tile side. *)
Lemma tiles_inv_cleared s s' :
  orig_qimage s' = orig_qimage s → is_grayscale s' = is_grayscale s →
  tile_cache s' = tile_cache s → tile_items s' = ∅ →
  tiles_inv s → tiles_inv s'.
Proof.
  intros Himg Hgray Hcache Hitems ([Hi Hc] & Hwf & Hmax).
  unfold tiles_inv, tiles_fresh, fresh_tile, make_tile_pixmap.
  rewrite Himg, Hgray, Hcache, Hitems.
  split; [split; [|done]|done]. intros k pix. by rewrite lookup_empty.
Qed.

(** Hiding or showing the pixmap item keeps the image side. *)
Lemma image_inv_frame s s' :
  orig_qimage s' = orig_qimage s →
  item_pixmap <$> pixmap_item s' = item_pixmap <$> pixmap_item s →
  image_inv s → image_inv s'.
Proof.
  intros Himg Hitem Hinv img. rewrite Himg. intros Hs.
  destruct (Hinv img Hs) as (Hnull & it & Hit & Hpm). split; [done|].
  rewrite Hit in Hitem. destruct (pixmap_item s') as [it'|]; [|done].
  injection Hitem as Hitem. exists it'. split; [done|]. congruence.
Qed.

Lemma view_inv_frame s s' :
  pixel_mode s' = pixel_mode s →
  orig_qimage s' = orig_qimage s → is_grayscale s' = is_grayscale s →
  pixmap_item s' = pixmap_item s → saved_transform s' = saved_transform s →
  (pixel_mode s = true → pending_fit s' = pending_fit s) →
  tile_cache s' = tile_cache s → tile_items s' = tile_items s →
  view_inv s → view_inv s'.
Proof.
  intros ??? Hit ???? (Hm & Ht & Hi). split; [|split].
  - by apply (mode_inv_frame s).
  - by apply (tiles_inv_frame s).
  - apply (image_inv_frame s); [done| |done]. by rewrite Hit.
Qed.

Lemma view_inv_same_frame s s' :
  same_frame s s' → (pixel_mode s = true → pending_fit s' = pending_fit s) →
  view_inv s → view_inv s'.
Proof.
  intros (?&?&?&?&?&?&?&?&?&?) Hpend. by apply view_inv_frame.
Qed.

Lemma pixel_exact_frame s s' :
  pixel_mode s' = pixel_mode s → transform s' = transform s →
  auto_fit_mode s' = auto_fit_mode s → pixel_exact s → pixel_exact s'.
Proof.
  unfold pixel_exact, current_scale. intros -> -> ->. done.
Qed.

Lemma pixel_exact_normal s : pixel_mode s = false → pixel_exact s.
Proof. unfold pixel_exact. intros ->. done. Qed.

(** [fit_long_side] has no mode guard; it keeps the invariant in either
    mode. *)
Lemma fit_long_side_inv s ref cursor :
  view_inv s → view_inv (fit_long_side qt s ref cursor).
Proof.
  destruct (fit_long_side_frame qt s ref cursor) as [Hfr Hpend].
  apply view_inv_same_frame; [done|by intros _].
Qed.

Lemma fit_long_side_mode s ref cursor :
  pixel_mode (fit_long_side qt s ref cursor) = pixel_mode s.
Proof. by destruct (fit_long_side_fields qt s ref cursor) as (? & _). Qed.

(** Delivering the queued fits keeps the invariant. *)
Lemma processEvents_inv s cursor :
  view_inv s → view_inv (processEvents qt s cursor).
Proof.
  intros Hinv. destruct (processEvents_frame qt s cursor) as (Hfr & Hpend & _).
  apply (view_inv_same_frame s); [done| |done].
  intros Hpix. destruct Hinv as ([Hp _] & _).
  destruct (Hp Hpix) as (_ & _ & _ & ->). done.
Qed.

Lemma processEvents_mode s cursor :
  pixel_mode (processEvents qt s cursor) = pixel_mode s.
Proof. by destruct (processEvents_frame qt s cursor) as ((? & _) & _). Qed.

(** Leaving Pixel mode re-establishes the Normal-mode side. *)
Lemma exit_pixel_mode_inv s ref cursor :
  pixel_mode s = true → view_inv s → view_inv (exit_pixel_mode qt s ref cursor).
Proof.
  intros Hpix ([Hp _] & Ht & Hi).
  destruct (Hp Hpix) as (Himg & (it & Hit & _) & _).
  destruct (exit_pixel_mode_state qt s ref cursor Hpix Himg)
    as (Hpix' & Hitems & _ & Hcache & Himg' & Hgray & _ & _ & _ & Hitem').
  set (s' := exit_pixel_mode qt s ref cursor) in *. clearbody s'.
  split; [|split].
  - split; [intros Hm; congruence|]. intros _. split; [done|].
    intros it'. rewrite Hitem', Hit. by intros [= <-].
  - by apply (tiles_inv_cleared s).
  - apply (image_inv_frame s); [done| |done].
    rewrite Hitem'. by destruct (pixmap_item s).
Qed.

(** The tile update keeps all sides. *)
Lemma update_visible_tiles_inv s s1 d :
  update_visible_tiles qt s = Some (s1, d) → view_inv s → view_inv s1.
Proof.
  intros Hup (Hm & Ht & Hi).
  assert (tiles_inv s1) as Ht1 by by eapply update_visible_tiles_tiles_inv.
  destruct (update_visible_tiles_frame qt s s1 d Hup) as (c & items & Hs1).
  split; [|split; [done|by subst s1]].
  destruct (pixel_mode s) eqn:Hpix.
  - subst s1. apply (mode_inv_frame s); try done. by rewrite Hpix.
  - revert Hup. unfold update_visible_tiles. rewrite Hpix.
    destruct (orig_qimage s); by intros [= <- <-].
Qed.

Lemma on_visible_update_timeout_inv s s' :
  on_visible_update_timeout qt s = Some s' → view_inv s → view_inv s'.
Proof.
  unfold on_visible_update_timeout. intros Hup Hinv.
  destruct (update_visible_tiles qt _) as [[s1 d]|] eqn:Hs1; [|done].
  injection Hup as <-. eapply update_visible_tiles_inv; [exact Hs1|].
  by apply (view_inv_frame s).
Qed.

Lemma on_visible_update_timeout_exact s s' :
  on_visible_update_timeout qt s = Some s' → pixel_exact s → pixel_exact s'.
Proof.
  unfold on_visible_update_timeout. intros Hup.
  destruct (update_visible_tiles qt _) as [[s1 d]|] eqn:Hs1; [|done].
  injection Hup as <-.
  destruct (update_visible_tiles_frame qt _ s1 d Hs1) as (c & items & ->).
  by apply pixel_exact_frame.
Qed.

(** Entering Pixel mode from a Normal-mode view. *)
Lemma enter_pixel_mode_inv s ref cursor s' :
  enter_pixel_mode qt s ref cursor = Some s' →
  pixel_mode s = false → is_Some (orig_qimage s) →
  view_inv s → view_inv s'.
Proof.
  intros Henter Hpix Himg (Hm & Ht & Hi).
  destruct (enter_pixel_mode_state qt s ref cursor s' Himg Hpix Henter)
    as (s0 & d & Hup & Hpix' & Hsaved & _ & Himg' & Hgray' & Hitem' & Hcache
        & Hitems & Hpend).
  assert (tiles_inv s0) as Ht0.
  { eapply update_visible_tiles_tiles_inv; [exact Hup|].
    by apply (tiles_inv_frame s). }
  apply update_visible_tiles_frame in Hup as (c & items & Hs0).
  destruct Himg as [img Himg].
  destruct (Hi img Himg) as (_ & it & Hit & _).
  split; [|split].
  - split; [|by rewrite Hpix'].
    intros _. split; [by rewrite Himg', Himg|]. split.
    + exists (mkPixmapItem (item_pixmap it) false). by rewrite Hitem', Hit.
    + split; [by rewrite Hsaved|done].
  - apply (tiles_inv_frame s0); [|by subst s0|done..].
    by rewrite Himg', Hs0.
  - apply (image_inv_frame s); [done| |done].
    rewrite Hitem'. by destruct (pixmap_item s).
Qed.

Lemma wheel_zoomed_inv s ev (f : float) :
  view_inv s → view_inv (wheel_zoomed qt s ev f).
Proof.
  destruct (wheel_zoomed_fields qt s ev f)
    as (Hpix & Himg & Hgray & Hit & Hsaved & Hauto & Hcache & Hitems & Hpend & _).
  apply view_inv_frame; try done.
Qed.

Lemma div_pixel_scale : (64 / 64 =? 1)%float = true.
Proof. vm_compute. reflexivity. Qed.

(** Zooming in at the Pixel-mode scale targets that scale again: the
    factor is [64.0 / 64.0], and [scale(1.0, 1.0)] is a no-op. *)
Lemma wheel_zoomed_at_pixel_scale s ev :
  current_scale s = 64%float → 0 < angleDelta ev →
  current_scale
    (wheel_zoomed qt s ev (new_scale_of s (angleDelta ev) / current_scale s)%float)
  = 64%float.
Proof.
  intros Hs Hd. rewrite wheel_zoomed_scale. unfold new_scale_of. rewrite Hs.
  rewrite clamp_at_pixel_scale by done.
  change max_scale with 64%float. by rewrite div_pixel_scale.
Qed.

Lemma with_scroll_inv s sc : view_inv s → view_inv (with_scroll s sc).
Proof. by apply view_inv_frame. Qed.

(** [wheelEvent] keeps the invariant; handled with no fit queued, it
    also keeps Pixel mode at the exact scale. *)
Lemma wheelEvent_inv s ev s' :
  wheelEvent qt s ev = Some s' → view_inv s →
  view_inv s' ∧ (pending_fit s = 0%nat → pixel_exact s → pixel_exact s').
Proof.
  intros Hw Hinv.
  destruct (decide (angleDelta ev = 0)) as [Hd0|Hd0].
  { revert Hw. unfold wheelEvent. rewrite Hd0. cbn. by intros [= <-]. }
  destruct (ctrl_held ev) eqn:Hctrl.
  { revert Hw. unfold wheelEvent. rewrite (proj2 (Z.eqb_neq _ _) Hd0), Hctrl.
    destruct (scroll_step _); [|done]. intros [= <-].
    split; [by apply with_scroll_inv|]. intros _. by apply pixel_exact_frame. }
  destruct (shift_held ev) eqn:Hshift.
  { revert Hw. unfold wheelEvent. rewrite (proj2 (Z.eqb_neq _ _) Hd0), Hctrl, Hshift.
    destruct (scroll_step _); [|done]. intros [= <-].
    split; [by apply with_scroll_inv|]. intros _. by apply pixel_exact_frame. }
  destruct (pixmap_item s) as [it|] eqn:Hit.
  2:{ revert Hw. unfold wheelEvent.
      rewrite (proj2 (Z.eqb_neq _ _) Hd0), Hctrl, Hshift, Hit. by intros [= <-]. }
  destruct (current_scale s =? 0)%float eqn:Hz.
  { revert Hw. unfold wheelEvent.
    rewrite (proj2 (Z.eqb_neq _ _) Hd0), Hctrl, Hshift, Hit.
    unfold Py.div. by rewrite Hz. }
  rewrite wheelEvent_zoom in Hw by (done || by rewrite Hit). cbv zeta in Hw.
  pose proof (wheel_zoomed_inv s ev
    (new_scale_of s (angleDelta ev) / current_scale s)%float Hinv) as Hinv3.
  pose proof (wheel_zoomed_at_pixel_scale s ev) as Hscale3.
  destruct (wheel_zoomed_fields qt s ev
    (new_scale_of s (angleDelta ev) / current_scale s)%float)
    as (Hpix3 & Himg3 & _ & Hit3 & _ & Hauto3 & _ & _ & Hpend3 & _).
  set (s3 := wheel_zoomed qt s ev _) in *. clearbody s3.
  destruct (pixel_mode s) eqn:Hpix.
  - (* Pixel mode *)
    destruct (angleDelta ev <? 0) eqn:Hneg.
    + injection Hw as <-. destruct Hinv as ([Hp Hn] & Ht & Hi).
      destruct (Hp Hpix) as (Himg & _).
      split; [by apply exit_pixel_mode_inv|]. intros _ _.
      apply pixel_exact_normal.
      by destruct (exit_pixel_mode_state qt s (Some (wheel_pos ev)) (wheel_cursor ev)
                     Hpix Himg) as (? & _).
    + cbn [andb] in Hw.
      assert (s' = s3) as ->.
      { destruct (_ && bool_decide _)%bool; [|by injection Hw as <-].
        unfold enter_pixel_mode in Hw. rewrite Hpix3 in Hw.
        destruct (orig_qimage s3); by injection Hw as <-. }
      split; [done|]. intros _ Hex _. destruct (Hex Hpix) as [Hs _].
      split; [|done]. apply Hscale3; [done|lia].
  - cbn [andb] in Hw.
    destruct (_ && bool_decide _)%bool eqn:Henter.
    2:{ injection Hw as <-. split; [done|]. intros _ _.
        apply pixel_exact_normal. congruence. }
    apply andb_prop in Henter as [_ Himg%bool_decide_eq_true_1].
    rewrite <- Himg3 in Himg.
    split; [by eapply enter_pixel_mode_inv; [exact Hw|congruence|done|done]|].
    intros Hpend _ _.
    destruct (enter_pixel_mode_snaps qt s3 _ _ s' Himg ltac:(congruence)
                ltac:(congruence) Hw) as [Ht Ha].
    split; [by unfold current_scale; rewrite Ht|congruence].
Qed.

Lemma on_zoom_end_inv s : view_inv s → view_inv (on_zoom_end s).
Proof. by apply view_inv_frame. Qed.

Lemma on_debounced_resize_inv s cursor :
  view_inv s → view_inv (on_debounced_resize qt s cursor).
Proof.
  intros Hinv. unfold on_debounced_resize.
  destruct (zooming s); [done|]. destruct (pixmap_item s); [|done].
  destruct (auto_fit_mode s); [|done].
  destruct (_ <? _)%float; [|done].
  by apply fit_long_side_inv.
Qed.

Lemma on_debounced_resize_exact s cursor :
  pixel_exact s → pixel_exact (on_debounced_resize qt s cursor).
Proof.
  intros Hex. unfold on_debounced_resize.
  destruct (zooming s); [done|]. destruct (pixmap_item s); [|done].
  destruct (auto_fit_mode s) eqn:Hauto; [|done].
  destruct (_ <? _)%float; [|done].
  apply pixel_exact_normal. rewrite fit_long_side_mode.
  destruct (pixel_mode s) eqn:Hpix; [|done].
  destruct (Hex Hpix) as [_ Hoff]. congruence.
Qed.

Lemma resizeEvent_inv s new_size cursor :
  view_inv s → view_inv (resizeEvent qt s new_size cursor).1.
Proof.
  intros Hinv. unfold resizeEvent.
  set (s2 := with_last_viewport_size _ _).
  assert (view_inv s2) as Hinv2 by by apply (view_inv_frame s).
  clearbody s2.
  destruct (auto_fit_mode s2); [|by destruct (zooming s2)].
  destruct (zooming s2); [done|]. cbn [andb negb fst].
  by apply fit_long_side_inv.
Qed.

Lemma resizeEvent_exact s new_size cursor :
  pixel_exact s → pixel_exact (resizeEvent qt s new_size cursor).1.
Proof.
  intros Hex. unfold resizeEvent.
  set (s2 := with_last_viewport_size _ _).
  assert (pixel_exact s2) as Hex2 by by apply (pixel_exact_frame s).
  clearbody s2.
  destruct (auto_fit_mode s2) eqn:Hauto; [|by destruct (zooming s2)].
  destruct (zooming s2); [done|]. cbn [andb negb fst].
  apply pixel_exact_normal. rewrite fit_long_side_mode.
  destruct (pixel_mode s2) eqn:Hpix; [|done].
  destruct (Hex2 Hpix) as [_ Hoff]. congruence.
Qed.

Lemma pan_inv s delta : view_inv s → view_inv (pan qt s delta).
Proof.
  intros Hinv. unfold pan.
  set (s2 := with_scroll (with_scroll s _) _).
  assert (view_inv s2) as Hinv2 by by apply (view_inv_frame s).
  clearbody s2. destruct (pixel_mode s2) eqn:Hpix; [|done].
  by apply (view_inv_frame s2).
Qed.

Lemma pan_exact s delta : pixel_exact s → pixel_exact (pan qt s delta).
Proof.
  intros Hex. unfold pan.
  set (s2 := with_scroll (with_scroll s _) _).
  assert (pixel_exact s2) as Hex2 by by apply (pixel_exact_frame s).
  clearbody s2. destruct (pixel_mode s2) eqn:Hpix; [|done].
  by apply (pixel_exact_frame s2).
Qed.

(** What a double click in the middle leaves: a view that kept the
    invariant, in Normal mode. *)
Lemma double_click_fit_inv s ref cursor :
  view_inv s →
  let s1 := with_visible_update_timer s false in
  let s2 := if pixel_mode s1 then exit_pixel_mode qt s1 (Some ref) cursor else s1 in
  let s4 := fit_long_side qt (processEvents qt s2 cursor) (Some ref) cursor in
  view_inv (with_auto_fit s4 true) ∧ pixel_mode (with_auto_fit s4 true) = false.
Proof.
  intros Hinv. cbv zeta.
  set (s1 := with_visible_update_timer s false).
  assert (view_inv s1) as Hinv1 by by apply (view_inv_frame s).
  clearbody s1.
  set (s2 := if pixel_mode s1 then _ else s1).
  assert (view_inv s2 ∧ pixel_mode s2 = false) as [Hinv2 Hpix2].
  { subst s2. destruct (pixel_mode s1) eqn:Hpix; [|done].
    split; [by apply exit_pixel_mode_inv|].
    destruct Hinv1 as ([Hp _] & _). destruct (Hp Hpix) as (Himg & _).
    by destruct (exit_pixel_mode_state qt s1 (Some ref) cursor Hpix Himg). }
  clearbody s2.
  pose proof (processEvents_inv s2 cursor Hinv2) as Hinv3.
  pose proof (processEvents_mode s2 cursor) as Hpix3.
  set (s3 := processEvents qt s2 cursor) in *. clearbody s3.
  pose proof (fit_long_side_inv s3 (Some ref) cursor Hinv3) as Hinv4.
  pose proof (fit_long_side_mode s3 (Some ref) cursor) as Hpix4.
  set (s4 := fit_long_side qt s3 (Some ref) cursor) in *. clearbody s4.
  split; [by apply (view_inv_frame s4)|].
  change (pixel_mode s4 = false). congruence.
Qed.

Lemma mouseDoubleClickEvent_inv s pos cursor r :
  mouseDoubleClickEvent qt s pos cursor = Some r → view_inv s →
  view_inv r.1 ∧ (pixel_exact s → pixel_exact r.1).
Proof.
  unfold mouseDoubleClickEvent. intros Hr Hinv.
  destruct (pixmap_item s); [|by injection Hr as <-].
  destruct (_ <=? _)%float; [by injection Hr as <-|].
  destruct (_ <=? _)%float; [by injection Hr as <-|].
  destruct (Py.int (ptf_x pos)) as [rx|]; [|done].
  destruct (Py.int (ptf_y pos)) as [ry|]; [|done].
  cbn [mbind option_bind] in Hr. injection Hr as <-. cbn [fst].
  destruct (double_click_fit_inv s (mkQPoint rx ry) cursor Hinv) as [Hi Hp].
  split; [exact Hi|]. intros _. by apply pixel_exact_normal.
Qed.

Lemma load_image_mode s qpixmap :
  load_image qt s qpixmap = (s, [LoadFailedWarning]) ∨
  pixel_mode (load_image qt s qpixmap).1 = false.
Proof.
  unfold load_image. destruct qpixmap as [p|]; [|by left].
  destruct (isNull p); [by left|by right].
Qed.

Lemma load_image_inv s qpixmap :
  view_inv s → view_inv (load_image qt s qpixmap).1.
Proof.
  intros Hinv. unfold load_image.
  destruct qpixmap as [p|]; [|done]. destruct (isNull p) eqn:Hnull; [done|].
  cbn [negb fst]. destruct Hinv as (_ & (_ & Hwf & Hmax) & _). split; [|split].
  - split; [done|]. intros _. split; [done|].
    intros it. cbn. by intros [= <-].
  - split; [|split].
    + split; intros k pix; cbn; by rewrite lookup_empty.
    + apply clear_wf.
    + exact Hmax.
  - intros img. cbn. intros [= <-]. split; [done|]. by eexists.
Qed.

(** The event loop delivering one queued fit. *)
Lemma pending_fit_inv s cursor n :
  pending_fit s = S n → view_inv s →
  view_inv (fit_long_side qt (with_pending_fit s n) None cursor) ∧
  pixel_mode (fit_long_side qt (with_pending_fit s n) None cursor) = false.
Proof.
  intros Hpend Hinv.
  assert (pixel_mode s = false) as Hpix.
  { destruct (pixel_mode s) eqn:Hpix; [|done].
    destruct Hinv as ([Hp _] & _). destruct (Hp Hpix) as (_ & _ & _ & H0).
    congruence. }
  split; [|by rewrite fit_long_side_mode].
  apply fit_long_side_inv. apply (view_inv_frame s); try done.
  intros Hp. change (pixel_mode s = true) in Hp. congruence.
Qed.

Lemma handle_inv s e s' :
  handle qt s e = Some s' → view_inv s →
  view_inv s' ∧
  ((is_wheel e = true → pending_fit s = 0%nat) → pixel_exact s → pixel_exact s').
Proof.
  destruct e; cbn [handle is_wheel].
  - intros Hw Hinv. destruct (wheelEvent_inv s event s' Hw Hinv) as [Hi He].
    split; [done|]. intros Hp. by apply He, Hp.
  - intros Hup Hinv. split; [by eapply on_visible_update_timeout_inv|].
    intros _. by eapply on_visible_update_timeout_exact.
  - intros [= <-] Hinv. split; [by apply on_zoom_end_inv|].
    intros _. by apply pixel_exact_frame.
  - intros [= <-] Hinv. split; [by apply load_image_inv|]. intros _ Hex.
    destruct (load_image_mode s qpixmap) as [->|Hn]; [done|].
    by apply pixel_exact_normal.
  - destruct (mouseDoubleClickEvent _ _ _ _) as [r|] eqn:Hr; [|done].
    intros [= <-] Hinv.
    destruct (mouseDoubleClickEvent_inv s pos cursor_local r Hr Hinv) as [Hi He].
    split; [done|]. intros _. exact He.
  - intros [= <-] Hinv. split; [by apply resizeEvent_inv|].
    intros _. apply resizeEvent_exact.
  - intros [= <-] Hinv. split; [by apply on_debounced_resize_inv|].
    intros _. apply on_debounced_resize_exact.
  - intros [= <-] Hinv. split; [by apply pan_inv|]. intros _. apply pan_exact.
  - destruct (pending_fit s) as [|n] eqn:Hpend.
    + intros [= <-] Hinv. done.
    + intros [= <-] Hinv.
      destruct (pending_fit_inv s cursor_local n Hpend Hinv) as [Hi Hn].
      split; [done|]. intros _ _. by apply pixel_exact_normal.
Qed.

Lemma handle_all_inv es s s' :
  handle_all qt s es = Some s' → view_inv s → view_inv s'.
Proof.
  revert s. induction es as [|e es IH]; intros s; cbn [handle_all].
  - by intros [= <-].
  - destruct (handle qt s e) as [s1|] eqn:He; [|done]. cbn.
    intros Hrun Hinv. eapply IH; [exact Hrun|].
    by destruct (handle_inv s e s1 He Hinv).
Qed.

Lemma handle_all_exact es s s' :
  handle_all qt s es = Some s' → wheels_find_no_fit qt s es = true →
  view_inv s → pixel_exact s → pixel_exact s'.
Proof.
  revert s. induction es as [|e es IH]; intros s; cbn [handle_all wheels_find_no_fit].
  - by intros [= <-].
  - destruct (handle qt s e) as [s1|] eqn:He; [|done]. cbn [mbind option_bind].
    intros Hrun [Hnow Hlater]%andb_prop Hinv Hex.
    destruct (handle_inv s e s1 He Hinv) as [Hinv1 Hex1].
    eapply IH; [exact Hrun|exact Hlater|exact Hinv1|].
    apply Hex1; [|done]. intros Hw. rewrite Hw in Hnow. cbn [negb orb] in Hnow.
    by apply Nat.eqb_eq in Hnow.
Qed.

Lemma initial_view_inv (vp : QSize) : view_inv (initial_view vp).
Proof.
  split; [split; [done|]|split].
  - intros _. split; [done|]. by intros it.
  - split; [|split; [apply new_wf|done]].
    split; intros k pix; cbn; by rewrite lookup_empty.
  - by intros img.
Qed.

(** X1. In every state the view reaches from its initial one through
    wheel, timer, load, double-click, resize and pan events and through
    deliveries of its queued fits, Pixel mode means: an image is loaded,
    the base pixmap item is hidden, the Normal-mode matrix is saved and
    no fit is queued; and if no wheel event of the run was handled while
    a fit was still queued, the scale is exactly 64.0 and auto-fit is
    off. *)
Theorem pixel_mode_invariant (vp : QSize) (es : list ViewEvent) s :
  handle_all qt (initial_view vp) es = Some s → pixel_mode s = true →
  is_Some (orig_qimage s) ∧
  (∃ it, pixmap_item s = Some it ∧ item_visible it = false) ∧
  is_Some (saved_transform s) ∧ pending_fit s = 0%nat ∧
  (wheels_find_no_fit qt (initial_view vp) es = true →
   current_scale s = 64%float ∧ auto_fit_mode s = false).
Proof.
  intros Hrun Hpix.
  destruct (handle_all_inv es _ _ Hrun (initial_view_inv vp)) as ([Hp _] & _).
  destruct (Hp Hpix) as (? & ? & ? & ?).
  split; [done|]. split; [done|]. split; [done|]. split; [done|].
  intros Hw.
  apply (handle_all_exact es _ _ Hrun Hw (initial_view_inv vp)); [|done].
  by apply pixel_exact_normal.
Qed.

(** X2. In every reachable state, Normal mode means: no tile is
    materialized, and the base pixmap item, if there is one, is visible. *)
Theorem normal_mode_invariant (vp : QSize) (es : list ViewEvent) s :
  handle_all qt (initial_view vp) es = Some s → pixel_mode s = false →
  tile_items s = ∅ ∧ ∀ it, pixmap_item s = Some it → item_visible it = true.
Proof.
  intros Hrun Hpix.
  destruct (handle_all_inv es _ _ Hrun (initial_view_inv vp)) as ([_ Hn] & _).
  by apply Hn.
Qed.

(** The rows of a rendered block are the image's pixels. *)
Lemma block_cells_lookup (img : QImage) (x0 y0 w h xx yy : Z) :
  0 ≤ xx < w → 0 ≤ yy < h →
  block_cells img x0 y0 w h !! Z.to_nat yy ≫= (.!! Z.to_nat xx)
  = Some (sub_pixel img (x0 + xx) (y0 + yy)).
Proof.
  intros Hx Hy. unfold block_cells.
  rewrite list_lookup_fmap, lookup_seqZ_lt by lia.
  cbn [fmap option_fmap option_map mbind option_bind].
  rewrite list_lookup_fmap, lookup_seqZ_lt by lia.
  cbn [fmap option_fmap option_map].
  do 3 f_equal; lia.
Qed.

(** X3. In every reachable state no tile bitmap is stale: a bitmap that
    is materialized or held by the cache under a key is the one
    [_make_tile_pixmap] renders for that key from the image and the
    grayscale flag the view has now; its block lies inside that image,
    and each of its cells holds the image's pixel at that place.  (So
    [load_image] leaves nothing of the previous image behind.) *)
Theorem tiles_never_stale (vp : QSize) (es : list ViewEvent) s k pix :
  handle_all qt (initial_view vp) es = Some s →
  tile_items s !! k = Some pix ∨ TileCache.cache (tile_cache s) !! k = Some pix →
  make_tile_pixmap s k.1 k.2 = Some pix ∧
  ∃ img, orig_qimage s = Some img ∧ tile_gray pix = is_grayscale s ∧
    ∀ xx yy, 0 ≤ xx < tile_w pix → 0 ≤ yy < tile_h pix →
      (0 ≤ tile_x0 pix + xx < img_width img ∧
       0 ≤ tile_y0 pix + yy < img_height img) ∧
      tile_cells pix !! Z.to_nat yy ≫= (.!! Z.to_nat xx)
      = Some (img_pixel img (tile_x0 pix + xx) (tile_y0 pix + yy)).
Proof.
  intros Hrun Hk.
  destruct (handle_all_inv es _ _ Hrun (initial_view_inv vp))
    as (_ & ([Hi Hc] & _) & _).
  assert (fresh_tile s k pix) as (Hk1 & Hk2 & Hmake) by (destruct Hk; auto).
  split; [done|].
  destruct (make_tile_pixmap_inv s k.1 k.2 pix Hmake)
    as (img & Himg & Hx & Hy & Hpix).
  exists img. split; [done|]. subst pix.
  cbn [tile_gray tile_w tile_h tile_x0 tile_y0 tile_cells].
  split; [done|]. intros xx yy Hxx Hyy.
  assert (0 ≤ k.1 * TILE_ORIG_PX + xx < img_width img ∧
          0 ≤ k.2 * TILE_ORIG_PX + yy < img_height img) as Hin.
  { unfold TILE_ORIG_PX in *. lia. }
  split; [exact Hin|].
  rewrite block_cells_lookup by done.
  unfold sub_pixel.
  replace (0 <=? k.1 * TILE_ORIG_PX + xx) with true by lia.
  replace (k.1 * TILE_ORIG_PX + xx <? img_width img) with true by lia.
  replace (0 <=? k.2 * TILE_ORIG_PX + yy) with true by lia.
  replace (k.2 * TILE_ORIG_PX + yy <? img_height img) with true by lia.
  done.
Qed.

(** X4. In every reachable state the view's cache is within its
    capacity and lists each cached key once, and the image kept for
    probing and tiling is not null and is the one the pixmap item shows. *)
Theorem reachable_cache_and_image (vp : QSize) (es : list ViewEvent) s :
  handle_all qt (initial_view vp) es = Some s →
  (size (TileCache.cache (tile_cache s)) ≤ CACHE_MAX_TILES)%nat ∧
  NoDup (TileCache.order (tile_cache s)) ∧
  (∀ k, k ∈ TileCache.order (tile_cache s) ↔
        is_Some (TileCache.cache (tile_cache s) !! k)) ∧
  (∀ img, orig_qimage s = Some img →
     0 < img_width img ∧ 0 < img_height img ∧
     ∃ it, pixmap_item s = Some it ∧ item_pixmap it = img).
Proof.
  intros Hrun.
  destruct (handle_all_inv es _ _ Hrun (initial_view_inv vp))
    as (_ & (_ & Hwf & Hmax) & Hi).
  split; [|split; [apply Hwf|split; [apply Hwf|]]].
  - rewrite (cache_wf_size _ Hwf), <- Hmax. apply Hwf.
  - intros img Himg. destruct (Hi img Himg) as (Hnull & Hit).
    unfold isNull in Hnull. apply orb_false_elim in Hnull as [Hw Hh].
    split; [lia|]. split; [lia|done].
Qed.

Lemma pixel_scale_nonzero : (64 =? 0)%float = false.
Proof. vm_compute. reflexivity. Qed.

(** X20. In Pixel mode at the scale 64.0 a wheel step forwards without
    a scroll modifier returns, stays in Pixel mode at the scale 64.0
    (the factor is [64.0 / 64.0]), turns auto-fit off, and touches
    neither the tiles nor the cache nor the saved matrix. *)
Theorem wheel_zoom_in_stays_in_pixel_mode s ev :
  pixel_mode s = true → current_scale s = 64%float → is_Some (pixmap_item s) →
  0 < angleDelta ev → ctrl_held ev = false → shift_held ev = false →
  ∃ s', wheelEvent qt s ev = Some s' ∧ pixel_mode s' = true ∧
        current_scale s' = 64%float ∧ auto_fit_mode s' = false ∧
        tile_items s' = tile_items s ∧ tile_cache s' = tile_cache s ∧
        saved_transform s' = saved_transform s.
Proof.
  intros Hpix Hs Hit Hpos Hctrl Hshift.
  rewrite wheelEvent_zoom; [|lia|done|done|done|by rewrite Hs; exact pixel_scale_nonzero].
  cbv zeta. rewrite Hpix. replace (angleDelta ev <? 0) with false by lia.
  cbn [andb].
  pose proof (wheel_zoomed_at_pixel_scale s ev Hs Hpos) as Hscale3.
  destruct (wheel_zoomed_fields qt s ev
    (new_scale_of s (angleDelta ev) / current_scale s)%float)
    as (Hpix3 & _ & _ & _ & Hsaved3 & Hauto3 & Hcache3 & Hitems3 & _).
  set (s3 := wheel_zoomed qt s ev _) in *. clearbody s3.
  exists s3. split; [|by rewrite Hpix3].
  destruct (_ && bool_decide _)%bool; [|done].
  unfold enter_pixel_mode. rewrite Hpix3, Hpix. by destruct (orig_qimage s3).
Qed.

(** X21. [resizeEvent] has no mode guard.  It takes the new viewport
    size and keeps the mode and the tiles.  With auto-fit off, or while
    zooming, it starts the debounce timer and leaves the matrix alone;
    with auto-fit off [_on_debounced_resize] then changes nothing.  With
    auto-fit on and not zooming it refits at once to the long-side scale
    of the new viewport, in Pixel mode as well. *)
Theorem resize_refits_only_with_auto_fit s (new_size : QSize) (cursor_local : QPoint) :
  let r := resizeEvent qt s new_size cursor_local in
  viewport r.1 = new_size ∧ pixel_mode r.1 = pixel_mode s ∧
  tile_items r.1 = tile_items s ∧
  (auto_fit_mode s = false ∨ zooming s = true →
   r.2 = true ∧ transform r.1 = transform s ∧
   (auto_fit_mode s = false → on_debounced_resize qt r.1 cursor_local = r.1)) ∧
  (auto_fit_mode s = true → zooming s = false → is_Some (pixmap_item s) →
   r.2 = false ∧ auto_fit_mode r.1 = true ∧
   current_scale r.1 = compute_long_side_scale (with_viewport s new_size)).
Proof.
  cbv zeta. unfold resizeEvent. cbv zeta.
  set (s2 := with_last_viewport_size _ _).
  assert (viewport s2 = new_size ∧ pixel_mode s2 = pixel_mode s ∧
          tile_items s2 = tile_items s ∧ transform s2 = transform s ∧
          auto_fit_mode s2 = auto_fit_mode s ∧ zooming s2 = zooming s ∧
          pixmap_item s2 = pixmap_item s ∧
          compute_long_side_scale s2
            = compute_long_side_scale (with_viewport s new_size))
    as (Hvp & Hpix & Hitems & Htr & Hauto & Hzoom & Hit & Hc).
  { repeat split. }
  clearbody s2.
  destruct (fit_long_side_frame qt s2
              (Some (get_reference_viewport_point s2 None cursor_local)) cursor_local)
    as ((Hpix4 & _ & _ & _ & _ & _ & _ & Hitems4 & Hvp4 & _) & _).
  pose proof (fit_long_side_transform qt s2
              (Some (get_reference_viewport_point s2 None cursor_local)) cursor_local)
    as Hfit.
  set (s4 := fit_long_side qt s2 _ cursor_local) in *. clearbody s4.
  rewrite Hauto, Hzoom.
  destruct (auto_fit_mode s) eqn:Ha, (zooming s) eqn:Hz; cbn [andb negb fst snd].
  - split; [done|]. split; [done|]. split; [done|]. split; [|done].
    intros _. split; [done|]. split; [done|]. done.
  - split; [congruence|]. split; [congruence|]. split; [congruence|].
    split; [by intros [|]|]. intros _ _ Hsome.
    destruct Hfit as (H11 & _ & Hon); [by rewrite Hit|].
    split; [done|]. split; [done|]. unfold current_scale. by rewrite H11.
  - split; [done|]. split; [done|]. split; [done|]. split; [|done].
    intros _. split; [done|]. split; [done|]. intros _.
    unfold on_debounced_resize. by rewrite Hzoom.
  - split; [done|]. split; [done|]. split; [done|]. split; [|done].
    intros _. split; [done|]. split; [done|]. intros _.
    unfold on_debounced_resize. rewrite Hzoom, Hauto.
    by destruct (pixmap_item s2).
Qed.

End ViewInvariant.

(* ================================================================== *)
(** * Which tiles are required, rendered and materialized *)
(* ================================================================== *)

Section TileGeometry.
Variable qt : QtGeometry.
Implicit Types (s : View) (k : TileKey) (c : TileCache.t TilePixmap)
  (items : gmap TileKey TilePixmap).

Lemma make_tile_pixmap_Some s img tx ty :
  orig_qimage s = Some img →
  tx * TILE_ORIG_PX < img_width img → ty * TILE_ORIG_PX < img_height img →
  make_tile_pixmap s tx ty =
    Some (mkTilePixmap (tx * TILE_ORIG_PX) (ty * TILE_ORIG_PX)
            (Z.min TILE_ORIG_PX (img_width img - tx * TILE_ORIG_PX))
            (Z.min TILE_ORIG_PX (img_height img - ty * TILE_ORIG_PX))
            (is_grayscale s)
            (block_cells img (tx * TILE_ORIG_PX) (ty * TILE_ORIG_PX)
               (Z.min TILE_ORIG_PX (img_width img - tx * TILE_ORIG_PX))
               (Z.min TILE_ORIG_PX (img_height img - ty * TILE_ORIG_PX)))).
Proof.
  intros Himg Hx Hy. unfold make_tile_pixmap. rewrite Himg. cbv zeta.
  unfold TILE_ORIG_PX, PIXEL_CELL in *.
  rewrite orb_false_intro by lia. rewrite orb_false_intro by lia. done.
Qed.

(** Every key of a required range can be rendered. *)
Lemma required_tile_renders s img margin rng k :
  orig_qimage s = Some img → 0 < img_width img → 0 < img_height img →
  visible_tile_range qt s margin = Some rng → k ∈ required_tiles rng →
  is_Some (make_tile_pixmap s k.1 k.2).
Proof.
  intros Himg Hw Hh Hrng Hk. destruct rng as [[[tx0 tx1] ty0] ty1].
  apply elem_of_required_tiles in Hk as [Hx Hy].
  destruct (visible_tile_range_bounds qt s img margin _ _ _ _ Himg Hrng)
    as (Hx0 & Hx1 & Hy0 & Hy1).
  unfold TILE_ORIG_PX in *.
  pose proof (Z.mul_div_le (img_width img - 1) 16 eq_refl).
  pose proof (Z.mul_div_le (img_height img - 1) 16 eq_refl).
  rewrite (make_tile_pixmap_Some s img); [by eexists|done|..];
    unfold TILE_ORIG_PX; lia.
Qed.

(** What a pass over [required] adds: the keys it met unmaterialized and
    left materialized; nothing is taken away. *)
Lemma foldl_add_tile_added s required c items added c' items' added' :
  foldl (add_tile s) (c, items, added) required = (c', items', added') →
  (∀ k, is_Some (items !! k) → is_Some (items' !! k)) ∧
  (∀ k, k ∈ added' ↔
        k ∈ added ∨ (k ∈ required ∧ items !! k = None ∧ is_Some (items' !! k))).
Proof.
  revert c items added.
  induction required as [|k0 required IH]; intros c items added.
  - simpl. intros [= <- <- <-]. split; [done|]. intros k. split; [by left|].
    intros [?|[Hk _]]; [done|]. by apply elem_of_nil in Hk.
  - cbn [foldl].
    destruct (add_tile s (c, items, added) k0) as [[c1 items1] added1] eqn:Hstep.
    intros Hfold.
    pose proof (foldl_add_tile_settles _ _ _ _ _ _ _ _ Hfold) as (_ & _ & Hdom).
    apply IH in Hfold as [Hmono Hadded].
    assert ((items1 = items ∧ added1 = added) ∨
            (items !! k0 = None ∧ added1 = added ++ [k0] ∧
             ∃ pix, items1 = <[k0 := pix]> items)) as Hcases.
    { revert Hstep. unfold add_tile. destruct (items !! k0) eqn:Hit.
      { intros [= <- <- <-]. by left. }
      destruct (TileCache.get c k0) as [[pix|] c2].
      { intros [= <- <- <-]. right. eauto. }
      destruct (make_tile_pixmap s k0.1 k0.2) as [pix|].
      - intros [= <- <- <-]. right. eauto.
      - intros [= <- <- <-]. by left. }
    destruct Hcases as [[-> ->]|(Hnone & -> & pix & ->)].
    + split; [done|]. intros k. rewrite Hadded. split.
      * intros [?|(Hk & ? & ?)]; [by left|]. right. split; [by right|done].
      * intros [?|(Hk & Hn & Hs)]; [by left|]. right.
        apply elem_of_cons in Hk as [->|Hk]; [|done].
        destruct (Hdom _ Hs) as [Hs'|Hk]; [|done].
        rewrite Hn in Hs'. by apply is_Some_None in Hs'.
    + split.
      * intros k Hk. apply Hmono. destruct (decide (k0 = k)) as [->|?].
        -- rewrite lookup_insert_eq. eauto.
        -- by rewrite lookup_insert_ne.
      * intros k. rewrite Hadded, elem_of_app, list_elem_of_singleton. split.
        -- intros [[?| ->]|(Hk & Hn & Hs)].
           ++ by left.
           ++ right. split; [by left|]. split; [done|].
              apply Hmono. rewrite lookup_insert_eq. eauto.
           ++ right. split; [by right|]. split; [|done].
              destruct (decide (k0 = k)) as [->|?].
              ** by rewrite lookup_insert_eq in Hn.
              ** by rewrite lookup_insert_ne in Hn.
        -- intros [?|(Hk & Hn & Hs)]; [by left; left|].
           destruct (decide (k0 = k)) as [->|Hne]; [by left; right|].
           right. apply elem_of_cons in Hk as [->|Hk]; [done|].
           split; [done|]. split; [|done]. by rewrite lookup_insert_ne.
Qed.

(** X5. Whatever rectangle Qt reports as visible and whatever the margin,
    the tile indices [_visible_tile_range] hands out lie in the tile grid
    of the image: no required tile starts left of, above, right of or
    below the image. *)
Theorem visible_tile_range_in_grid s (margin : Z) rng k :
  visible_tile_range qt s margin = Some rng → k ∈ required_tiles rng →
  ∃ img, orig_qimage s = Some img ∧
    0 ≤ k.1 ≤ (img_width img - 1) / TILE_ORIG_PX ∧
    0 ≤ k.2 ≤ (img_height img - 1) / TILE_ORIG_PX.
Proof.
  intros Hrng Hk. destruct rng as [[[tx0 tx1] ty0] ty1].
  apply elem_of_required_tiles in Hk as [Hx Hy].
  destruct (orig_qimage s) as [img|] eqn:Himg.
  - exists img. split; [done|].
    destruct (visible_tile_range_bounds qt s img margin _ _ _ _ Himg Hrng)
      as (Hx0 & Hx1 & Hy0 & Hy1). lia.
  - unfold visible_tile_range in Hrng. rewrite Himg in Hrng.
    injection Hrng as <- <- <- <-. lia.
Qed.

(** X6. [_make_tile_pixmap] renders a tile exactly when the tile's origin
    is left of and above the image's far edges; the block it renders is
    the 16 x 16 block at that origin clipped to the image, at least one
    pixel each way, and for a tile index that is not negative it lies
    inside the image. *)
Theorem make_tile_pixmap_clips s img (tx ty : Z) :
  orig_qimage s = Some img →
  (is_Some (make_tile_pixmap s tx ty) ↔
     tx * TILE_ORIG_PX < img_width img ∧ ty * TILE_ORIG_PX < img_height img) ∧
  (∀ pix, make_tile_pixmap s tx ty = Some pix →
     tile_x0 pix = tx * TILE_ORIG_PX ∧ tile_y0 pix = ty * TILE_ORIG_PX ∧
     1 ≤ tile_w pix ≤ TILE_ORIG_PX ∧ 1 ≤ tile_h pix ≤ TILE_ORIG_PX ∧
     tile_x0 pix + tile_w pix ≤ img_width img ∧
     tile_y0 pix + tile_h pix ≤ img_height img ∧
     (0 ≤ tx → 0 ≤ tile_x0 pix) ∧ (0 ≤ ty → 0 ≤ tile_y0 pix) ∧
     tile_gray pix = is_grayscale s).
Proof.
  intros Himg.
  destruct (decide (tx * TILE_ORIG_PX < img_width img ∧
                    ty * TILE_ORIG_PX < img_height img)) as [[Hx Hy]|Hout].
  - rewrite (make_tile_pixmap_Some s img tx ty Himg Hx Hy). split.
    + split; [done|]. by eexists.
    + intros pix [= <-]. cbn [tile_x0 tile_y0 tile_w tile_h tile_gray].
      unfold TILE_ORIG_PX in *. repeat split; lia.
  - assert (make_tile_pixmap s tx ty = None) as ->.
    { unfold make_tile_pixmap. rewrite Himg. cbv zeta.
      unfold TILE_ORIG_PX in *.
      destruct (Z.min 16 (img_width img - tx * 16) <=? 0) eqn:Hw; [done|].
      destruct (Z.min 16 (img_height img - ty * 16) <=? 0) eqn:Hh; [done|].
      lia. }
    split; [|done]. split; [by intros [? ?]|done].
Qed.

(** X7. In Pixel mode over an image that is not empty, a tile update
    leaves exactly the required tiles materialized; the keys it removes
    from the scene are the materialized ones that are no longer required,
    and the keys it adds are the required ones that were not
    materialized. *)
Theorem update_visible_tiles_materializes_required s img rng s1 removed added :
  orig_qimage s = Some img → 0 < img_width img → 0 < img_height img →
  pixel_mode s = true →
  visible_tile_range qt s 1 = Some rng →
  update_visible_tiles qt s = Some (s1, (removed, added)) →
  (∀ k, is_Some (tile_items s1 !! k) ↔ k ∈ required_tiles rng) ∧
  (∀ k, k ∈ removed ↔ is_Some (tile_items s !! k) ∧ k ∉ required_tiles rng) ∧
  (∀ k, k ∈ added ↔ k ∈ required_tiles rng ∧ tile_items s !! k = None).
Proof.
  intros Himg Hw Hh Hpix Hrng. unfold update_visible_tiles.
  rewrite Himg, Hpix, Hrng. cbn [negb mbind option_bind].
  set (required := required_tiles rng).
  set (to_remove := filter _ _).
  set (items1 := foldl _ (tile_items s) to_remove).
  destruct (foldl (add_tile s) _ required) as [[c items2] added'] eqn:Hfold.
  intros [= <- <- <-]. cbn [tile_items with_tiles].
  assert (∀ k, k ∈ to_remove ↔ is_Some (tile_items s !! k) ∧ k ∉ required)
    as Hremoved.
  { intros k. subst to_remove. rewrite list_elem_of_filter, list_elem_of_fmap.
    split.
    - intros [Hnreq ([k' pix] & -> & Hk)]. apply elem_of_map_to_list in Hk.
      split; [by eexists|done].
    - intros [[pix Hk] Hnreq]. split; [done|]. exists (k, pix).
      split; [done|]. by apply elem_of_map_to_list. }
  assert (∀ k, k ∈ required → items1 !! k = tile_items s !! k) as Hkept.
  { intros k Hk. subst items1. rewrite lookup_foldl_delete.
    destruct (decide (k ∈ to_remove)) as [Hin|]; [|done].
    apply Hremoved in Hin as [_ Hnreq]. done. }
  pose proof (foldl_add_tile_settles _ _ _ _ _ _ _ _ Hfold) as (Hreq & _ & Hdom).
  pose proof (foldl_add_tile_added _ _ _ _ _ _ _ _ Hfold) as (_ & Hadded).
  assert (∀ k, is_Some (items2 !! k) ↔ k ∈ required) as Hmat.
  { intros k. split.
    - intros Hk. apply Hdom in Hk as [Hk|Hk]; [|done].
      subst items1. rewrite lookup_foldl_delete in Hk.
      destruct (decide (k ∈ to_remove)) as [|Hnin]; [by apply is_Some_None in Hk|].
      destruct (decide (k ∈ required)) as [|Hnreq]; [done|].
      exfalso. apply Hnin, Hremoved. done.
    - intros Hk. destruct (Hreq k Hk) as [Hs|[_ Hmake]]; [done|].
      destruct (required_tile_renders s img 1 rng k Himg Hw Hh Hrng Hk) as [pix Hp].
      congruence. }
  split; [exact Hmat|]. split; [exact Hremoved|].
  intros k. rewrite Hadded. split.
  - intros [Hk|(Hk & Hn & _)]; [by apply elem_of_nil in Hk|].
    split; [done|]. by rewrite <- Hkept.
  - intros [Hk Hn]. right. split; [done|]. split; [by rewrite Hkept|].
    by apply Hmat.
Qed.

End TileGeometry.

(* ================================================================== *)
(** * The cache as a least-recently-used store *)
(* ================================================================== *)

Section CacheLRU.
Context {Pix : Type}.
Implicit Types (c : TileCache.t Pix) (k key : TileKey) (l : list TileKey)
  (m : gmap TileKey Pix).

Import TileCache.

Lemma elem_of_take_inv {A} (n : nat) (l : list A) (x : A) : x ∈ take n l → x ∈ l.
Proof. intros Hx. rewrite <- (take_drop n l). apply elem_of_app. by left. Qed.

Lemma remove_first_app_in key l1 l2 :
  key ∈ l1 → remove_first key (l1 ++ l2) = remove_first key l1 ++ l2.
Proof.
  induction l1 as [|k l1 IH]; simpl; intros Hin; [by apply elem_of_nil in Hin|].
  destruct (decide (k = key)); [done|].
  apply elem_of_cons in Hin as [?|Hin]; [congruence|]. by rewrite IH.
Qed.

Lemma get_returns_lookup c key : (get c key).1 = cache c !! key.
Proof. unfold get. by destruct (cache c !! key). Qed.

(** The deque that [put] appends the key to holds the other keys of the
    cache, once each. *)
Lemma put_order_before c key :
  cache_wf c →
  let order1 := match cache c !! key with
                | Some _ => remove_first key (order c)
                | None => order c
                end in
  ((key ∉ order1) ∧ NoDup order1 ∧ (∀ k, k ∈ order1 ↔ k ∈ order c ∧ k ≠ key) ∧
   (length order1 ≤ max_tiles c)%nat ∧
   (is_Some (cache c !! key) → S (length order1) = length (order c))).
Proof.
  intros (Hnd & Hdom & Hlen). cbv zeta.
  destruct (cache c !! key) as [pix|] eqn:Hk.
  - assert (key ∈ order c) as Hin by (apply Hdom; eauto).
    pose proof (remove_first_length key _ Hin) as Hl.
    split; [rewrite remove_first_elem by done; naive_solver|].
    split; [by apply remove_first_NoDup|].
    split; [intros k; by apply remove_first_elem|].
    split; [lia|done].
  - assert (key ∉ order c) as Hnin.
    { intros Hin. apply Hdom in Hin as [? ?]. congruence. }
    split; [done|]. split; [done|]. split; [|split; [done|by intros [? ?]]].
    intros k. split; [|naive_solver]. intros Hin. split; [done|]. by intros ->.
Qed.

(** X8. A bitmap just stored is the one read back, provided the cache
    can hold at least one. *)
Theorem put_then_get c key (pixmap : Pix) :
  cache_wf c → (1 ≤ max_tiles c)%nat →
  (get (put c key pixmap) key).1 = Some pixmap.
Proof.
  intros Hwf Hcap. rewrite get_returns_lookup.
  destruct (put_order_before c key Hwf) as (Hnin & _ & _ & Hlen & _).
  unfold put. rewrite evict_spec. cbn [cache].
  rewrite lookup_foldl_delete. rewrite decide_False; [apply lookup_insert_eq|].
  intros Hin. apply Hnin.
  rewrite take_app_le in Hin by (rewrite length_app; simpl; lia).
  by apply elem_of_take_inv in Hin.
Qed.

(** X9. Storing a new key into a full cache evicts the key at the old
    end of the deque, the least recently used one, and nothing else. *)
Theorem put_full_evicts_oldest c (old : TileKey) (rest : list TileKey)
    key (pixmap : Pix) :
  cache_wf c → order c = old :: rest → length (order c) = max_tiles c →
  cache c !! key = None →
  cache (put c key pixmap) = <[key := pixmap]> (delete old (cache c)) ∧
  order (put c key pixmap) = rest ++ [key].
Proof.
  intros (Hnd & Hdom & _) Horder Hfull Hnew.
  assert (old ≠ key) as Hne.
  { intros ->. assert (key ∈ order c) as Hin by (rewrite Horder; by left).
    apply Hdom in Hin as [? ?]. congruence. }
  unfold put. rewrite Hnew, evict_spec. cbn [cache order].
  rewrite <- Hfull, Horder.
  replace (length ((old :: rest) ++ [key]) - length (old :: rest))%nat with 1%nat
    by (rewrite length_app; simpl; lia).
  cbn [app take drop foldl]. split; [|done].
  by rewrite delete_insert_ne.
Qed.

(** X10. A key that was just read survives the next store of another
    key, however full the cache is, provided the cache can hold two. *)
Theorem get_protects_from_eviction c key (pix : Pix) key' (pixmap : Pix) :
  cache_wf c → (2 ≤ max_tiles c)%nat →
  cache c !! key = Some pix → key' ≠ key →
  cache (put (get c key).2 key' pixmap) !! key = Some pix.
Proof.
  intros Hwf Hcap Hk Hne.
  pose proof (get_wf c key Hwf) as Hwf1.
  destruct (put_order_before c key Hwf) as (Hnin & Hnd & Hin1 & Hlen1 & _).
  rewrite Hk in Hnin, Hnd, Hin1, Hlen1.
  assert ((get c key).2 = mk (max_tiles c) (cache c) (remove_first key (order c) ++ [key]))
    as Hget by (unfold get; by rewrite Hk).
  rewrite Hget in *. set (r := remove_first key (order c)) in *.
  unfold put. rewrite evict_spec. cbn [cache order max_tiles].
  rewrite lookup_foldl_delete. rewrite decide_False.
  { rewrite lookup_insert_ne by done. exact Hk. }
  set (order1 := match cache c !! key' with Some _ => _ | None => _ end).
  assert (∃ pre, order1 = pre ++ [key] ∧ (key ∉ pre) ∧
                 (length pre < max_tiles c)%nat) as (pre & -> & Hpre & Hlen).
  { subst order1. destruct (cache c !! key') as [pix'|] eqn:Hk'.
    - assert (key' ∈ r) as Hin.
      { apply Hin1. split; [|done]. apply Hwf. eauto. }
      exists (remove_first key' r). rewrite remove_first_app_in by done.
      split; [done|]. split.
      + rewrite remove_first_elem by done. naive_solver.
      + pose proof (remove_first_length key' r Hin). lia.
    - exists r. split; [done|]. split; [done|].
      destruct Hwf1 as (_ & _ & Hl). cbn [order max_tiles] in Hl.
      rewrite length_app in Hl. simpl in Hl. lia. }
  intros Hin. apply Hpre.
  rewrite <- app_assoc in Hin.
  rewrite take_app_le in Hin by (rewrite !length_app; simpl; lia).
  by apply elem_of_take_inv in Hin.
Qed.

(** X11. Storing under a key that is already cached replaces its bitmap
    and makes it the most recent key; no key is evicted. *)
Theorem put_existing_overwrites c key (old pixmap : Pix) :
  cache_wf c → cache c !! key = Some old →
  cache (put c key pixmap) = <[key := pixmap]> (cache c) ∧
  order (put c key pixmap) = remove_first key (order c) ++ [key].
Proof.
  intros Hwf Hk.
  destruct (put_order_before c key Hwf) as (_ & _ & _ & _ & Hlen).
  rewrite Hk in Hlen. specialize (Hlen ltac:(eauto)).
  destruct Hwf as (_ & _ & Hcap).
  unfold put. rewrite Hk, evict_spec. cbn [cache order].
  replace (length (remove_first key (order c) ++ [key]) - max_tiles c)%nat with 0%nat
    by (rewrite length_app; simpl; lia).
  done.
Qed.

End CacheLRU.

(* ================================================================== *)
(** * Fitting and smoothing *)
(* ================================================================== *)

(** ** The fit scale *)

Lemma Prim2SF_fit_floor : ∃ m e, Prim2SF 0.0001 = S754_finite false m e.
Proof. vm_compute. eauto. Qed.

Lemma fit_floor_le_one : (0.0001 <=? 1)%float = true.
Proof. vm_compute. reflexivity. Qed.

Lemma fit_floor_refl : (0.0001 <=? 0.0001)%float = true.
Proof. vm_compute. reflexivity. Qed.

Lemma py_max_lower (a b : float) :
  (a <=? a)%float = true → (a <=? Py.max a b)%float = true.
Proof.
  intros Ha. unfold Py.max. destruct (a <? b)%float eqn:Hlt; [|done].
  by apply ltb_leb.
Qed.

Lemma compute_long_side_scale_lower (s : View) :
  (0.0001 <=? compute_long_side_scale s)%float = true.
Proof.
  unfold compute_long_side_scale.
  destruct (pixmap_item s) as [it|]; [|exact fit_floor_le_one].
  destruct (_ || _); [exact fit_floor_le_one|].
  cbv zeta. apply py_max_lower, fit_floor_refl.
Qed.

(** A scale that is at least 0.0001 can be divided by. *)
Lemma above_fit_floor_nonzero (x : float) :
  (0.0001 <=? x)%float = true → (x =? 0)%float = false.
Proof.
  rewrite leb_spec, FloatAxioms.eqb_spec.
  destruct Prim2SF_fit_floor as (m & e & ->).
  unfold SFleb, SFeqb, SFcompare.
  destruct (Prim2SF x) as [[]|[]| |[] mx ex]; done.
Qed.

Section FitFacts.
Variable qt : QtGeometry.
Implicit Types (s : View).

(** X12. With an image shown, [fit_long_side] installs exactly the scale
    [_compute_long_side_scale] computes, on both axes, and turns auto-fit
    on; it changes neither the mode nor the tiles nor the cache, and the
    scale it would compute next is the same one. *)
Theorem fit_long_side_installs_fit_scale s ref cursor :
  is_Some (pixmap_item s) →
  let s' := fit_long_side qt s ref cursor in
  current_scale s' = compute_long_side_scale s ∧
  m22 (transform s') = compute_long_side_scale s ∧
  auto_fit_mode s' = true ∧
  pixel_mode s' = pixel_mode s ∧ tile_items s' = tile_items s ∧
  tile_cache s' = tile_cache s ∧
  compute_long_side_scale s' = compute_long_side_scale s.
Proof.
  intros Hit. cbv zeta.
  destruct (fit_long_side_transform qt s ref cursor Hit) as (H11 & H22 & _).
  split; [exact H11|]. split; [exact H22|].
  destruct Hit as [it Hit]. unfold fit_long_side. rewrite Hit.
  split; [reflexivity|]. split; [reflexivity|]. split; [reflexivity|].
  split; [reflexivity|].
  unfold compute_long_side_scale.
  cbn [pixmap_item viewport with_auto_fit with_zoom_flags view_translate
       setTransform with_scroll with_transform].
  reflexivity.
Qed.

(** X13. The scale [_compute_long_side_scale] returns is never below
    0.0001, whatever the image and viewport sizes (it is in particular
    not NaN and not zero), and it is 1.0 when there is no pixmap item or
    the pixmap has a zero side. *)
Theorem compute_long_side_scale_floor s :
  (0.0001 <=? compute_long_side_scale s)%float = true ∧
  (compute_long_side_scale s =? 0)%float = false ∧
  (pixmap_item s = None → compute_long_side_scale s = 1%float) ∧
  (∀ it, pixmap_item s = Some it →
     img_width (item_pixmap it) = 0 ∨ img_height (item_pixmap it) = 0 →
     compute_long_side_scale s = 1%float).
Proof.
  pose proof (compute_long_side_scale_lower s) as Hlow.
  split; [exact Hlow|]. split; [by apply above_fit_floor_nonzero|].
  unfold compute_long_side_scale. split; [by intros ->|].
  intros it -> Hzero.
  rewrite (proj2 (orb_true_iff _ _)); [done|].
  destruct Hzero as [Hz|Hz]; [left|right]; by apply Z.eqb_eq.
Qed.

(** ** Smoothing *)

Lemma ltb_not_leb (a b : float) : (a <? b)%float = true → (b <=? a)%float = false.
Proof.
  rewrite ltb_spec, leb_spec. unfold SFltb, SFleb.
  destruct (SFcompare (Prim2SF a) (Prim2SF b)) as [c|] eqn:Hc; [|done].
  rewrite (SFcompare_antisym _ _ _ Hc). by destruct c.
Qed.

Lemma leb_or_ltb (a b t : float) :
  (a <=? t)%float = true → (b <=? b)%float = true → (b <? t)%float = false →
  (t <=? b)%float = true.
Proof.
  rewrite !ltb_spec, !leb_spec. unfold SFltb, SFleb.
  intros Ha Hb Hlt.
  assert (Prim2SF t ≠ S754_nan) as Ht.
  { intros Heq. rewrite Heq in Ha. by destruct (Prim2SF a). }
  assert (Prim2SF b ≠ S754_nan) as Hb'.
  { intros Heq. by rewrite Heq in Hb. }
  destruct (SFcompare_total _ _ Hb' Ht) as [c Hc].
  rewrite Hc in Hlt. rewrite (SFcompare_antisym _ _ _ Hc).
  by destruct c.
Qed.

Lemma smooth_threshold_refl : (smooth_threshold <=? smooth_threshold)%float = true.
Proof. vm_compute. reflexivity. Qed.

(** X14. After a zoom step, smooth resampling is on exactly when the
    clamped target scale is at most the threshold 2.5, whatever the flag
    was before. *)
Theorem wheel_zoom_smoothing s ev (f : float) :
  smooth_enabled (wheel_zoomed qt s ev f)
  = (new_scale_of s (angleDelta ev) <=? smooth_threshold)%float.
Proof.
  change (smooth_enabled (wheel_zoomed qt s ev f))
    with (smooth_after (new_scale_of s (angleDelta ev)) (smooth_enabled s)).
  unfold new_scale_of.
  destruct (clamp_scale_range (current_scale s * zoom_factor (angleDelta ev))%float)
    as [Hlo _].
  set (n := clamp_scale _) in *. clearbody n. unfold smooth_after.
  destruct (smooth_threshold <? n)%float eqn:Hlt.
  - rewrite (ltb_not_leb _ _ Hlt). by destruct (smooth_enabled s).
  - rewrite (leb_or_ltb MIN_SCALE smooth_threshold n Hlo smooth_threshold_refl Hlt).
    by destruct (smooth_enabled s).
Qed.

End FitFacts.

(* ================================================================== *)
(** * Reference point, double click, pen colour, gallery *)
(* ================================================================== *)

(** X15. In a viewport of positive size the reference point that
    [_get_reference_viewport_point] picks always lies inside the
    viewport, wherever the explicit point and the cursor are. *)
Theorem reference_point_in_viewport (s : View) (explicit_point : option QPoint)
    (cursor_local : QPoint) :
  0 < sz_width (viewport s) → 0 < sz_height (viewport s) →
  in_viewport s (get_reference_viewport_point s explicit_point cursor_local) = true.
Proof.
  intros Hw Hh.
  assert (in_viewport s (viewport_center s) = true) as Hcenter.
  { unfold in_viewport, viewport_center. cbn [pt_x pt_y].
    pose proof (Z.div_pos (sz_width (viewport s)) 2 ltac:(lia) eq_refl).
    pose proof (Z.div_pos (sz_height (viewport s)) 2 ltac:(lia) eq_refl).
    pose proof (Z.div_lt (sz_width (viewport s)) 2 Hw eq_refl).
    pose proof (Z.div_lt (sz_height (viewport s)) 2 Hh eq_refl).
    repeat (apply andb_true_intro; split); lia. }
  assert (in_viewport s
            (if in_viewport s cursor_local then cursor_local else viewport_center s)
          = true) as Hcursor.
  { by destruct (in_viewport s cursor_local) eqn:Hc. }
  unfold get_reference_viewport_point. cbv zeta.
  destruct explicit_point as [e|]; [|done].
  by destruct (in_viewport s e) eqn:He.
Qed.

Section DoubleClick.
Variable qt : QtGeometry.

(** What the middle branch of [mouseDoubleClickEvent] leaves. *)
Lemma double_click_fitted (s : View) (ref cursor : QPoint) :
  is_Some (pixmap_item s) → (pixel_mode s = true → is_Some (orig_qimage s)) →
  let s1 := with_visible_update_timer s false in
  let s2 := if pixel_mode s1 then exit_pixel_mode qt s1 (Some ref) cursor else s1 in
  let s4 := fit_long_side qt (processEvents qt s2 cursor) (Some ref) cursor in
  pixel_mode (with_auto_fit s4 true) = false ∧
  current_scale (with_auto_fit s4 true) = compute_long_side_scale s ∧
  compute_long_side_scale (with_auto_fit s4 true) = compute_long_side_scale s.
Proof.
  intros [it Hit] Himg. cbv zeta.
  set (s1 := with_visible_update_timer s false).
  assert (pixel_mode s1 = pixel_mode s ∧ orig_qimage s1 = orig_qimage s ∧
          pixmap_item s1 = pixmap_item s ∧ viewport s1 = viewport s)
    as (Hp1 & Hi1 & Hit1 & Hvp1) by done.
  clearbody s1.
  set (s2 := if pixel_mode s1 then _ else s1).
  assert (pixel_mode s2 = false ∧
          item_pixmap <$> pixmap_item s2 = item_pixmap <$> pixmap_item s1 ∧
          viewport s2 = viewport s1) as (Hp2 & Hit2 & Hvp2).
  { subst s2. destruct (pixel_mode s1) eqn:Hpix; [|done].
    assert (is_Some (orig_qimage s1)) as Hi by (rewrite Hi1; apply Himg; congruence).
    destruct (exit_pixel_mode_state qt s1 (Some ref) cursor Hpix Hi)
      as (Hp & _ & _ & _ & _ & _ & _ & Hvp & _ & Hitem).
    split; [done|]. split; [|done]. rewrite Hitem. by destruct (pixmap_item s1). }
  clearbody s2.
  destruct (processEvents_frame qt s2 cursor)
    as ((Hp3 & _ & _ & Hit3 & _ & _ & _ & _ & Hvp3 & _) & _ & Hc3).
  set (s3 := processEvents qt s2 cursor) in *. clearbody s3.
  assert (is_Some (pixmap_item s3)) as Hsome3.
  { rewrite Hit3. rewrite Hit1, Hit in Hit2.
    destruct (pixmap_item s2); [by eexists|done]. }
  assert (compute_long_side_scale s3 = compute_long_side_scale s) as Hfit.
  { rewrite Hc3. apply compute_long_side_scale_ext; congruence. }
  destruct (fit_long_side_transform qt s3 (Some ref) cursor Hsome3) as (H11 & _).
  destruct (fit_long_side_frame qt s3 (Some ref) cursor)
    as ((Hp4 & _ & _ & Hit4 & _ & _ & _ & _ & Hvp4 & _) & _).
  set (s4 := fit_long_side qt s3 (Some ref) cursor) in *. clearbody s4.
  split; [cbn; congruence|]. split.
  - change (current_scale (with_auto_fit s4 true)) with (m11 (transform s4)).
    congruence.
  - rewrite <- Hfit. apply compute_long_side_scale_ext; [|cbn; congruence].
    cbn [pixmap_item with_auto_fit with_zoom_flags]. by rewrite Hit4.
Qed.

(** X16. With an image shown, a double click whose x position is at
    most 40 emits [prevRequested], one at least [width - 40] (and above
    40) emits [nextRequested], and both leave the view as it was.  Any
    other double click emits no signal and ends, from either mode, in
    Normal mode with auto-fit on and the scale exactly the fit scale of
    the image in the viewport. *)
Theorem double_click_fits (s : View) (pos : QPointF) (cursor_local : QPoint) :
  is_Some (pixmap_item s) → (pixel_mode s = true → is_Some (orig_qimage s)) →
  let in_left := (ptf_x pos <=? Py.float_of_Z hotspot_width)%float in
  let in_right :=
    (Py.float_of_Z (sz_width (viewport s) - hotspot_width) <=? ptf_x pos)%float in
  (in_left = true →
   mouseDoubleClickEvent qt s pos cursor_local = Some (s, [PrevRequested])) ∧
  (in_left = false → in_right = true →
   mouseDoubleClickEvent qt s pos cursor_local = Some (s, [NextRequested])) ∧
  (in_left = false → in_right = false →
   ∀ rx ry, Py.int (ptf_x pos) = Some rx → Py.int (ptf_y pos) = Some ry →
   ∃ s', mouseDoubleClickEvent qt s pos cursor_local = Some (s', []) ∧
         pixel_mode s' = false ∧ auto_fit_mode s' = true ∧
         current_scale s' = compute_long_side_scale s ∧
         compute_long_side_scale s' = compute_long_side_scale s).
Proof.
  intros Hitem Himg. cbv zeta. unfold mouseDoubleClickEvent.
  destruct Hitem as [it Hit]. rewrite Hit. cbv zeta.
  split; [by intros ->|]. split; [by intros -> ->|].
  intros -> -> rx ry -> ->. cbn [mbind option_bind].
  eexists. split; [reflexivity|].
  destruct (double_click_fitted s (mkQPoint rx ry) cursor_local
              ltac:(by rewrite Hit) Himg) as (Hp & Hs & Hc).
  split; [exact Hp|]. split; [reflexivity|]. split; [exact Hs|exact Hc].
Qed.

End DoubleClick.

(** ** Pen colour *)

(** X17. On a pixel whose three channels are equal, the numbers are
    written in black exactly when the value exceeds 140 and in white
    otherwise: the weights 0.299, 0.587 and 0.114 sum, in binary64, to a
    luminance that compares with 140 as the value itself does. *)
Theorem gray_pixel_pen (v : Z) :
  0 ≤ v ≤ 255 → pen_is_black v v v = (140 <? v).
Proof.
  intros Hv.
  assert (forallb (λ v, Bool.eqb (pen_is_black v v v) (140 <? v)) (seqZ 0 256) = true)
    as Hall by (vm_compute; reflexivity).
  rewrite forallb_forall in Hall.
  apply Bool.eqb_prop, Hall, list_elem_of_In, elem_of_seqZ. lia.
Qed.

(** ** Gallery *)

Section GalleryFacts.
Context {Path : Type}.
Implicit Types (g : Gallery Path).

Lemma py_index_in_range (l : list Path) (i : Z) :
  0 ≤ i < Z.of_nat (length l) → is_Some (py_index l i).
Proof.
  intros Hi. unfold py_index. rewrite (proj2 (Z.leb_le 0 i)) by lia.
  apply lookup_lt_is_Some. lia.
Qed.

Lemma show_next_unfold g :
  folder_images g ≠ [] →
  show_next g =
    (let i := (current_index g + 1) `mod` Z.of_nat (length (folder_images g)) in
     path ← py_index (folder_images g) i;
     Some (mkGallery (folder_images g) i, LoadPath path)).
Proof. unfold show_next. by destruct (folder_images g). Qed.

Lemma show_prev_unfold g :
  folder_images g ≠ [] →
  show_prev g =
    (let i := (current_index g - 1) `mod` Z.of_nat (length (folder_images g)) in
     path ← py_index (folder_images g) i;
     Some (mkGallery (folder_images g) i, LoadPath path)).
Proof. unfold show_prev. by destruct (folder_images g). Qed.

Lemma folder_length_pos g :
  folder_images g ≠ [] → 0 < Z.of_nat (length (folder_images g)).
Proof. destruct (folder_images g); [done|]. simpl. lia. Qed.

(** X18. With a folder that is not empty, [show_next] and [show_prev]
    never raise [IndexError], whatever the index was (the initial -1
    included): the new index is inside the list and the path handed to
    [_load_image] is the entry at that index; the list is kept. *)
Theorem gallery_step_in_range g :
  folder_images g ≠ [] →
  loads_entry g (show_next g) ∧ loads_entry g (show_prev g).
Proof.
  intros Hne. pose proof (folder_length_pos g Hne) as Hlen.
  assert (∀ i, ∃ path,
    py_index (folder_images g) (i `mod` Z.of_nat (length (folder_images g)))
      = Some path ∧
    folder_images g !! Z.to_nat (i `mod` Z.of_nat (length (folder_images g)))
      = Some path) as Hidx.
  { intros i. pose proof (Z.mod_pos_bound i _ Hlen) as Hi.
    destruct (py_index_in_range (folder_images g) _ Hi) as [path Hpath].
    exists path. split; [done|]. revert Hpath. unfold py_index.
    by rewrite (proj2 (Z.leb_le 0 _)) by lia. }
  unfold loads_entry. split.
  - rewrite show_next_unfold by done. cbv zeta.
    destruct (Hidx (current_index g + 1)) as (path & -> & Hl).
    eexists _, path. split; [reflexivity|]. split; [done|]. split; [|done].
    by apply Z.mod_pos_bound.
  - rewrite show_prev_unfold by done. cbv zeta.
    destruct (Hidx (current_index g - 1)) as (path & -> & Hl).
    eexists _, path. split; [reflexivity|]. split; [done|]. split; [|done].
    by apply Z.mod_pos_bound.
Qed.

(** X19. From an index inside the list, [show_prev] undoes [show_next]
    and [show_next] undoes [show_prev]: both steps return and the
    gallery is back where it was, also across the wrap at either end. *)
Theorem gallery_steps_are_inverse g :
  0 ≤ current_index g < Z.of_nat (length (folder_images g)) →
  (show_next g ≫= λ r, fst <$> show_prev r.1) = Some g ∧
  (show_prev g ≫= λ r, fst <$> show_next r.1) = Some g.
Proof.
  intros Hi.
  assert (folder_images g ≠ []) as Hne.
  { intros Hnil. rewrite Hnil in Hi. simpl in Hi. lia. }
  pose proof (folder_length_pos g Hne) as Hlen.
  set (n := Z.of_nat (length (folder_images g))) in *.
  assert (((current_index g + 1) `mod` n - 1) `mod` n = current_index g) as Hnp.
  { rewrite Zminus_mod_idemp_l.
    replace (current_index g + 1 - 1) with (current_index g) by lia.
    by apply Z.mod_small. }
  assert (((current_index g - 1) `mod` n + 1) `mod` n = current_index g) as Hpn.
  { rewrite Zplus_mod_idemp_l.
    replace (current_index g - 1 + 1) with (current_index g) by lia.
    by apply Z.mod_small. }
  destruct (py_index_in_range (folder_images g) (current_index g) Hi) as [p0 Hp0].
  split.
  - rewrite show_next_unfold by done. cbv zeta. fold n.
    destruct (py_index_in_range (folder_images g) ((current_index g + 1) `mod` n)
                (Z.mod_pos_bound _ _ Hlen)) as [p1 ->].
    cbn [mbind option_bind fst].
    rewrite show_prev_unfold by done. cbv zeta.
    cbn [folder_images current_index]. fold n. rewrite Hnp, Hp0.
    cbn [mbind option_bind fmap option_fmap option_map fst]. by destruct g.
  - rewrite show_prev_unfold by done. cbv zeta. fold n.
    destruct (py_index_in_range (folder_images g) ((current_index g - 1) `mod` n)
                (Z.mod_pos_bound _ _ Hlen)) as [p1 ->].
    cbn [mbind option_bind fst].
    rewrite show_next_unfold by done. cbv zeta.
    cbn [folder_images current_index]. fold n. rewrite Hpn, Hp0.
    cbn [mbind option_bind fmap option_fmap option_map fst]. by destruct g.
Qed.

End GalleryFacts.

(** C3, witness: 201 numbered tiles. *)
Lemma tile_cache_capacity_witness :
  let first := ((0, 0), 0%nat) in
  let others := numbered_tiles 200 in
  let ops := [TileCache.Put (0, 0) 7%nat; TileCache.Get (0, 0); TileCache.Clear] in
  (size (TileCache.cache (TileCache.run (TileCache.new CACHE_MAX_TILES) ops))
     ≤ CACHE_MAX_TILES)%nat ∧
  TileCache.cache (TileCache.put_all (TileCache.new CACHE_MAX_TILES) (first :: others))
    !! first.1 = None ∧
  (∀ kv, kv ∈ others →
     TileCache.cache (TileCache.put_all (TileCache.new CACHE_MAX_TILES) (first :: others))
       !! kv.1 = Some kv.2).
Proof.
  intros first others ops.
  apply (tile_cache_capacity ops first others).
  - refine (bool_decide_unpack (NoDup (first.1 :: others.*1)) _).
    vm_compute. reflexivity.
  - reflexivity.
Defined.

(** C6, as stated, fails: a 150 x 150 image is sampled at every pixel,
    22500 points, more than the 100 x 100 the claim allows. *)
Lemma detect_grayscale_grid_exceeds_100 :
  let img := uniform_image 150 150 (7, 7, 7) in
  ¬ (length (grid_xs img) ≤ 100 ∧ length (grid_ys img) ≤ 100)%nat.
Proof. vm_compute. intros [H _]. lia. Qed.

Example uniform_gray_50x50_is_grayscale :
  detect_grayscale (Some (uniform_image 50 50 (128, 128, 128))) = true.
Proof. vm_compute. reflexivity. Qed.

Example sampled_red_pixel_is_not_grayscale :
  6 ∈ grid_xs one_red_pixel ∧ 9 ∈ grid_ys one_red_pixel ∧
  detect_grayscale (Some one_red_pixel) = false.
Proof.
  split; [|split].
  - refine (bool_decide_unpack (6 ∈ grid_xs one_red_pixel) _). by vm_compute.
  - refine (bool_decide_unpack (9 ∈ grid_ys one_red_pixel) _). by vm_compute.
  - vm_compute. reflexivity.
Qed.

(** The same red pixel one column to the right is between grid points
    and goes unnoticed. *)
Example unsampled_red_pixel_goes_unnoticed :
  detect_grayscale
    (Some (mkQImage 300 300
       (fun x y => if (x =? 7) && (y =? 9) then (255, 0, 0) else (128, 128, 128))))
  = true.
Proof. vm_compute. reflexivity. Qed.


(* ================================================================== *)
(** * The theorems at concrete inputs *)
(* ================================================================== *)

(** C1, as stated, fails: from scale 0.077, inside [[0.05, 64.0]], a
    wheel delta of -240 clamps the target to 0.05, and the view ends at
    0.049999999999999996, which is neither the clamped target nor inside
    the interval. *)
Lemma wheel_zoom_leaves_scale_range :
  (MIN_SCALE <=? current_scale wide_view)%float = true ∧
  (current_scale wide_view <=? max_scale)%float = true ∧
  new_scale_of wide_view (-240) = MIN_SCALE ∧
  current_scale <$> wheelEvent plain_geometry wide_view (wheel_at_center (-240))
    = Some 0.049999999999999996%float ∧
  (0.049999999999999996 <? MIN_SCALE)%float = true.
Proof. vm_compute. repeat split. Qed.

(** C1 (amended), witness: the same step. *)
Lemma wheel_zoom_scale_witness :
  let s := wide_view in
  let ev := wheel_at_center (-240) in
  let new_scale := new_scale_of s (angleDelta ev) in
  let factor_to_apply := (new_scale / current_scale s)%float in
  (MIN_SCALE <=? new_scale)%float = true ∧
  (new_scale <=? max_scale)%float = true ∧
  (((63 <=? new_scale)%float && (angleDelta ev >? 0)
    && bool_decide (is_Some (orig_qimage s)))%bool = false →
   ∃ s', wheelEvent plain_geometry s ev = Some s' ∧ pixel_mode s' = false ∧
         current_scale s' =
           if (factor_to_apply =? 1)%float then current_scale s
           else match QTransform_.type (transform s) with
                | QTransform_.TxScale => (current_scale s * factor_to_apply)%float
                | _ => factor_to_apply
                end).
Proof.
  apply (wheel_zoom_scale plain_geometry wide_view (wheel_at_center (-240))).
  - reflexivity.
  - reflexivity.
  - discriminate.
  - eexists. reflexivity.
  - reflexivity.
  - vm_compute. reflexivity.
Defined.

(** A matrix within [1e-12] of the identity is not multiplied: one notch
    forwards from the scale 0.99999999999999989 has the target
    1.1799999999999997 and leaves the factor [new_scale / scale], which
    is 1.18, as the scale; the product with the old scale would have been
    the target. *)
Example wheel_zoom_near_identity_assigns :
  let s := normal_view example_viewport (uniform_image 40 30 (10, 10, 10))
             0.99999999999999989 in
  let new_scale := new_scale_of s 120 in
  QTransform_.type (transform s) = QTransform_.TxNone ∧
  new_scale = 1.1799999999999997%float ∧
  (new_scale / current_scale s)%float = 1.18%float ∧
  current_scale <$> wheelEvent plain_geometry s (wheel_at_center 120)
    = Some 1.18%float ∧
  (current_scale s * (new_scale / current_scale s))%float = new_scale.
Proof. vm_compute. repeat split. Qed.

(** C2, witness: entering from the small gray view. *)
Lemma enter_then_exit_restores_transform_witness :
  let s1 := default small_gray_view
              (enter_pixel_mode plain_geometry small_gray_view None
                 (mkQPoint 5 5)) in
  saved_transform s1 = Some (transform small_gray_view) ∧
  transform (exit_pixel_mode plain_geometry s1 (Some (mkQPoint 10 10))
               (mkQPoint 7 7))
    = transform small_gray_view ∧
  pixel_mode (exit_pixel_mode plain_geometry s1 (Some (mkQPoint 10 10))
                (mkQPoint 7 7)) = false.
Proof.
  apply (enter_then_exit_restores_transform plain_geometry small_gray_view None
           (Some (mkQPoint 10 10)) (mkQPoint 5 5) (mkQPoint 7 7)).
  - reflexivity.
  - eexists. reflexivity.
  - vm_compute. reflexivity.
Defined.

(** C4, witness: one notch backwards in the Pixel-mode view. *)
Lemma wheel_zoom_out_exits_pixel_mode_witness :
  ∃ s', wheelEvent plain_geometry small_pixel_view (wheel_at_center (-120)) = Some s' ∧
        s' = exit_pixel_mode plain_geometry small_pixel_view
               (Some (mkQPoint 400 300)) (mkQPoint 400 300) ∧
        pixel_mode s' = false ∧ tile_items s' = ∅.
Proof.
  apply (wheel_zoom_out_exits_pixel_mode plain_geometry small_pixel_view
           (wheel_at_center (-120))).
  - vm_compute. reflexivity.
  - vm_compute. eauto.
  - vm_compute. eauto.
  - vm_compute. reflexivity.
  - reflexivity.
  - reflexivity.
  - reflexivity.
Defined.

(** The general statement about zooming in across the threshold, at the
    view that [load_image] leaves: one fit is queued, so it is the fit
    scale that the handler ends at. *)
Lemma wheel_zoom_in_enters_pixel_mode_witness :
  let s := just_loaded_view in
  let ev := wheel_at_center 60000 in
  ∃ s', wheelEvent plain_geometry s ev = Some s' ∧ pixel_mode s' = true ∧
        pending_fit s' = 0%nat ∧
        saved_scale s' =
          Some (current_scale
                  (wheel_zoomed plain_geometry s ev
                     (new_scale_of s (angleDelta ev) / current_scale s)%float)) ∧
        (pending_fit s = 0%nat →
           transform s' = mkQTransform 64 64 0 0 ∧ current_scale s' = 64%float ∧
           auto_fit_mode s' = false) ∧
        ((0 < pending_fit s)%nat →
           current_scale s' = compute_long_side_scale s ∧
           auto_fit_mode s' = true).
Proof.
  apply (wheel_zoom_in_enters_pixel_mode plain_geometry just_loaded_view
           (wheel_at_center 60000)).
  - reflexivity.
  - reflexivity.
  - reflexivity.
  - eexists. reflexivity.
  - eexists. reflexivity.
  - reflexivity.
  - vm_compute. reflexivity.
  - vm_compute. reflexivity.
  - vm_compute. eauto.
Defined.

(** C5, at the failing input.  [load_image] of a 40 x 30 image into an
    800 x 600 viewport resets the matrix and queues a zero-delay
    [fit_long_side]; a wheel event of delta 60000 handled before the
    event loop delivers it has the clamped target 64.0, so it calls
    [enter_pixel_mode], and the [processEvents()] call in there runs the
    queued fit after the matrix was snapped.  The handler returns in
    Pixel mode at the fit scale [800 / 40 = 20.0] with auto-fit on, where
    the claim, and the handler's own comments, say exactly 64.0.  With
    the queued fit delivered first, the same wheel event ends at 64.0
    with auto-fit off. *)
Example wheel_right_after_load_is_refitted :
  pixel_mode just_loaded_view = false ∧
  is_Some (orig_qimage just_loaded_view) ∧
  pending_fit just_loaded_view = 1%nat ∧
  new_scale_of just_loaded_view 60000 = 64%float ∧
  compute_long_side_scale just_loaded_view = 20%float ∧
  (λ s', (pixel_mode s', transform s', auto_fit_mode s')) <$>
    wheelEvent plain_geometry just_loaded_view (wheel_at_center 60000)
    = Some (true, mkQTransform 20 20 17600 13200, true) ∧
  (λ s', (pixel_mode s', transform s', auto_fit_mode s')) <$>
    handle_all plain_geometry just_loaded_view
      [PendingFit (mkQPoint 400 300); Wheel (wheel_at_center 60000)]
    = Some (true, mkQTransform 64 64 0 0, false).
Proof.
  split; [reflexivity|]. split; [by eexists|].
  repeat split; vm_compute; reflexivity.
Qed.

(** C7, witness: the viewport point (130, 90) of the red view shows the
    image pixel (4, 4). *)
Lemma pixel_probe_witness :
  let s := red_view in
  let img := uniform_image 10 10 (255, 0, 0) in
  let p := mkQPoint 130 90 in
  (¬ (0 ≤ 4 < img_width img ∧ 0 ≤ 4 < img_height img) →
   emit_pixel_info_at_viewport_point plain_geometry s p = Some absent_sample) ∧
  (0 ≤ 4 < img_width img ∧ 0 ≤ 4 < img_height img →
   emit_pixel_info_at_viewport_point plain_geometry s p =
     Some (4, 4,
           let '(r, g, b) := img_pixel img 4 4 in
           if is_grayscale s then Gray r else RGB r g b)) ∧
  (∀ mode, emit_pixel_info_at_viewport_point plain_geometry (with_pixel_mode s mode) p =
           emit_pixel_info_at_viewport_point plain_geometry s p).
Proof.
  apply (pixel_probe plain_geometry red_view (uniform_image 10 10 (255, 0, 0))
           (mkQPoint 130 90) 4 4).
  - reflexivity.
  - vm_compute. reflexivity.
  - vm_compute. reflexivity.
Defined.

(** The two probes of the specification's example. *)
Example probe_outside_is_absent :
  emit_pixel_info_at_viewport_point plain_geometry red_view (mkQPoint 30 70)
    = Some absent_sample.
Proof. vm_compute. reflexivity. Qed.

Example probe_inside_is_red :
  emit_pixel_info_at_viewport_point plain_geometry red_view (mkQPoint 130 90)
    = Some (4, 4, RGB 255 0 0).
Proof. vm_compute. reflexivity. Qed.

(** C8, witness: the first pass over the untiled Pixel-mode view adds
    four tiles, the second one nothing. *)
Lemma update_visible_tiles_idempotent_witness :
  let s1 := default untiled_pixel_view
              (fst <$> update_visible_tiles plain_geometry untiled_pixel_view) in
  update_visible_tiles plain_geometry s1 = Some (s1, ([], [])).
Proof.
  apply (update_visible_tiles_idempotent plain_geometry untiled_pixel_view _
           [] [(0, 0); (1, 0); (0, 1); (1, 1)]).
  vm_compute. reflexivity.
Defined.


(** C10, witness: entering twice, and leaving Normal mode. *)
Lemma invalid_mode_calls_are_noops_witness :
  enter_pixel_mode plain_geometry small_pixel_view None (mkQPoint 5 5)
    = Some small_pixel_view ∧
  exit_pixel_mode plain_geometry small_gray_view None (mkQPoint 5 5)
    = small_gray_view.
Proof.
  split.
  - apply (invalid_mode_calls_are_noops plain_geometry small_pixel_view None
             (mkQPoint 5 5)).
    right. vm_compute. reflexivity.
  - apply (invalid_mode_calls_are_noops plain_geometry small_gray_view None
             (mkQPoint 5 5)).
    reflexivity.
Defined.

(* ================================================================== *)
(** * The further theorems at concrete inputs *)
(* ================================================================== *)

Lemma example_run_returns :
  handle_all plain_geometry (initial_view example_viewport) example_run
    = Some example_pixel_state.
Proof. vm_compute. reflexivity. Qed.

Lemma example_run_fitted_returns :
  handle_all plain_geometry (initial_view example_viewport) example_run_fitted
    = Some example_normal_state.
Proof. vm_compute. reflexivity. Qed.

Lemma example_cache_wf : cache_wf example_cache.
Proof. apply put_wf, put_wf, put_wf, new_wf. Qed.

Lemma example_run_wheels_find_no_fit :
  wheels_find_no_fit plain_geometry (initial_view example_viewport) example_run = true.
Proof. vm_compute. reflexivity. Qed.

(** X1, witness: the example session, whose only wheel event comes
    after the queued fit has run, ends in Pixel mode. *)
Lemma pixel_mode_invariant_witness :
  is_Some (orig_qimage example_pixel_state) ∧
  (∃ it, pixmap_item example_pixel_state = Some it ∧ item_visible it = false) ∧
  is_Some (saved_transform example_pixel_state) ∧
  pending_fit example_pixel_state = 0%nat ∧
  (wheels_find_no_fit plain_geometry (initial_view example_viewport) example_run
     = true →
   current_scale example_pixel_state = 64%float ∧
   auto_fit_mode example_pixel_state = false).
Proof.
  apply (pixel_mode_invariant plain_geometry example_viewport example_run
           example_pixel_state).
  - vm_compute. reflexivity.
  - vm_compute. reflexivity.
Defined.

(** X2, witness: the session ended by a double click is in Normal mode. *)
Lemma normal_mode_invariant_witness :
  tile_items example_normal_state = ∅ ∧
  ∀ it, pixmap_item example_normal_state = Some it → item_visible it = true.
Proof.
  apply (normal_mode_invariant plain_geometry example_viewport example_run_fitted
           example_normal_state).
  - vm_compute. reflexivity.
  - vm_compute. reflexivity.
Defined.

(** X3, witness: the tile (2, 1) materialized at the end of the session. *)
Lemma tiles_never_stale_witness :
  let s := example_pixel_state in
  let pix := mkTilePixmap 32 16 8 14 true (replicate 14 (replicate 8 (10, 10, 10))) in
  make_tile_pixmap s (2, 1).1 (2, 1).2 = Some pix ∧
  ∃ img, orig_qimage s = Some img ∧ tile_gray pix = is_grayscale s ∧
    ∀ xx yy, 0 ≤ xx < tile_w pix → 0 ≤ yy < tile_h pix →
      (0 ≤ tile_x0 pix + xx < img_width img ∧
       0 ≤ tile_y0 pix + yy < img_height img) ∧
      tile_cells pix !! Z.to_nat yy ≫= (.!! Z.to_nat xx)
      = Some (img_pixel img (tile_x0 pix + xx) (tile_y0 pix + yy)).
Proof.
  apply (tiles_never_stale plain_geometry example_viewport example_run
           example_pixel_state (2, 1)
           (mkTilePixmap 32 16 8 14 true (replicate 14 (replicate 8 (10, 10, 10))))).
  - vm_compute. reflexivity.
  - left. vm_compute. reflexivity.
Defined.

(** After a second image of the same size has been loaded, the tiles
    on screen and in the cache are painted from its pixels: none of the
    first image's bitmaps, which had the same keys, origins and sizes,
    is left. *)
Example reload_renders_new_pixels :
  (λ s, (pixel_mode s, scroll s, fst <$> map_to_list (tile_items s),
         tiles_all_of_colour (200, 200, 200) (snd <$> map_to_list (tile_items s)),
         tiles_all_of_colour (200, 200, 200)
           (snd <$> map_to_list (TileCache.cache (tile_cache s))))) <$>
    handle_all plain_geometry (initial_view example_viewport) example_run_reloaded
  = Some (true, scroll example_pixel_state,
          fst <$> map_to_list (tile_items example_pixel_state), true, true) ∧
  length (map_to_list (tile_items example_pixel_state)) = 4%nat ∧
  tiles_all_of_colour (10, 10, 10)
    (snd <$> map_to_list (tile_items example_pixel_state)) = true.
Proof. repeat split; vm_compute; reflexivity. Qed.

(** X4, witness: the cache and the image at the end of the session. *)
Lemma reachable_cache_and_image_witness :
  (size (TileCache.cache (tile_cache example_pixel_state)) ≤ CACHE_MAX_TILES)%nat ∧
  NoDup (TileCache.order (tile_cache example_pixel_state)) ∧
  (∀ k, k ∈ TileCache.order (tile_cache example_pixel_state) ↔
        is_Some (TileCache.cache (tile_cache example_pixel_state) !! k)) ∧
  (∀ img, orig_qimage example_pixel_state = Some img →
     0 < img_width img ∧ 0 < img_height img ∧
     ∃ it, pixmap_item example_pixel_state = Some it ∧ item_pixmap it = img).
Proof.
  apply (reachable_cache_and_image plain_geometry example_viewport example_run
           example_pixel_state).
  vm_compute. reflexivity.
Defined.

(** X5, witness: the tile (1, 1) of the small Pixel-mode view. *)
Lemma visible_tile_range_in_grid_witness :
  ∃ img, orig_qimage small_pixel_view = Some img ∧
    0 ≤ (1, 1).1 ≤ (img_width img - 1) / TILE_ORIG_PX ∧
    0 ≤ (1, 1).2 ≤ (img_height img - 1) / TILE_ORIG_PX.
Proof.
  apply (visible_tile_range_in_grid plain_geometry small_pixel_view 1
           (0, 1, 0, 1) (1, 1)).
  - vm_compute. reflexivity.
  - refine (bool_decide_unpack ((1, 1) ∈ required_tiles (0, 1, 0, 1)) _).
    vm_compute. exact I.
Defined.

(** X6, witness: the lower right tile of the 40 x 30 image. *)
Lemma make_tile_pixmap_clips_witness :
  let s := small_gray_view in
  let img := uniform_image 40 30 (10, 10, 10) in
  (is_Some (make_tile_pixmap s 2 1) ↔
     2 * TILE_ORIG_PX < img_width img ∧ 1 * TILE_ORIG_PX < img_height img) ∧
  (∀ pix, make_tile_pixmap s 2 1 = Some pix →
     tile_x0 pix = 2 * TILE_ORIG_PX ∧ tile_y0 pix = 1 * TILE_ORIG_PX ∧
     1 ≤ tile_w pix ≤ TILE_ORIG_PX ∧ 1 ≤ tile_h pix ≤ TILE_ORIG_PX ∧
     tile_x0 pix + tile_w pix ≤ img_width img ∧
     tile_y0 pix + tile_h pix ≤ img_height img ∧
     (0 ≤ 2 → 0 ≤ tile_x0 pix) ∧ (0 ≤ 1 → 0 ≤ tile_y0 pix) ∧
     tile_gray pix = is_grayscale s).
Proof.
  apply (make_tile_pixmap_clips small_gray_view (uniform_image 40 30 (10, 10, 10)) 2 1).
  reflexivity.
Defined.

(** X7, witness: the first pass over the untiled Pixel-mode view. *)
Lemma update_visible_tiles_materializes_required_witness :
  let s1 := default untiled_pixel_view
              (fst <$> update_visible_tiles plain_geometry untiled_pixel_view) in
  (∀ k, is_Some (tile_items s1 !! k) ↔ k ∈ required_tiles (0, 1, 0, 1)) ∧
  (∀ k, k ∈ [] ↔ is_Some (tile_items untiled_pixel_view !! k) ∧
                 k ∉ required_tiles (0, 1, 0, 1)) ∧
  (∀ k, k ∈ [(0, 0); (1, 0); (0, 1); (1, 1)] ↔
        k ∈ required_tiles (0, 1, 0, 1) ∧ tile_items untiled_pixel_view !! k = None).
Proof.
  apply (update_visible_tiles_materializes_required plain_geometry untiled_pixel_view
           (uniform_image 40 30 (10, 10, 10)) (0, 1, 0, 1)).
  - vm_compute. reflexivity.
  - reflexivity.
  - reflexivity.
  - vm_compute. reflexivity.
  - vm_compute. reflexivity.
  - vm_compute. reflexivity.
Defined.

(** X8, witness: storing into the full example cache. *)
Lemma put_then_get_witness :
  (TileCache.get (TileCache.put example_cache (9, 0) 7%nat) (9, 0)).1 = Some 7%nat.
Proof.
  apply (put_then_get example_cache (9, 0) 7%nat).
  - exact example_cache_wf.
  - vm_compute. lia.
Defined.

(** X9, witness: the key (1, 0) is the oldest of the example cache. *)
Lemma put_full_evicts_oldest_witness :
  TileCache.cache (TileCache.put example_cache (9, 0) 7%nat)
    = <[(9, 0) := 7%nat]> (delete (1, 0) (TileCache.cache example_cache)) ∧
  TileCache.order (TileCache.put example_cache (9, 0) 7%nat)
    = [(2, 0); (3, 0)] ++ [(9, 0)].
Proof.
  apply (put_full_evicts_oldest example_cache (1, 0) [(2, 0); (3, 0)] (9, 0) 7%nat).
  - exact example_cache_wf.
  - vm_compute. reflexivity.
  - vm_compute. reflexivity.
  - vm_compute. reflexivity.
Defined.

(** X10, witness: reading (1, 0) before the store keeps it. *)
Lemma get_protects_from_eviction_witness :
  TileCache.cache
    (TileCache.put (TileCache.get example_cache (1, 0)).2 (9, 0) 7%nat) !! (1, 0)
  = Some 1%nat.
Proof.
  apply (get_protects_from_eviction example_cache (1, 0) 1%nat (9, 0) 7%nat).
  - exact example_cache_wf.
  - vm_compute. lia.
  - vm_compute. reflexivity.
  - discriminate.
Defined.

(** X11, witness: overwriting (2, 0) in the example cache. *)
Lemma put_existing_overwrites_witness :
  TileCache.cache (TileCache.put example_cache (2, 0) 7%nat)
    = <[(2, 0) := 7%nat]> (TileCache.cache example_cache) ∧
  TileCache.order (TileCache.put example_cache (2, 0) 7%nat)
    = TileCache.remove_first (2, 0) (TileCache.order example_cache) ++ [(2, 0)].
Proof.
  apply (put_existing_overwrites example_cache (2, 0) 2%nat 7%nat).
  - exact example_cache_wf.
  - vm_compute. reflexivity.
Defined.

(** X12, witness: fitting the 40 x 30 image into the 800 x 600 viewport. *)
Lemma fit_long_side_installs_fit_scale_witness :
  let s' := fit_long_side plain_geometry small_gray_view None (mkQPoint 5 5) in
  current_scale s' = compute_long_side_scale small_gray_view ∧
  m22 (transform s') = compute_long_side_scale small_gray_view ∧
  auto_fit_mode s' = true ∧
  pixel_mode s' = pixel_mode small_gray_view ∧
  tile_items s' = tile_items small_gray_view ∧
  tile_cache s' = tile_cache small_gray_view ∧
  compute_long_side_scale s' = compute_long_side_scale small_gray_view.
Proof.
  apply (fit_long_side_installs_fit_scale plain_geometry small_gray_view None
           (mkQPoint 5 5)).
  eexists. reflexivity.
Defined.

(** X15, witness: an explicit point outside the viewport, the cursor
    inside. *)
Lemma reference_point_in_viewport_witness :
  in_viewport small_gray_view
    (get_reference_viewport_point small_gray_view (Some (mkQPoint 900 10))
       (mkQPoint 5 5)) = true.
Proof.
  apply (reference_point_in_viewport small_gray_view (Some (mkQPoint 900 10))
           (mkQPoint 5 5)).
  - vm_compute. reflexivity.
  - vm_compute. reflexivity.
Defined.

(** X16, witness: a double click in the middle of the Pixel-mode view. *)
Lemma double_click_fits_witness :
  let s := small_pixel_view in
  let pos := mkQPointF 300 200 in
  let in_left := (ptf_x pos <=? Py.float_of_Z hotspot_width)%float in
  let in_right :=
    (Py.float_of_Z (sz_width (viewport s) - hotspot_width) <=? ptf_x pos)%float in
  (in_left = true →
   mouseDoubleClickEvent plain_geometry s pos (mkQPoint 5 5)
     = Some (s, [PrevRequested])) ∧
  (in_left = false → in_right = true →
   mouseDoubleClickEvent plain_geometry s pos (mkQPoint 5 5)
     = Some (s, [NextRequested])) ∧
  (in_left = false → in_right = false →
   ∀ rx ry, Py.int (ptf_x pos) = Some rx → Py.int (ptf_y pos) = Some ry →
   ∃ s', mouseDoubleClickEvent plain_geometry s pos (mkQPoint 5 5) = Some (s', []) ∧
         pixel_mode s' = false ∧ auto_fit_mode s' = true ∧
         current_scale s' = compute_long_side_scale s ∧
         compute_long_side_scale s' = compute_long_side_scale s).
Proof.
  apply (double_click_fits plain_geometry small_pixel_view (mkQPointF 300 200)
           (mkQPoint 5 5)).
  - vm_compute. eauto.
  - intros _. vm_compute. eauto.
Defined.

(** The three places of a double click on the Pixel-mode view, evaluated:
    the left hot spot, the right hot spot, the middle. *)
Example double_click_places :
  mouseDoubleClickEvent plain_geometry small_pixel_view (mkQPointF 40 200)
    (mkQPoint 5 5) = Some (small_pixel_view, [PrevRequested]) ∧
  mouseDoubleClickEvent plain_geometry small_pixel_view (mkQPointF 760 200)
    (mkQPoint 5 5) = Some (small_pixel_view, [NextRequested]) ∧
  (λ r, (pixel_mode r.1, current_scale r.1, auto_fit_mode r.1, r.2)) <$>
    mouseDoubleClickEvent plain_geometry small_pixel_view (mkQPointF 300 200)
      (mkQPoint 5 5) = Some (false, 20%float, true, []).
Proof. split; [|split]; vm_compute; reflexivity. Qed.

(** X17, witness: the value 200 is written in black. *)
Lemma gray_pixel_pen_witness : pen_is_black 200 200 200 = (140 <? 200).
Proof. apply (gray_pixel_pen 200). lia. Defined.

(** X18, witness: stepping from the last entry of the example folder. *)
Lemma gallery_step_in_range_witness :
  loads_entry example_gallery (show_next example_gallery) ∧
  loads_entry example_gallery (show_prev example_gallery).
Proof. apply (gallery_step_in_range example_gallery). discriminate. Defined.

(** X19, witness: forwards across the wrap and back. *)
Lemma gallery_steps_are_inverse_witness :
  (show_next example_gallery ≫= λ r, fst <$> show_prev r.1) = Some example_gallery ∧
  (show_prev example_gallery ≫= λ r, fst <$> show_next r.1) = Some example_gallery.
Proof.
  apply (gallery_steps_are_inverse example_gallery).
  vm_compute. split; [discriminate|reflexivity].
Defined.

(** X20, witness: one more notch forwards at the end of the session. *)
Lemma wheel_zoom_in_stays_in_pixel_mode_witness :
  ∃ s', wheelEvent plain_geometry example_pixel_state (wheel_at_center 120) = Some s' ∧
        pixel_mode s' = true ∧ current_scale s' = 64%float ∧
        auto_fit_mode s' = false ∧
        tile_items s' = tile_items example_pixel_state ∧
        tile_cache s' = tile_cache example_pixel_state ∧
        saved_transform s' = saved_transform example_pixel_state.
Proof.
  apply (wheel_zoom_in_stays_in_pixel_mode plain_geometry example_pixel_state
           (wheel_at_center 120)).
  - vm_compute. reflexivity.
  - vm_compute. reflexivity.
  - vm_compute. eauto.
  - reflexivity.
  - reflexivity.
  - reflexivity.
Defined.

(** X21 at two Pixel-mode views: at the end of the session (auto-fit
    off) a resize keeps the scale 64.0 and starts the timer; in the view
    that a wheel event right after [load_image] leaves (auto-fit on),
    once the zoom-end timer has fired, it refits to the new viewport,
    here to [320 / 40 = 8.0], and stays in Pixel mode. *)
Example resize_in_pixel_mode :
  (let r := resizeEvent plain_geometry example_pixel_state (mkQSize 320 240)
              (mkQPoint 5 5) in
   (pixel_mode r.1, current_scale r.1, auto_fit_mode r.1, r.2))
  = (true, 64%float, false, true) ∧
  (λ s, let r := resizeEvent plain_geometry (on_zoom_end s) (mkQSize 320 240)
                   (mkQPoint 5 5) in
        (pixel_mode r.1, current_scale r.1, auto_fit_mode r.1, r.2)) <$>
    wheelEvent plain_geometry just_loaded_view (wheel_at_center 60000)
  = Some (true, 8%float, true, false).
Proof. split; vm_compute; reflexivity. Qed.

